(** * STPPG: spatio-temporal point process generator (src/stppg.py)

    A shallow embedding of the kernels, the Hawkes intensity, the thinning
    sampler and the values drawn by [plot_3d_pointprocess_lam_f] of
    [stppg.py], and the properties of its specification.

    Conventions of the embedding.
    - A numpy float is a real number of [R]: arithmetic is exact, there is no
      rounding, overflow, [inf] or [nan].  No statement relies on the value
      of a division by zero: at a time difference of zero numpy computes
      [inf] and [nan], and what is stated of the values of a kernel or of
      the passes of the sampler is stated for times of the history strictly
      before the time of the location.
    - A one-dimensional array is a [list R]; a two-dimensional array is an
      [array2], its rows together with the column count (numpy keeps the
      column count of an array without rows).  An elementwise expression is
      its scalar expression applied to the entries of its operands, once
      these are broadcast to a common length.
    - A Python exception is the [Raise] case of [outcome]: [IndexError] of
      an index out of range, [ValueError] of operands that do not
      broadcast, of a negative dimension or Poisson mean, and
      [ZeroDivisionError].  The [return None] of the thinning pass is the
      [None] of an [option].
    - The pseudo-random draws are inputs: a record [draws] for each pass of
      the loop of [generate], whose list bounds the number of passes.  The
      text written to [sys.stderr] is a list of [msg]. *)

From Stdlib Require Import String.
From Stdlib Require Import Reals Lra Lia List ZArith Bool.
From Stdlib Require Import Sorted Permutation.
Import ListNotations.
Local Open Scope R_scope.

(** ** Exceptions *)

Inductive exn : Type :=
| IndexError
| ValueError
| ZeroDivisionError.

Inductive outcome (A : Type) : Type :=
| Ok (a : A)
| Raise (e : exn).

Arguments Ok {A} a.
Arguments Raise {A} e.

Definition bind {A B : Type} (c : outcome A) (k : A -> outcome B) : outcome B :=
  match c with
  | Ok a => k a
  | Raise e => Raise e
  end.

Notation "x <- c ;; k" := (bind c (fun x => k))
  (at level 61, c at next level, right associativity).

(** ** The fragment of numpy the program uses *)

Module Np.

(** What an arithmetic expression of the program evaluates to: a Python
    scalar or a one-dimensional array. *)
Inductive ndvalue : Type :=
| Scalar (x : R)
| Array (v : list R).

Record array2 : Type := mk_array2 { ncols : nat; rows : list (list R) }.

Definition nrows (a : array2) : nat := length (rows a).

(** Every row has [ncols] entries. *)
Definition regular (a : array2) : Prop :=
  Forall (fun r => length r = ncols a) (rows a).

(** [np.empty((0, d))] *)
Definition empty (d : nat) : array2 := mk_array2 d [].

(** Broadcasting of two axis lengths: equal, or one of them is 1. *)
Definition bdim (m n : nat) : outcome nat :=
  if (m =? n)%nat then Ok m
  else if (m =? 1)%nat then Ok n
  else if (n =? 1)%nat then Ok m
  else Raise ValueError.

(** The common length of several one-dimensional operands. *)
Fixpoint bdims (acc : nat) (l : list nat) : outcome nat :=
  match l with
  | [] => Ok acc
  | n :: l' => m <- bdim acc n ;; bdims m l'
  end.

(** An operand of length 1 is repeated along the axis. *)
Definition stretch (n : nat) (v : list R) : list R :=
  match v with
  | [x] => repeat x n
  | _ => v
  end.

(** Entry [j] of operand [v] once broadcast to length [n]. *)
Definition bget (n : nat) (v : list R) (j : nat) : R := nth j (stretch n v) 0.

(** The array of length [n] whose entry [j] is [f j]: the result of an
    elementwise expression. *)
Definition elementwise (n : nat) (f : nat -> R) : list R := map f (seq 0 n).

Fixpoint zip_with (f : R -> R -> R) (u v : list R) : list R :=
  match u, v with
  | x :: u', y :: v' => f x y :: zip_with f u' v'
  | _, _ => []
  end.

(** A scalar broadcasts as an array of length 1 does. *)
Definition to_1d (v : ndvalue) : list R :=
  match v with
  | Scalar x => [x]
  | Array l => l
  end.

(** [a[:, j]] *)
Definition column (j : nat) (a : array2) : outcome (list R) :=
  if (j <? ncols a)%nat then Ok (map (fun r => nth j r 0) (rows a))
  else Raise IndexError.

(** [a[:, 1:]] *)
Definition columns_from_1 (a : array2) : array2 :=
  mk_array2 (ncols a - 1) (map (@tl R) (rows a)).

(** [s - a] for a one-dimensional [s] and a two-dimensional [a]. *)
Definition sub_rows (s : list R) (a : array2) : outcome array2 :=
  n <- bdim (length s) (ncols a) ;;
  Ok (mk_array2 n
        (map (fun h => zip_with Rminus (stretch n s) (stretch n h)) (rows a))).

(** [t - v] for a scalar [t]. *)
Definition scalar_sub (t : R) (v : list R) : list R := map (fun h => t - h) v.

Definition sum_list (v : list R) : R := fold_left Rplus v 0.

(** [np.sum] *)
Definition sum (v : ndvalue) : R :=
  match v with
  | Scalar x => x
  | Array l => sum_list l
  end.

(** [w * v] for a Python float [w]. *)
Definition scale (w : R) (v : ndvalue) : ndvalue :=
  match v with
  | Scalar x => Scalar (w * x)
  | Array l => Array (map (Rmult w) l)
  end.

(** [acc += v]: a Python number is rebound to the sum; an array is updated
    in place, so the right-hand side has to broadcast to its shape. *)
Definition iadd (acc v : ndvalue) : outcome ndvalue :=
  match acc, v with
  | Scalar a, Scalar b => Ok (Scalar (a + b))
  | Scalar a, Array l => Ok (Array (map (Rplus a) l))
  | Array u, Scalar b => Ok (Array (map (fun x => x + b) u))
  | Array u, Array l =>
      if (length l =? length u)%nat then Ok (Array (zip_with Rplus u l))
      else if (length l =? 1)%nat
           then Ok (Array (zip_with Rplus u (stretch (length u) l)))
           else Raise ValueError
  end.

End Np.

Import Np.

(** [range(n)] for a Python integer [n]. *)
Definition range (n : Z) : list nat := seq 0 (Z.to_nat n).

(** [l[k]] for a list and a non-negative index. *)
Definition getitem {A : Type} (l : list A) (k : nat) : outcome A :=
  match nth_error l k with
  | Some a => Ok a
  | None => Raise IndexError
  end.

(** ** Kernels *)

(** The one operation every kernel class has. *)
Class Kernel (K : Type) : Type :=
  nu : K -> R -> list R -> list R -> array2 -> outcome ndvalue.

(** *** StdDiffusionKernel *)

Record StdDiffusionKernel : Type := mk_std {
  std_C : R;
  std_beta : R;
  std_sigma_x : R;
  std_sigma_y : R
}.

Definition StdDiffusionKernel_init (C beta sigma_x sigma_y : R)
  : outcome StdDiffusionKernel :=
  Ok (mk_std C beta sigma_x sigma_y).

(** The expression returned by [StdDiffusionKernel.nu], at one entry of the
    arrays [delta_t], [delta_x], [delta_y]. *)
Definition std_value (self : StdDiffusionKernel) (delta_t delta_x delta_y : R) : R :=
  exp (- std_beta self * delta_t) *
  (std_C self / (2 * PI * std_sigma_x self * std_sigma_y self * delta_t)) *
  exp ((- 1 / (2 * delta_t)) *
       ((Rsqr delta_x / Rsqr (std_sigma_x self)) +
        (Rsqr delta_y / Rsqr (std_sigma_y self)))).

Definition StdDiffusionKernel_nu (self : StdDiffusionKernel)
    (t : R) (s : list R) (his_t : list R) (his_s : array2) : outcome ndvalue :=
  delta_s <- sub_rows s his_s ;;
  let delta_t := scalar_sub t his_t in
  delta_x <- column 0 delta_s ;;
  delta_y <- column 1 delta_s ;;
  n <- bdims 1 [length delta_t; length delta_x; length delta_y] ;;
  Ok (Array (elementwise n (fun j =>
        std_value self (bget n delta_t j) (bget n delta_x j) (bget n delta_y j)))).

#[export] Instance Kernel_Std : Kernel StdDiffusionKernel := StdDiffusionKernel_nu.

(** *** GaussianDiffusionKernel *)

Record GaussianDiffusionKernel : Type := mk_gdk {
  gdk_C : R;
  gdk_beta : R;
  gdk_mu_x : R;
  gdk_mu_y : R;
  gdk_sigma_x : R;
  gdk_sigma_y : R;
  gdk_rho : R
}.

(** [__init__] stores its arguments; it checks none of them. *)
Definition GaussianDiffusionKernel_init (mu_x mu_y sigma_x sigma_y rho beta C : R)
  : outcome GaussianDiffusionKernel :=
  Ok (mk_gdk C beta mu_x mu_y sigma_x sigma_y rho).

Definition gaussian_val (self : GaussianDiffusionKernel)
    (delta_t delta_x delta_y : R) : R :=
  exp (- gdk_beta self * delta_t) *
  (gdk_C self /
     (2 * PI * gdk_sigma_x self * gdk_sigma_y self * delta_t
      * sqrt (1 - Rsqr (gdk_rho self)))) *
  exp ((- 1 / (2 * delta_t * (1 - Rsqr (gdk_rho self)))) *
       ((Rsqr (delta_x - gdk_mu_x self) / Rsqr (gdk_sigma_x self)) +
        (Rsqr (delta_y - gdk_mu_y self) / Rsqr (gdk_sigma_y self)) -
        (2 * gdk_rho self * (delta_x - gdk_mu_x self) * (delta_y - gdk_mu_y self)
         / (gdk_sigma_x self * gdk_sigma_y self)))).

Definition GaussianDiffusionKernel_nu (self : GaussianDiffusionKernel)
    (t : R) (s : list R) (his_t : list R) (his_s : array2) : outcome ndvalue :=
  delta_s <- sub_rows s his_s ;;
  let delta_t := scalar_sub t his_t in
  delta_x <- column 0 delta_s ;;
  delta_y <- column 1 delta_s ;;
  n <- bdims 1 [length delta_t; length delta_x; length delta_y] ;;
  Ok (Array (elementwise n (fun j =>
        gaussian_val self (bget n delta_t j) (bget n delta_x j) (bget n delta_y j)))).

#[export] Instance Kernel_Gaussian : Kernel GaussianDiffusionKernel :=
  GaussianDiffusionKernel_nu.

(** A [for] loop over a list: the body updates the loop state or raises. *)
Fixpoint for_each {A S : Type} (l : list A) (body : A -> S -> outcome S) (s : S)
  : outcome S :=
  match l with
  | [] => Ok s
  | a :: l' => s' <- body a s ;; for_each l' body s'
  end.

(** *** GaussianMixtureDiffusionKernel *)

Record GaussianMixtureDiffusionKernel : Type := mk_gmdk {
  gm_gdks : list GaussianDiffusionKernel;
  gm_n_comp : Z;
  gm_w : list R
}.

Definition GaussianMixtureDiffusionKernel_init (n_comp : Z)
    (w mu_x mu_y sigma_x sigma_y rho : list R) (beta C : R)
  : outcome GaussianMixtureDiffusionKernel :=
  gdks <- for_each (range n_comp)
            (fun k gdks =>
               mx <- getitem mu_x k ;;
               my <- getitem mu_y k ;;
               sx <- getitem sigma_x k ;;
               sy <- getitem sigma_y k ;;
               r <- getitem rho k ;;
               gdk <- GaussianDiffusionKernel_init mx my sx sy r beta C ;;
               Ok (gdks ++ [gdk]))
            [] ;;
  Ok (mk_gmdk gdks n_comp w).

(** The loop of both mixture classes: [nu += self.w[k] * self.gdks[k].nu(...)]. *)
Definition mixture_nu {G : Type} `{Kernel G} (n_comp : Z) (w : list R)
    (gdks : list G) (t : R) (s : list R) (his_t : list R) (his_s : array2)
  : outcome ndvalue :=
  for_each (range n_comp)
    (fun k acc =>
       wk <- getitem w k ;;
       gdk <- getitem gdks k ;;
       v <- nu gdk t s his_t his_s ;;
       iadd acc (scale wk v))
    (Scalar 0).

Definition GaussianMixtureDiffusionKernel_nu (self : GaussianMixtureDiffusionKernel)
    (t : R) (s : list R) (his_t : list R) (his_s : array2) : outcome ndvalue :=
  mixture_nu (gm_n_comp self) (gm_w self) (gm_gdks self) t s his_t his_s.

#[export] Instance Kernel_GaussianMixture : Kernel GaussianMixtureDiffusionKernel :=
  GaussianMixtureDiffusionKernel_nu.

(** *** SpatialVariantGaussianDiffusionKernel *)

(** A parameter of the spatially variant kernel: a Python function of the
    two location columns of the history. *)
Definition location_fn : Type := list R -> list R -> ndvalue.

Record SpatialVariantGaussianDiffusionKernel : Type := mk_svgdk {
  sv_C : R;
  sv_beta : R;
  sv_mu_x : location_fn;
  sv_mu_y : location_fn;
  sv_sigma_x : location_fn;
  sv_sigma_y : location_fn;
  sv_rho : location_fn
}.

Definition SpatialVariantGaussianDiffusionKernel_init
    (f_mu_x f_mu_y f_sigma_x f_sigma_y f_rho : location_fn) (beta C : R)
  : outcome SpatialVariantGaussianDiffusionKernel :=
  Ok (mk_svgdk C beta f_mu_x f_mu_y f_sigma_x f_sigma_y f_rho).

(** The expression [gaussian_val] of [SpatialVariantGaussianDiffusionKernel.nu]
    at one entry of its operand arrays. *)
Definition sv_gaussian_val (self : SpatialVariantGaussianDiffusionKernel)
    (mu_xs mu_ys sigma_xs sigma_ys rhos delta_t delta_x delta_y : R) : R :=
  exp (- sv_beta self * delta_t) *
  (sv_C self /
     (2 * PI * sigma_xs * sigma_ys * delta_t * sqrt (1 - Rsqr rhos))) *
  exp ((- 1 / (2 * delta_t * (1 - Rsqr rhos))) *
       ((Rsqr (delta_x - mu_xs) / Rsqr sigma_xs) +
        (Rsqr (delta_y - mu_ys) / Rsqr sigma_ys) -
        (2 * rhos * (delta_x - mu_xs) * (delta_y - mu_ys)
         / (sigma_xs * sigma_ys)))).

Definition SpatialVariantGaussianDiffusionKernel_nu
    (self : SpatialVariantGaussianDiffusionKernel)
    (t : R) (s : list R) (his_t : list R) (his_s : array2) : outcome ndvalue :=
  delta_s <- sub_rows s his_s ;;
  let delta_t := scalar_sub t his_t in
  delta_x <- column 0 delta_s ;;
  delta_y <- column 1 delta_s ;;
  his_x <- column 0 his_s ;;
  his_y <- column 1 his_s ;;
  let mu_xs := to_1d (sv_mu_x self his_x his_y) in
  let mu_ys := to_1d (sv_mu_y self his_x his_y) in
  let sigma_xs := to_1d (sv_sigma_x self his_x his_y) in
  let sigma_ys := to_1d (sv_sigma_y self his_x his_y) in
  let rhos := to_1d (sv_rho self his_x his_y) in
  n <- bdims 1 [length delta_t; length sigma_xs; length sigma_ys; length rhos;
                length delta_x; length mu_xs; length delta_y; length mu_ys] ;;
  Ok (Array (elementwise n (fun j =>
        sv_gaussian_val self
          (bget n mu_xs j) (bget n mu_ys j) (bget n sigma_xs j)
          (bget n sigma_ys j) (bget n rhos j)
          (bget n delta_t j) (bget n delta_x j) (bget n delta_y j)))).

#[export] Instance Kernel_SpatialVariant
  : Kernel SpatialVariantGaussianDiffusionKernel :=
  SpatialVariantGaussianDiffusionKernel_nu.

(** *** SpatialVariantGaussianMixtureDiffusionKernel *)

Record SpatialVariantGaussianMixtureDiffusionKernel : Type := mk_svgmdk {
  svm_gdks : list SpatialVariantGaussianDiffusionKernel;
  svm_n_comp : Z;
  svm_w : list R
}.

Definition SpatialVariantGaussianMixtureDiffusionKernel_init (n_comp : Z)
    (w : list R) (f_mu_x f_mu_y f_sigma_x f_sigma_y f_rho : list location_fn)
    (beta C : R)
  : outcome SpatialVariantGaussianMixtureDiffusionKernel :=
  gdks <- for_each (range n_comp)
            (fun k gdks =>
               mx <- getitem f_mu_x k ;;
               my <- getitem f_mu_y k ;;
               sx <- getitem f_sigma_x k ;;
               sy <- getitem f_sigma_y k ;;
               r <- getitem f_rho k ;;
               gdk <- SpatialVariantGaussianDiffusionKernel_init mx my sx sy r beta C ;;
               Ok (gdks ++ [gdk]))
            [] ;;
  Ok (mk_svgmdk gdks n_comp w).

Definition SpatialVariantGaussianMixtureDiffusionKernel_nu
    (self : SpatialVariantGaussianMixtureDiffusionKernel)
    (t : R) (s : list R) (his_t : list R) (his_s : array2) : outcome ndvalue :=
  mixture_nu (svm_n_comp self) (svm_w self) (svm_gdks self) t s his_t his_s.

#[export] Instance Kernel_SpatialVariantMixture
  : Kernel SpatialVariantGaussianMixtureDiffusionKernel :=
  SpatialVariantGaussianMixtureDiffusionKernel_nu.

(** ** HawkesLam *)

(** What the sampler asks of the object it is given as [lam]. *)
Class Intensity (L : Type) : Type := {
  value : L -> R -> list R -> list R -> array2 -> outcome R;
  upper_bound : L -> R;
  str : L -> string
}.

Record HawkesLam (K : Type) : Type := mk_lam {
  lam_mu : R;
  lam_kernel : K;
  lam_maximum : R
}.

Arguments mk_lam {K} _ _ _.
Arguments lam_mu {K} _.
Arguments lam_kernel {K} _.
Arguments lam_maximum {K} _.

Definition HawkesLam_value {K : Type} `{Kernel K} (self : HawkesLam K)
    (t : R) (his_t : list R) (s : list R) (his_s : array2) : outcome R :=
  if (0 <? length his_t)%nat
  then v <- nu (lam_kernel self) t s his_t his_s ;;
       Ok (lam_mu self + Np.sum v)
  else Ok (lam_mu self).

Definition HawkesLam_upper_bound {K : Type} (self : HawkesLam K) : R :=
  lam_maximum self.

#[export] Instance Intensity_HawkesLam {K : Type} `{Kernel K}
  : Intensity (HawkesLam K) := {
  value := HawkesLam_value;
  upper_bound := HawkesLam_upper_bound;
  str := fun _ => "Hawkes processes"%string
}.

(** ** SpatialTemporalPointProcess *)

(** What one pass of the [while] loop of [generate] takes from the random
    generator: the Poisson count, the unit draws behind
    [np.random.uniform(low, high, N)] (by dimension, then by sample) and the
    unit draws behind the [np.random.uniform()] of each candidate. *)
Record draws : Type := mk_draws {
  poisson_N : nat;
  uniform_sample : nat -> nat -> R;
  uniform_D : nat -> R
}.

(** A draw of [np.random.uniform(low, high)] from a unit draw [u]. *)
Definition uniform (low high u : R) : R := low + (high - low) * u.

(** The lines written to [sys.stderr], without their time stamps. *)
Inductive msg : Type :=
| MsgHomogeneous (shape : nat * nat)
| MsgViolation (lam_value lam_bar : R)
| MsgChecked (i retained : nat)
| MsgThinned (shape : nat * nat) (lam : string)
| MsgGenerated (b : Z).

Definition interval : Type := (R * R)%type.

(** Modelled from the spec: [utils.lebesgue_measure], of the module [utils]
    that is not part of the sources: "returns the product of interval
    widths". *)
Definition lebesgue_measure (S : list interval) : R :=
  fold_right (fun I acc => (snd I - fst I) * acc) 1 S.

Definition time_of (row : list R) : R := nth 0 row 0.

(** [np.array(points).transpose()] for a list of columns of [n] samples. *)
Definition transpose (n : nat) (cols : list (list R)) : array2 :=
  mk_array2 (length cols)
    (map (fun j => map (fun c => nth j c 0) cols) (seq 0 n)).

Fixpoint insert_row (r : list R) (l : list (list R)) : list (list R) :=
  match l with
  | [] => [r]
  | r' :: l' =>
      if Rle_dec (time_of r) (time_of r') then r :: l else r' :: insert_row r l'
  end.

(** [points[points[:, 0].argsort()]]: the rows in ascending order of their
    first entry.  numpy promises no order among rows of equal time; this
    sort keeps them as they were. *)
Definition sort_by_time (a : array2) : array2 :=
  mk_array2 (ncols a) (fold_right insert_row [] (rows a)).

Definition shape (a : array2) : nat * nat := (nrows a, ncols a).

(** [np.concatenate([a, [row]], axis=0)] *)
Definition append_row (a : array2) (row : list R) : array2 :=
  mk_array2 (ncols a) (rows a ++ [row]).

Section Sampler.

Context {L : Type} `{Intensity L}.
Variable lam : L.

Definition _homogeneous_poisson_sampling (T : interval) (S : list interval)
    (d : draws) : outcome array2 :=
  let _S := T :: S in
  let n := lebesgue_measure _S in
  if Rlt_dec (upper_bound lam * n) 0 then Raise ValueError
  else
    let N := poisson_N d in
    let points :=
      map (fun i =>
             let I := nth i _S (0, 0) in
             map (fun j => uniform (fst I) (snd I) (uniform_sample d i j))
                 (seq 0 N))
          (seq 0 (length _S)) in
    let points := transpose N points in
    Ok (sort_by_time points).

(** The intensity the loop computes for the candidate [row] from the points
    retained so far: [t], [s], [his_t], [his_s] and [self.lam.value]. *)
Definition lam_value_at (homo_points retained_points : array2) (row : list R)
  : outcome R :=
  t <- (if (0 <? ncols homo_points)%nat then Ok (time_of row)
        else Raise IndexError) ;;
  let s := tl row in
  his_t <- column 0 retained_points ;;
  let his_s := columns_from_1 retained_points in
  value lam t his_t s his_s.

(** The body of the [for] loop of [_inhomogeneous_poisson_thinning] at
    index [i], where [row] is [homo_points[i]].  [Ok None] is the early
    [return None]. *)
Definition thinning_body (homo_points : array2) (verbose : bool) (d : draws)
    (i : nat) (row : list R) (retained_points : array2) (log : list msg)
  : list msg * outcome (option array2) :=
  match lam_value_at homo_points retained_points row with
  | Raise e => (log, Raise e)
  | Ok lam_value =>
      let lam_bar := upper_bound lam in
      let D := uniform 0 1 (uniform_D d i) in
      if Rgt_dec lam_value lam_bar
      then (log ++ [MsgViolation lam_value lam_bar], Ok None)
      else
        let retained_points :=
          if Rge_dec lam_value (D * lam_bar)
          then append_row retained_points row
          else retained_points in
        if verbose && negb (i =? 0)%nat
        then
          let m := (nrows homo_points / 10)%nat in
          if (m =? 0)%nat then (log, Raise ZeroDivisionError)
          else if (i mod m =? 0)%nat
               then (log ++ [MsgChecked i (nrows retained_points)],
                     Ok (Some retained_points))
               else (log, Ok (Some retained_points))
        else (log, Ok (Some retained_points))
  end.

Fixpoint thinning_loop (homo_points : array2) (verbose : bool) (d : draws)
    (i : nat) (cands : list (list R)) (retained_points : array2)
    (log : list msg) : list msg * outcome (option array2) :=
  match cands with
  | [] => (log, Ok (Some retained_points))
  | row :: cands' =>
      match thinning_body homo_points verbose d i row retained_points log with
      | (log', Ok (Some retained_points')) =>
          thinning_loop homo_points verbose d (S i) cands' retained_points' log'
      | stop => stop
      end
  end.

(** What the pass has written before its loop. *)
Definition start_log (homo_points : array2) (verbose : bool) : list msg :=
  if verbose then [MsgHomogeneous (shape homo_points)] else [].

Definition _inhomogeneous_poisson_thinning (homo_points : array2)
    (verbose : bool) (d : draws) : list msg * outcome (option array2) :=
  let retained_points := empty (ncols homo_points) in
  let log := start_log homo_points verbose in
  match thinning_loop homo_points verbose d 0 (rows homo_points)
          retained_points log with
  | (log, Ok (Some retained_points)) =>
      (if verbose
       then log ++ [MsgThinned (shape retained_points) (str lam)]
       else log,
       Ok (Some retained_points))
  | stop => stop
  end.

End Sampler.

(** A three-dimensional array: its shape and its entries [data[b][i][c]]. *)
Record array3 : Type := mk_array3 {
  shape3 : nat * nat * nat;
  slabs : list (list (list R))
}.

(** [np.zeros((b, l, c))]; a negative dimension is refused. *)
Definition zeros (b : Z) (l c : nat) : outcome array3 :=
  if (b <? 0)%Z then Raise ValueError
  else Ok (mk_array3 (Z.to_nat b, l, c)
             (repeat (repeat (repeat 0 c) l) (Z.to_nat b))).

(** An array of [have] entries along an axis is assigned to [want] places
    when the two agree or the array has one entry, which is repeated. *)
Definition fits (have want : nat) : bool :=
  (have =? want)%nat || (have =? 1)%nat.

Definition broadcast_to {A : Type} (want : nat) (l : list A) : list A :=
  match l with
  | [x] => repeat x want
  | _ => l
  end.

Fixpoint set_nth {A : Type} (k : nat) (a : A) (l : list A) : list A :=
  match k, l with
  | _, [] => []
  | O, _ :: l' => a :: l'
  | S k', x :: l' => x :: set_nth k' a l'
  end.

(** [data[b, :points.shape[0]] = points] *)
Definition assign_rows (data : array3) (b : nat) (points : array2)
  : outcome array3 :=
  let '(_, max_len, width) := shape3 data in
  slab <- getitem (slabs data) b ;;
  let n := Nat.min (nrows points) max_len in
  if fits (nrows points) n && fits (ncols points) width
  then
    let vals := broadcast_to n (map (broadcast_to width) (rows points)) in
    Ok (mk_array3 (shape3 data) (set_nth b (vals ++ skipn n slab) (slabs data)))
  else Raise ValueError.

(** The local variables of [generate] that its [while] loop updates. *)
Record gen_state : Type := mk_gen {
  points_list : list array2;
  sizes : list nat;
  max_len : nat;
  gen_b : Z
}.

Definition gen_start : gen_state := mk_gen [] [] 0 0%Z.

(** How a call ends: it returns, it raises, or the draws supplied to the
    model are used up with the [while] loop still running. *)
Inductive run (A : Type) : Type :=
| Returned (a : A)
| Raised (e : exn)
| Running.

Arguments Returned {A} a.
Arguments Raised {A} e.
Arguments Running {A}.

Section Generate.

Context {L : Type} `{Intensity L}.
Variable lam : L.

(** One pass of the body of the [while] loop. *)
Definition generate_body (T : interval) (S : list interval)
    (min_n_points : Z) (verbose : bool) (d : draws) (st : gen_state)
    (log : list msg) : list msg * outcome gen_state :=
  match _homogeneous_poisson_sampling lam T S d with
  | Raise e => (log, Raise e)
  | Ok homo_points =>
      let '(out, res) := _inhomogeneous_poisson_thinning lam homo_points verbose d in
      let log := log ++ out in
      match res with
      | Raise e => (log, Raise e)
      | Ok None => (log, Ok st)
      | Ok (Some points) =>
          if (Z.of_nat (nrows points) <? min_n_points)%Z then (log, Ok st)
          else
            (log ++ [MsgGenerated (gen_b st + 1)],
             Ok (mk_gen (points_list st ++ [points])
                        (sizes st ++ [nrows points])
                        (if (max_len st <? nrows points)%nat
                         then nrows points else max_len st)
                        (gen_b st + 1)))
      end
  end.

Fixpoint generate_loop (T : interval) (S : list interval) (batch_size : Z)
    (min_n_points : Z) (verbose : bool) (ds : list draws) (st : gen_state)
    (log : list msg) : list msg * run gen_state :=
  if (gen_b st <? batch_size)%Z
  then
    match ds with
    | [] => (log, Running)
    | d :: ds' =>
        match generate_body T S min_n_points verbose d st log with
        | (log', Raise e) => (log', Raised e)
        | (log', Ok st') =>
            generate_loop T S batch_size min_n_points verbose ds' st' log'
        end
    end
  else (log, Returned st).

(** The lines after the loop: [data = np.zeros(...)], the copy of every
    sequence into it and [return data, sizes]. *)
Definition pack (batch_size : Z) (st : gen_state)
  : outcome (array3 * list nat) :=
  data <- zeros batch_size (max_len st) 3 ;;
  data <- for_each (range batch_size)
            (fun b data =>
               points <- getitem (points_list st) b ;;
               assign_rows data b points)
            data ;;
  Ok (data, sizes st).

Definition generate (T : interval) (S : list interval) (batch_size : Z)
    (min_n_points : Z) (verbose : bool) (ds : list draws)
  : list msg * run (array3 * list nat) :=
  match generate_loop T S batch_size min_n_points verbose ds gen_start [] with
  | (log, Returned st) =>
      match pack batch_size st with
      | Ok r => (log, Returned r)
      | Raise e => (log, Raised e)
      end
  | (log, Raised e) => (log, Raised e)
  | (log, Running) => (log, Running)
  end.

End Generate.

(** ** The thinning stage as the specification words it *)

(** Rows in ascending order of time. *)
Definition time_le (r r' : list R) : Prop := time_of r <= time_of r'.

Definition ascending (l : list (list R)) : Prop := StronglySorted time_le l.

(** Rows in strictly ascending order of time. *)
Definition strictly_ascending (l : list (list R)) : Prop :=
  StronglySorted (fun r r' => time_of r < time_of r') l.

(** The pass over [homo_points] gets through the candidates [pre], the
    first rows of [homo_points], and holds [retained] after them, having
    written [log]. *)
Definition reaches {L : Type} `{Intensity L} (lam : L) (homo_points : array2)
    (verbose : bool) (d : draws) (pre : list (list R)) (retained : array2)
    (log : list msg) : Prop :=
  thinning_loop lam homo_points verbose d 0 pre (empty (ncols homo_points))
    (start_log homo_points verbose) = (log, Ok (Some retained)).

(** [points] is what a complete thinning pass over the candidates of one of
    the draws [ds] returned, with at least [min_n_points] rows. *)
Definition accepted_by {L : Type} `{Intensity L} (lam : L) (T : interval)
    (S : list interval) (min_n_points : Z) (verbose : bool) (ds : list draws)
    (points : array2) : Prop :=
  exists d homo_points out,
    In d ds /\
    _homogeneous_poisson_sampling lam T S d = Ok homo_points /\
    _inhomogeneous_poisson_thinning lam homo_points verbose d
      = (out, Ok (Some points)) /\
    (min_n_points <= Z.of_nat (nrows points))%Z.

(** A sequence of the batch: its rows, then rows of zeros up to [max_len]. *)
Definition padded (max_len : nat) (points : array2) : list (list R) :=
  rows points ++ repeat (repeat 0 3) (max_len - nrows points).

(** A sequence that [generate] can copy into the batch as it is. *)
Definition fits_batch (max_len : nat) (points : array2) : Prop :=
  ncols points = 3%nat /\ regular points /\ (nrows points <= max_len)%nat.

(** "Maintain a running retained set.  For each candidate in order: compute
    the true intensity value using the currently retained set as history;
    draw a uniform(0,1) variate D; accept and append the candidate to
    retained if intensity_value >= D * upper_bound."  The candidates are
    [cands], numbered from [i]. *)
Fixpoint thinned {L : Type} `{Intensity L} (lam : L) (homo_points : array2)
    (d : draws) (i : nat) (cands : list (list R)) (retained : array2) : array2 :=
  match cands with
  | [] => retained
  | row :: cands' =>
      thinned lam homo_points d (S i) cands'
        match lam_value_at lam homo_points retained row with
        | Ok v =>
            if Rge_dec v (uniform 0 1 (uniform_D d i) * upper_bound lam)
            then append_row retained row
            else retained
        | Raise _ => retained
        end
  end.

(** ** The kernel variants together *)

Inductive kernel_variant : Type :=
| Isotropic (k : StdDiffusionKernel)
| Anisotropic (k : GaussianDiffusionKernel)
| Mixture (k : GaussianMixtureDiffusionKernel)
| SpatialVariant (k : SpatialVariantGaussianDiffusionKernel)
| SpatialVariantMixture (k : SpatialVariantGaussianMixtureDiffusionKernel).

Definition variant_nu (k : kernel_variant)
    (t : R) (s : list R) (his_t : list R) (his_s : array2) : outcome ndvalue :=
  match k with
  | Isotropic k => nu k t s his_t his_s
  | Anisotropic k => nu k t s his_t his_s
  | Mixture k => nu k t s his_t his_s
  | SpatialVariant k => nu k t s his_t his_s
  | SpatialVariantMixture k => nu k t s his_t his_s
  end.

#[export] Instance Kernel_variant : Kernel kernel_variant := variant_nu.

(** Valid parameters: a positive amplitude, positive spreads, a correlation
    strictly between -1 and 1, weights that are not negative.  A parameter
    that is a function of the location is valid when all it returns is. *)
Definition std_valid (k : StdDiffusionKernel) : Prop :=
  0 < std_C k /\ 0 < std_sigma_x k /\ 0 < std_sigma_y k.

Definition gdk_valid (k : GaussianDiffusionKernel) : Prop :=
  0 < gdk_C k /\ 0 < gdk_sigma_x k /\ 0 < gdk_sigma_y k /\ -1 < gdk_rho k < 1.

Definition everywhere (P : R -> Prop) (f : location_fn) : Prop :=
  forall xs ys, Forall P (to_1d (f xs ys)).

Definition sv_valid (k : SpatialVariantGaussianDiffusionKernel) : Prop :=
  0 < sv_C k /\ everywhere (Rlt 0) (sv_sigma_x k) /\
  everywhere (Rlt 0) (sv_sigma_y k) /\
  everywhere (fun r => -1 < r < 1) (sv_rho k).

Definition weights_valid (w : list R) : Prop := Forall (Rle 0) w.

Definition variant_valid (k : kernel_variant) : Prop :=
  match k with
  | Isotropic k => std_valid k
  | Anisotropic k => gdk_valid k
  | Mixture k => Forall gdk_valid (gm_gdks k) /\ weights_valid (gm_w k)
  | SpatialVariant k => sv_valid k
  | SpatialVariantMixture k => Forall sv_valid (svm_gdks k) /\ weights_valid (svm_w k)
  end.

(** Every time difference [t - his_t[j]] is strictly positive. *)
Definition past (t : R) (his_t : list R) : Prop :=
  Forall (fun h => 0 < t - h) his_t.

(** All the values of a kernel output are non-negative. *)
Definition nonneg (v : ndvalue) : Prop := Forall (Rle 0) (to_1d v).

(** [lambda x, y: c] *)
Definition constant_fn (c : R) : location_fn := fun _ _ => Scalar c.

(** The sum of [f 0], ..., [f (n - 1)], added in this order. *)
Fixpoint big_sum (n : nat) (f : nat -> R) : R :=
  match n with
  | O => 0
  | S n' => big_sum n' f + f n'
  end.

(** Component [k] of a mixture built from the given parameter lists. *)
Definition gm_component (mu_x mu_y sigma_x sigma_y rho : list R) (beta C : R)
    (k : nat) : GaussianDiffusionKernel :=
  mk_gdk C beta (nth k mu_x 0) (nth k mu_y 0) (nth k sigma_x 0)
    (nth k sigma_y 0) (nth k rho 0).

(** The weighted sum of the outputs [outs] of [n_comp] components, entry by
    entry; with no component it is the number 0. *)
Definition weighted_sum (n_comp : nat) (w : list R) (outs : list (list R))
  : ndvalue :=
  match n_comp with
  | O => Scalar 0
  | S _ =>
      Array (elementwise (length (hd [] outs))
               (fun j => big_sum n_comp
                           (fun k => nth k w 0 * nth j (nth k outs []) 0)))
  end.

(** Every list has at least [n] entries. *)
Definition long_enough (n : nat) (ls : list (list R)) : bool :=
  forallb (fun l => (n <=? length l)%nat) ls.

(** ** Concrete inputs *)

Definition unit_interval : interval := (0, 1).
Definition unit_square : list interval := [(0, 1); (0, 1)].
Definition unit_cube : list interval := [(0, 1); (0, 1); (0, 1)].

(** [GaussianMixtureDiffusionKernel(0, [], [], [], [], [], [])]: a mixture
    without components, whose [nu] is the number 0. *)
Definition no_excitation : GaussianMixtureDiffusionKernel := mk_gmdk [] 0 [].

(** [HawkesLam(1, kernel, maximum=1)] and
    [HawkesLam(2, StdDiffusionKernel(), maximum=1)], whose background rate
    is above its declared bound. *)
Definition lam_tight : HawkesLam GaussianMixtureDiffusionKernel :=
  mk_lam 1 no_excitation 1.
Definition lam_over : HawkesLam StdDiffusionKernel :=
  mk_lam 2 (mk_std 1 1 1 1) 1.
(** [HawkesLam(1, StdDiffusionKernel(), maximum=2)] *)
Definition lam_hawkes : HawkesLam StdDiffusionKernel :=
  mk_lam 1 (mk_std 1 1 1 1) 2.

(** Two proposals with all coordinates 1/2, and acceptance draws 1/2. *)
Definition draws_tie : draws := mk_draws 2 (fun _ _ => / 2) (fun _ => / 2).
(** A proposal at 3/4 and one at 1/4, with acceptance draws 1/2. *)
Definition draws_pair : draws :=
  mk_draws 2 (fun _ j => if (j =? 0)%nat then 3 / 4 else / 4) (fun _ => / 2).
(** One proposal at the origin; no proposal at all. *)
Definition draws_one : draws := mk_draws 1 (fun _ _ => 0) (fun _ => / 2).
(** One proposal with all coordinates 1/2. *)
Definition draws_half : draws := mk_draws 1 (fun _ _ => / 2) (fun _ => / 2).

Definition tie_row : list R := [/ 2; / 2; / 2].
Definition early_row : list R := [/ 4; / 4; / 4].
Definition late_row : list R := [3 / 4; 3 / 4; 3 / 4].
Definition origin_row : list R := [0; 0; 0].

(** What the event [early_row] adds to the intensity at [late_row] under
    [lam_hawkes]. *)
Definition late_excitation : R :=
  std_value (mk_std 1 1 1 1) (3 / 4 - / 4) (3 / 4 - / 4) (3 / 4 - / 4).

(** One event at the origin at time 0, seen from [(1, 1)] at time 1. *)
Definition one_event : array2 := mk_array2 2 [[0; 0]].

(** ** Notions for the further properties *)

(** [l] is [l'] with some of its entries left out, the others in place. *)
Inductive subsequence {A : Type} : list A -> list A -> Prop :=
| subsequence_nil : subsequence [] []
| subsequence_keep (x : A) (l l' : list A) :
    subsequence l l' -> subsequence (x :: l) (x :: l')
| subsequence_drop (x : A) (l l' : list A) :
    subsequence l l' -> subsequence l (x :: l').

(** A location of two coordinates and a history of as many times as
    locations, each of two coordinates. *)
Definition planar (s : list R) (his_t : list R) (his_s : array2) : Prop :=
  length s = 2%nat /\ ncols his_s = 2%nat /\ length his_t = nrows his_s.

(** Component [k] of a spatially variant mixture built from the given lists
    of functions. *)
Definition svm_component (f_mu_x f_mu_y f_sigma_x f_sigma_y f_rho : list location_fn)
    (beta C : R) (k : nat) : SpatialVariantGaussianDiffusionKernel :=
  mk_svgdk C beta (nth k f_mu_x (constant_fn 0)) (nth k f_mu_y (constant_fn 0))
    (nth k f_sigma_x (constant_fn 0)) (nth k f_sigma_y (constant_fn 0))
    (nth k f_rho (constant_fn 0)).

(** A point of the region: each coordinate in its interval. *)
Definition in_interval (I : interval) (x : R) : Prop := fst I <= x <= snd I.

Definition in_region (region : list interval) (row : list R) : Prop :=
  Forall2 in_interval region row.

(** No interval of the region has its bounds the wrong way round. *)
Definition proper (region : list interval) : Prop :=
  Forall (fun I => fst I <= snd I) region.

(** The unit draws behind the proposals are in [[0, 1)]. *)
Definition unit_draws (d : draws) : Prop :=
  forall i j, 0 <= uniform_sample d i j < 1.

(** A Poisson mean that [np.random.poisson] accepts whatever the platform:
    besides a negative mean the generator refuses one above its limit,
    [np.iinfo('l').max - np.sqrt(np.iinfo('l').max) * 10], which is more than
    2 * 10^9 also where a C long has 32 bits.  The proposal stage is
    modelled for such means. *)
Definition moderate_mean (mean : R) : Prop := mean <= 2 * 10 ^ 9.

(** The acceptance draws of the first [n] candidates are positive. *)
Definition positive_D (n : nat) (d : draws) : Prop :=
  forall i, (i < n)%nat -> 0 < uniform_D d i.

(** Proposal [j] of the draws [d] over [region]: one coordinate drawn in
    each interval. *)
Definition proposal (region : list interval) (d : draws) (j : nat) : list R :=
  map (fun i =>
         let I := nth i region (0, 0) in
         uniform (fst I) (snd I) (uniform_sample d i j))
      (seq 0 (length region)).

(** ** plot_3d_pointprocess_lam_f *)

(** [np.linspace(start, stop, num)]: [num] evenly spaced values from [start]
    to [stop], both included; a negative [num] is refused. *)
Definition linspace (start stop : R) (num : Z) : outcome (list R) :=
  if (num <? 0)%Z then Raise ValueError
  else
    let step := (stop - start) / IZR (num - 1) in
    Ok match Z.to_nat num with
       | O => []
       | 1%nat => [start]
       | Datatypes.S n => map (fun i => start + INR i * step) (seq 0 n) ++ [stop]
       end.

(** [itertools.product] of the lists of [ss], as a list: the last
    coordinate runs fastest. *)
Fixpoint product (ss : list (list R)) : list (list R) :=
  match ss with
  | [] => [[]]
  | l :: ss' => flat_map (fun x => map (cons x) (product ss')) l
  end.

(** [np.prod] of a list. *)
Definition prod_list (v : list R) : R := fold_left Rmult v 1.

(** The mask [(points[:, 0] < plot_ts) * (points[:, 0] > 0)] at one row. *)
Definition in_history (plot_ts : R) (row : list R) : bool :=
  (if Rlt_dec (time_of row) plot_ts then true else false)
  && (if Rgt_dec (time_of row) 0 then true else false).

(** [his_p = points[(points[:, 0] < plot_ts) * (points[:, 0] > 0)]] *)
Definition his_p (points : array2) (plot_ts : R) : outcome array2 :=
  _ <- column 0 points ;;
  Ok (mk_array2 (ncols points) (filter (in_history plot_ts) (rows points))).

Fixpoint chunks (c k : nat) (v : list R) : list (list R) :=
  match k with
  | O => []
  | Datatypes.S k' => firstn c v :: chunks c k' (skipn c v)
  end.

(** [v.reshape(r, c)] of a one-dimensional array. *)
Definition reshape (v : list R) (r c : nat) : outcome array2 :=
  if (length v =? r * c)%nat then Ok (mk_array2 c (chunks c r v))
  else Raise ValueError.

(** [a.T] *)
Definition T_ (a : array2) : array2 :=
  mk_array2 (nrows a)
    (map (fun j => map (fun r => nth j r 0) (rows a)) (seq 0 (ncols a))).

Section Plot.

Context {L : Type} `{Intensity L}.
Variable lam : L.

(** [for s in ss: vals.append(lam.value(t, his_t, s, his_s))] *)
Definition values_over (ss : list (list R)) (t : R) (his_t : list R)
    (his_s : array2) (vals : list R) : outcome (list R) :=
  for_each ss
    (fun s vals => v <- value lam t his_t s his_s ;; Ok (vals ++ [v]))
    vals.

(** The function up to the two images it hands to [imshow]:
    [evals.reshape(ngrid, ngrid).T] and [fvals.reshape(ngrid, ngrid).T].
    Of the lines that draw the first image the model keeps the reads of
    [S[0]] and [S[1]] for the tick labels, which can raise; the calls of
    matplotlib themselves are not part of it. *)
Definition plot_3d_pointprocess_lam_f (points : array2) (plot_ts : R)
    (T : interval) (S : list interval) (ngrid : Z)
  : outcome (array2 * array2) :=
  ss <- for_each S
          (fun S_k ss => l <- linspace (fst S_k) (snd S_k) ngrid ;; Ok (ss ++ [l]))
          [] ;;
  let ss := product ss in
  his_p <- his_p points plot_ts ;;
  his_t <- column 0 his_p ;;
  let his_s := columns_from_1 his_p in
  evals <- values_over ss plot_ts his_t his_s [] ;;
  let last_t := last his_t 0 in
  ts <- linspace last_t plot_ts ngrid ;;
  let unit_vol :=
    prod_list ((plot_ts - last_t) :: map (fun S_k => snd S_k - fst S_k) S)
    / IZR ((ngrid - 1) ^ 3) in
  lamvals <- for_each (tl ts)
               (fun t lamvals => values_over ss t his_t his_s lamvals) [] ;;
  let integral := sum_list lamvals * unit_vol in
  let fvals := map (fun e => e * exp (- integral)) evals in
  im_lam <- reshape evals (Z.to_nat ngrid) (Z.to_nat ngrid) ;;
  _ <- getitem S 0 ;;
  _ <- getitem S 1 ;;
  im_f <- reshape fvals (Z.to_nat ngrid) (Z.to_nat ngrid) ;;
  Ok (T_ im_lam, T_ im_f).

End Plot.

(** * Properties *)

(** ** The error monad and broadcasting *)

Lemma bind_Ok {A B : Type} (c : outcome A) (k : A -> outcome B) (b : B) :
  bind c k = Ok b -> exists a, c = Ok a /\ k a = Ok b.
Proof.
  destruct c as [a|e]; simpl; intros E; [|discriminate].
  exists a. split; [reflexivity|exact E].
Qed.

Ltac bind_inv H :=
  let a := fresh "a" in
  let Ha := fresh "Ha" in
  apply bind_Ok in H; destruct H as [a [Ha H]].

Lemma bdim_Ok (a n m : nat) :
  bdim a n = Ok m -> (a = m \/ a = 1%nat) /\ (n = m \/ n = 1%nat).
Proof.
  unfold bdim.
  destruct (Nat.eqb_spec a n) as [->|Hne].
  - intros [= ->]. auto.
  - destruct (Nat.eqb_spec a 1) as [->|Ha].
    + intros [= ->]. auto.
    + destruct (Nat.eqb_spec n 1) as [->|Hn]; [|discriminate].
      intros [= ->]. auto.
Qed.

Lemma bdim_1_r (m : nat) : bdim m 1 = Ok m.
Proof.
  unfold bdim. destruct (Nat.eqb_spec m 1) as [->|Hne]; reflexivity.
Qed.

Lemma bdim_1_l (n : nat) : bdim 1 n = Ok n.
Proof.
  unfold bdim. destruct (Nat.eqb_spec 1 n) as [<-|Hne]; reflexivity.
Qed.

Lemma bdims_Ok (l : list nat) : forall a m,
  bdims a l = Ok m ->
  (a = m \/ a = 1%nat) /\ Forall (fun n => n = m \/ n = 1%nat) l.
Proof.
  induction l as [|n l IH]; simpl; intros a m E.
  - injection E as ->. auto.
  - bind_inv E. apply bdim_Ok in Ha. apply IH in E.
    destruct Ha as [Ha Hn], E as [Hm Hl].
    split; [|constructor]; try assumption; lia.
Qed.

Lemma bget_In (n : nat) (v : list R) (j : nat) :
  length v = n \/ length v = 1%nat -> (j < n)%nat -> In (bget n v j) v.
Proof.
  intros Hlen Hj. unfold bget, stretch.
  destruct v as [|x [|y v]].
  - simpl in Hlen. lia.
  - left. symmetry. apply (repeat_spec n x).
    apply nth_In. rewrite repeat_length. exact Hj.
  - apply nth_In. destruct Hlen as [Hlen|Hlen]; simpl in *; lia.
Qed.

Lemma bget_singleton (n : nat) (x : R) (j : nat) :
  (j < n)%nat -> bget n [x] j = x.
Proof.
  intros Hj. destruct (bget_In n [x] j) as [E|[]]; auto.
Qed.

Lemma elementwise_ext (n : nat) (f g : nat -> R) :
  (forall j, (j < n)%nat -> f j = g j) -> elementwise n f = elementwise n g.
Proof.
  intros E. unfold elementwise. apply map_ext_in.
  intros j Hj. apply in_seq in Hj. apply E. lia.
Qed.

Lemma elementwise_length (n : nat) (f : nat -> R) : length (elementwise n f) = n.
Proof. unfold elementwise. rewrite length_map, length_seq. reflexivity. Qed.

Lemma elementwise_Forall (P : R -> Prop) (n : nat) (f : nat -> R) :
  (forall j, (j < n)%nat -> P (f j)) -> Forall P (elementwise n f).
Proof.
  intros Hf. unfold elementwise. apply Forall_forall.
  intros x Hx. apply in_map_iff in Hx. destruct Hx as [j [<- Hj]].
  apply in_seq in Hj. apply Hf. lia.
Qed.

(** ** The kernel expressions *)

Ltac positivity := repeat (first [lra | apply Rmult_lt_0_compat]).

Lemma one_minus_sqr_pos (rho : R) : -1 < rho < 1 -> 0 < 1 - Rsqr rho.
Proof. intros [Hl Hu]. unfold Rsqr. nra. Qed.

Lemma std_value_pos (self : StdDiffusionKernel) (dt dx dy : R) :
  0 < std_C self -> 0 < std_sigma_x self -> 0 < std_sigma_y self -> 0 < dt ->
  0 < std_value self dt dx dy.
Proof.
  intros HC Hx Hy Ht. unfold std_value.
  assert (Hpi := PI_RGT_0).
  apply Rmult_lt_0_compat; [apply Rmult_lt_0_compat|]; try apply exp_pos.
  apply Rdiv_lt_0_compat; [assumption|].
  positivity.
Qed.

Lemma sv_gaussian_val_pos (self : SpatialVariantGaussianDiffusionKernel)
    (mx my sx sy rho dt dx dy : R) :
  0 < sv_C self -> 0 < sx -> 0 < sy -> -1 < rho < 1 -> 0 < dt ->
  0 < sv_gaussian_val self mx my sx sy rho dt dx dy.
Proof.
  intros HC Hx Hy Hr Ht. unfold sv_gaussian_val.
  assert (Hpi := PI_RGT_0).
  assert (Hs : 0 < sqrt (1 - Rsqr rho))
    by (apply sqrt_lt_R0, one_minus_sqr_pos, Hr).
  apply Rmult_lt_0_compat; [apply Rmult_lt_0_compat|]; try apply exp_pos.
  apply Rdiv_lt_0_compat; [assumption|].
  positivity.
Qed.

(** The two anisotropic classes compute the same expression. *)
Lemma sv_gaussian_val_const (self : SpatialVariantGaussianDiffusionKernel)
    (mx my sx sy rho dt dx dy : R) :
  sv_gaussian_val self mx my sx sy rho dt dx dy =
  gaussian_val (mk_gdk (sv_C self) (sv_beta self) mx my sx sy rho) dt dx dy.
Proof. reflexivity. Qed.

Lemma gaussian_val_pos (self : GaussianDiffusionKernel) (dt dx dy : R) :
  0 < gdk_C self -> 0 < gdk_sigma_x self -> 0 < gdk_sigma_y self ->
  -1 < gdk_rho self < 1 -> 0 < dt ->
  0 < gaussian_val self dt dx dy.
Proof.
  intros HC Hx Hy Hr Ht. unfold gaussian_val.
  assert (Hpi := PI_RGT_0).
  assert (Hs : 0 < sqrt (1 - Rsqr (gdk_rho self)))
    by (apply sqrt_lt_R0, one_minus_sqr_pos, Hr).
  apply Rmult_lt_0_compat; [apply Rmult_lt_0_compat|]; try apply exp_pos.
  apply Rdiv_lt_0_compat; [assumption|].
  positivity.
Qed.

(** With no offset and no correlation the anisotropic expression is the
    isotropic one. *)
Lemma gaussian_val_isotropic (C beta sigma_x sigma_y dt dx dy : R) :
  gaussian_val (mk_gdk C beta 0 0 sigma_x sigma_y 0) dt dx dy =
  std_value (mk_std C beta sigma_x sigma_y) dt dx dy.
Proof.
  unfold gaussian_val, std_value. simpl.
  rewrite Rsqr_0, !Rminus_0_r, sqrt_1, !Rmult_1_r.
  replace (2 * 0 * dx * dy / (sigma_x * sigma_y)) with 0
    by (unfold Rdiv; ring).
  rewrite Rminus_0_r. reflexivity.
Qed.

Lemma exp_nonpos_le_1 (x : R) : x <= 0 -> exp x <= 1.
Proof.
  intros [Hlt | ->].
  - left. rewrite <- exp_0. apply exp_increasing, Hlt.
  - right. apply exp_0.
Qed.

(** The isotropic kernel is at most its factor [C / (2 pi sigma_x sigma_y dt)]
    when the decay rate is not negative. *)
Lemma std_value_le (self : StdDiffusionKernel) (dt dx dy : R) :
  0 <= std_beta self -> 0 < std_C self ->
  0 < std_sigma_x self -> 0 < std_sigma_y self -> 0 < dt ->
  std_value self dt dx dy <=
  std_C self / (2 * PI * std_sigma_x self * std_sigma_y self * dt).
Proof.
  intros Hb HC Hx Hy Ht. unfold std_value.
  assert (Hpi := PI_RGT_0).
  set (X := std_C self / (2 * PI * std_sigma_x self * std_sigma_y self * dt)).
  assert (HX : 0 < X) by (apply Rdiv_lt_0_compat; [assumption|positivity]).
  assert (HA : exp (- std_beta self * dt) <= 1)
    by (apply exp_nonpos_le_1; nra).
  assert (Hq : 0 <= Rsqr dx / Rsqr (std_sigma_x self)
                    + Rsqr dy / Rsqr (std_sigma_y self)).
  { apply Rplus_le_le_0_compat; apply Rmult_le_pos;
      try apply Rle_0_sqr; left; apply Rinv_0_lt_compat, Rsqr_pos_lt; lra. }
  assert (Hc : -1 / (2 * dt) < 0).
  { unfold Rdiv. assert (0 < / (2 * dt)) by (apply Rinv_0_lt_compat; lra). lra. }
  assert (HB : exp (-1 / (2 * dt) *
                    (Rsqr dx / Rsqr (std_sigma_x self)
                     + Rsqr dy / Rsqr (std_sigma_y self))) <= 1)
    by (apply exp_nonpos_le_1; nra).
  assert (HA0 := exp_pos (- std_beta self * dt)).
  set (A := exp (- std_beta self * dt)) in *.
  set (B := exp _) in *.
  assert (HB0 : 0 < B) by apply exp_pos.
  assert (H1 : A * X <= X) by nra.
  assert (H2 : 0 < A * X) by nra.
  nra.
Qed.

(** ** Non-negative kernel values *)

Lemma past_scalar_sub (t : R) (his_t : list R) :
  past t his_t -> Forall (Rlt 0) (scalar_sub t his_t).
Proof. intros Hp. unfold scalar_sub. apply Forall_map. exact Hp. Qed.

Lemma bget_Forall (P : R -> Prop) (n : nat) (v : list R) (j : nat) :
  Forall P v -> length v = n \/ length v = 1%nat -> (j < n)%nat ->
  P (bget n v j).
Proof.
  intros HP Hlen Hj. rewrite Forall_forall in HP.
  apply HP, bget_In; assumption.
Qed.

Ltac dims H :=
  apply bdims_Ok in H; destruct H as [_ H];
  repeat match goal with
         | F : Forall _ (_ :: _) |- _ => inversion_clear F
         end.

Lemma std_nu_nonneg (k : StdDiffusionKernel) t s his_t his_s v :
  std_valid k -> past t his_t ->
  StdDiffusionKernel_nu k t s his_t his_s = Ok v -> nonneg v.
Proof.
  intros (HC & Hx & Hy) Hp E. unfold StdDiffusionKernel_nu in E.
  apply bind_Ok in E. destruct E as [delta_s [_ E]].
  apply bind_Ok in E. destruct E as [delta_x [_ E]].
  apply bind_Ok in E. destruct E as [delta_y [_ E]].
  apply bind_Ok in E. destruct E as [n [Hn E]].
  injection E as <-. dims Hn.
  apply elementwise_Forall. intros j Hj. apply Rlt_le, std_value_pos; trivial.
  apply bget_Forall; auto using past_scalar_sub.
Qed.

Lemma gaussian_nu_nonneg (k : GaussianDiffusionKernel) t s his_t his_s v :
  gdk_valid k -> past t his_t ->
  GaussianDiffusionKernel_nu k t s his_t his_s = Ok v -> nonneg v.
Proof.
  intros (HC & Hx & Hy & Hr) Hp E. unfold GaussianDiffusionKernel_nu in E.
  apply bind_Ok in E. destruct E as [delta_s [_ E]].
  apply bind_Ok in E. destruct E as [delta_x [_ E]].
  apply bind_Ok in E. destruct E as [delta_y [_ E]].
  apply bind_Ok in E. destruct E as [n [Hn E]].
  injection E as <-. dims Hn.
  apply elementwise_Forall. intros j Hj. apply Rlt_le, gaussian_val_pos; trivial.
  apply bget_Forall; auto using past_scalar_sub.
Qed.

Lemma sv_nu_nonneg (k : SpatialVariantGaussianDiffusionKernel) t s his_t his_s v :
  sv_valid k -> past t his_t ->
  SpatialVariantGaussianDiffusionKernel_nu k t s his_t his_s = Ok v -> nonneg v.
Proof.
  intros (HC & Hx & Hy & Hr) Hp E.
  unfold SpatialVariantGaussianDiffusionKernel_nu in E.
  apply bind_Ok in E. destruct E as [delta_s [_ E]].
  apply bind_Ok in E. destruct E as [delta_x [_ E]].
  apply bind_Ok in E. destruct E as [delta_y [_ E]].
  apply bind_Ok in E. destruct E as [his_x [_ E]].
  apply bind_Ok in E. destruct E as [his_y [_ E]].
  apply bind_Ok in E. destruct E as [n [Hn E]].
  injection E as <-. dims Hn.
  apply elementwise_Forall. intros j Hj.
  apply Rlt_le, sv_gaussian_val_pos; trivial.
  - apply (bget_Forall (Rlt 0)); auto.
  - apply (bget_Forall (Rlt 0)); auto.
  - apply (bget_Forall (fun r => -1 < r < 1)); auto.
  - apply bget_Forall; auto using past_scalar_sub.
Qed.

Lemma for_each_invariant {A S : Type} (I : S -> Prop) (body : A -> S -> outcome S) :
  forall (l : list A) (s r : S),
    (forall a s s', In a l -> I s -> body a s = Ok s' -> I s') ->
    I s -> for_each l body s = Ok r -> I r.
Proof.
  induction l as [|a l IH]; simpl; intros s r Hbody Hs E.
  - injection E as <-. exact Hs.
  - apply bind_Ok in E. destruct E as [s' [Hs' E]].
    apply (IH s' r); trivial.
    + intros b u u' Hb. apply Hbody. right. exact Hb.
    + apply (Hbody a s s'); trivial. left. reflexivity.
Qed.

Lemma stretch_Forall (P : R -> Prop) (n : nat) (v : list R) :
  Forall P v -> Forall P (stretch n v).
Proof.
  intros HP. destruct v as [|x [|y v]]; simpl; trivial.
  inversion_clear HP. apply Forall_forall. intros z Hz.
  apply repeat_spec in Hz. subst z. assumption.
Qed.

Lemma zip_with_Forall (P Q T : R -> Prop) (f : R -> R -> R) :
  (forall x y, P x -> Q y -> T (f x y)) ->
  forall u v, Forall P u -> Forall Q v -> Forall T (zip_with f u v).
Proof.
  intros Hf. induction u as [|x u IH]; intros [|y v] Hu Hv; simpl; constructor;
    inversion_clear Hu; inversion_clear Hv; auto.
Qed.

Lemma scale_nonneg (w : R) (v : ndvalue) : 0 <= w -> nonneg v -> nonneg (scale w v).
Proof.
  intros Hw Hv. unfold nonneg in *. destruct v as [x|l]; simpl in *.
  - inversion_clear Hv. constructor; [nra | constructor].
  - apply Forall_map. eapply Forall_impl; [|exact Hv]. simpl. intros; nra.
Qed.

Lemma iadd_nonneg (acc v r : ndvalue) :
  nonneg acc -> nonneg v -> iadd acc v = Ok r -> nonneg r.
Proof.
  unfold nonneg. intros Ha Hv E.
  assert (Hplus : forall x y, 0 <= x -> 0 <= y -> 0 <= x + y) by (intros; lra).
  destruct acc as [a|u], v as [b|l]; simpl in *.
  - injection E as <-. inversion_clear Ha. inversion_clear Hv. simpl. auto.
  - injection E as <-. inversion_clear Ha. simpl. apply Forall_map.
    eapply Forall_impl; [|exact Hv]. simpl. auto.
  - injection E as <-. inversion_clear Hv. simpl. apply Forall_map.
    eapply Forall_impl; [|exact Ha]. simpl. auto.
  - destruct (length l =? length u)%nat.
    + injection E as <-. simpl. eapply zip_with_Forall; eauto.
    + destruct (length l =? 1)%nat; [|discriminate].
      injection E as <-. simpl.
      eapply zip_with_Forall; eauto using stretch_Forall.
Qed.

Lemma getitem_In {A : Type} (l : list A) (k : nat) (a : A) :
  getitem l k = Ok a -> In a l.
Proof.
  unfold getitem. destruct (nth_error l k) eqn:E; [|discriminate].
  intros [= <-]. eapply nth_error_In; eauto.
Qed.

Lemma mixture_nu_nonneg {G : Type} `{Kernel G} (valid : G -> Prop)
    (n_comp : Z) (w : list R) (gdks : list G) t s his_t his_s v :
  (forall g o, valid g -> nu g t s his_t his_s = Ok o -> nonneg o) ->
  Forall valid gdks -> weights_valid w ->
  mixture_nu n_comp w gdks t s his_t his_s = Ok v -> nonneg v.
Proof.
  intros Hnu Hg Hw E. unfold mixture_nu in E.
  revert E. apply for_each_invariant.
  - intros k acc acc' _ Hacc Hb.
    apply bind_Ok in Hb. destruct Hb as [wk [Hwk Hb]].
    apply bind_Ok in Hb. destruct Hb as [gdk [Hgdk Hb]].
    apply bind_Ok in Hb. destruct Hb as [o [Ho Hb]].
    apply getitem_In in Hwk, Hgdk.
    unfold weights_valid in Hw. rewrite Forall_forall in Hw, Hg.
    eapply iadd_nonneg; [exact Hacc| |exact Hb].
    apply scale_nonneg; eauto.
  - unfold nonneg. simpl. constructor; [lra | constructor].
Qed.

(** C9. Every kernel class returns only non-negative values when every
    time difference [t - his_t[j]] is strictly positive and the parameters
    are valid: amplitude and spreads positive, correlation strictly between
    -1 and 1 and, for the two mixtures, no negative weight. *)
Theorem nu_nonnegative (k : kernel_variant) (t : R) (s : list R)
    (his_t : list R) (his_s : array2) (v : ndvalue) :
  variant_valid k -> past t his_t ->
  nu k t s his_t his_s = Ok v -> nonneg v.
Proof.
  intros Hk Hp E. destruct k as [k|k|k|k|k]; simpl in Hk;
    unfold nu, Kernel_variant, variant_nu in E.
  - eapply std_nu_nonneg; eauto.
  - eapply gaussian_nu_nonneg; eauto.
  - destruct Hk as [Hg Hw].
    eapply (mixture_nu_nonneg gdk_valid); eauto.
    intros g o Hv Ho. eapply gaussian_nu_nonneg; eauto.
  - eapply sv_nu_nonneg; eauto.
  - destruct Hk as [Hg Hw].
    eapply (mixture_nu_nonneg sv_valid); eauto.
    intros g o Hv Ho. eapply sv_nu_nonneg; eauto.
Qed.

(** On a location of two coordinates and a history of as many times as
    locations of two coordinates, the two plain kernels return one value for
    each event of the history. *)
Lemma plain_dims (s : list R) (his_t : list R) (his_s : array2) :
  length s = 2%nat -> ncols his_s = 2%nat -> length his_t = nrows his_s ->
  exists delta_s delta_x delta_y,
    sub_rows s his_s = Ok delta_s /\
    column 0 delta_s = Ok delta_x /\
    column 1 delta_s = Ok delta_y /\
    forall t,
      bdims 1 [length (scalar_sub t his_t); length delta_x; length delta_y]
      = Ok (length his_t).
Proof.
  intros Hs Hc Ht. unfold sub_rows. rewrite Hs, Hc. cbn [bdim Nat.eqb bind].
  eexists. eexists. eexists. split; [reflexivity|].
  unfold column. cbn [ncols Nat.ltb Nat.leb rows]. split; [reflexivity|].
  split; [reflexivity|]. intros t.
  unfold scalar_sub. rewrite !length_map. fold (nrows his_s). rewrite <- Ht.
  cbn [bdims]. rewrite bdim_1_l. cbn [bind].
  unfold bdim. rewrite Nat.eqb_refl. cbn [bind]. rewrite Nat.eqb_refl.
  reflexivity.
Qed.

Lemma plain_kernels_return (C beta mu_x mu_y sigma_x sigma_y rho : R)
    (t : R) (s : list R) (his_t : list R) (his_s : array2) :
  length s = 2%nat -> ncols his_s = 2%nat -> length his_t = nrows his_s ->
  (exists v, nu (mk_std C beta sigma_x sigma_y) t s his_t his_s = Ok (Array v) /\
             length v = length his_t) /\
  (exists v, nu (mk_gdk C beta mu_x mu_y sigma_x sigma_y rho) t s his_t his_s
             = Ok (Array v) /\
             length v = length his_t).
Proof.
  intros Hs Hc Ht.
  destruct (plain_dims s his_t his_s Hs Hc Ht)
    as (delta_s & delta_x & delta_y & E1 & E2 & E3 & E4).
  split; eexists;
    unfold nu, Kernel_Std, Kernel_Gaussian, StdDiffusionKernel_nu,
      GaussianDiffusionKernel_nu;
    rewrite E1; cbn [bind]; rewrite E2; cbn [bind]; rewrite E3; cbn [bind];
    rewrite E4; cbn [bind]; (split; [reflexivity|apply elementwise_length]).
Qed.

(** ** Degenerate cases of the anisotropic kernel *)

(** C10. With [mu_x = mu_y = rho = 0] the anisotropic kernel returns what
    the isotropic kernel of the same [C], [beta], [sigma_x], [sigma_y]
    returns, on every input whose time differences are strictly positive. *)
Theorem anisotropic_degenerates_to_isotropic (C beta sigma_x sigma_y : R)
    (K : StdDiffusionKernel) (G : GaussianDiffusionKernel)
    (t : R) (s : list R) (his_t : list R) (his_s : array2) :
  past t his_t ->
  StdDiffusionKernel_init C beta sigma_x sigma_y = Ok K ->
  GaussianDiffusionKernel_init 0 0 sigma_x sigma_y 0 beta C = Ok G ->
  nu K t s his_t his_s = nu G t s his_t his_s.
Proof.
  intros _ [= <-] [= <-].
  unfold nu, Kernel_Std, Kernel_Gaussian,
    StdDiffusionKernel_nu, GaussianDiffusionKernel_nu.
  destruct (sub_rows s his_s) as [delta_s|e]; simpl; trivial.
  destruct (column 0 delta_s) as [delta_x|e]; simpl; trivial.
  destruct (column 1 delta_s) as [delta_y|e]; simpl; trivial.
  match goal with |- bind ?c _ = _ => destruct c as [n|e]; simpl; trivial end.
  do 2 f_equal. apply elementwise_ext. intros j _.
  symmetry. apply gaussian_val_isotropic.
Qed.

Lemma sub_rows_ncols (s : list R) (his_s delta_s : array2) :
  length s = ncols his_s -> sub_rows s his_s = Ok delta_s ->
  ncols delta_s = ncols his_s.
Proof.
  intros Hs E. unfold sub_rows in E. rewrite Hs in E.
  unfold bdim in E. rewrite Nat.eqb_refl in E. simpl in E.
  injection E as <-. reflexivity.
Qed.

Lemma column_same_width (j : nat) (a b : array2) :
  ncols a = ncols b ->
  (exists v, column j a = Ok v) -> exists v, column j b = Ok v.
Proof.
  unfold column. intros ->. destruct (j <? ncols b)%nat; intros [v E];
    [eexists; reflexivity | discriminate].
Qed.

Lemma bdims_skip_1 (a : nat) (l : list nat) : bdims a (1%nat :: l) = bdims a l.
Proof. simpl. rewrite bdim_1_r. reflexivity. Qed.

Lemma bdims_cons (a n : nat) (l : list nat) :
  bdims a (n :: l) = bind (bdim a n) (fun m => bdims m l).
Proof. reflexivity. Qed.

Lemma constant_dims (kt kx ky : nat) :
  bdims 1 [kt; 1; 1; 1; kx; 1; ky; 1]%nat = bdims 1 [kt; kx; ky].
Proof.
  rewrite !(bdims_cons 1 kt).
  destruct (bdim 1 kt) as [a|e]; cbn [bind]; trivial.
  rewrite !bdims_skip_1, !(bdims_cons a kx).
  destruct (bdim a kx) as [b|e]; cbn [bind]; trivial.
  rewrite bdims_skip_1, !(bdims_cons b ky).
  destruct (bdim b ky) as [c|e]; cbn [bind]; trivial.
  apply bdims_skip_1.
Qed.

(** The spatially variant kernel whose five functions are constant computes
    the anisotropic kernel of these constants, when the location [s] and the
    locations of the history have the same number of coordinates. *)
Lemma spatial_variant_constant (mu_x mu_y sigma_x sigma_y rho beta C : R)
    (t : R) (s : list R) (his_t : list R) (his_s : array2) :
  length s = ncols his_s ->
  SpatialVariantGaussianDiffusionKernel_nu
    (mk_svgdk C beta (constant_fn mu_x) (constant_fn mu_y)
       (constant_fn sigma_x) (constant_fn sigma_y) (constant_fn rho))
    t s his_t his_s =
  GaussianDiffusionKernel_nu (mk_gdk C beta mu_x mu_y sigma_x sigma_y rho)
    t s his_t his_s.
Proof.
  intros Hs.
  unfold SpatialVariantGaussianDiffusionKernel_nu, GaussianDiffusionKernel_nu.
  destruct (sub_rows s his_s) as [delta_s|e] eqn:Es; cbn [bind]; trivial.
  assert (Hc := sub_rows_ncols s his_s delta_s Hs Es).
  destruct (column 0 delta_s) as [delta_x|e] eqn:Ex; cbn [bind]; trivial.
  destruct (column 1 delta_s) as [delta_y|e] eqn:Ey; cbn [bind]; trivial.
  destruct (column_same_width 0 delta_s his_s Hc (ex_intro _ _ Ex)) as [his_x ->].
  destruct (column_same_width 1 delta_s his_s Hc (ex_intro _ _ Ey)) as [his_y ->].
  cbn [bind to_1d constant_fn sv_mu_x sv_mu_y sv_sigma_x sv_sigma_y sv_rho length].
  rewrite constant_dims.
  match goal with |- bind ?c _ = _ => destruct c as [n|e]; cbn [bind]; trivial end.
  do 2 f_equal. apply elementwise_ext. intros j Hj.
  rewrite !bget_singleton by exact Hj. reflexivity.
Qed.

(** C8. The spatially variant kernel built from constant functions returns
    what the anisotropic kernel built from the same constants returns. *)
Theorem spatial_variant_degenerates_to_anisotropic
    (mu_x mu_y sigma_x sigma_y rho beta C : R)
    (V : SpatialVariantGaussianDiffusionKernel) (G : GaussianDiffusionKernel)
    (t : R) (s : list R) (his_t : list R) (his_s : array2) :
  -1 < rho < 1 -> 0 < sigma_x -> 0 < sigma_y ->
  past t his_t -> length s = ncols his_s ->
  SpatialVariantGaussianDiffusionKernel_init
    (constant_fn mu_x) (constant_fn mu_y)
    (constant_fn sigma_x) (constant_fn sigma_y) (constant_fn rho) beta C = Ok V ->
  GaussianDiffusionKernel_init mu_x mu_y sigma_x sigma_y rho beta C = Ok G ->
  nu V t s his_t his_s = nu G t s his_t his_s.
Proof.
  intros _ _ _ _ Hs [= <-] [= <-].
  apply spatial_variant_constant. exact Hs.
Qed.

(** ** Loops and sums *)

Lemma for_each_app {A S : Type} (body : A -> S -> outcome S) (l1 l2 : list A) :
  forall s, for_each (l1 ++ l2) body s =
            bind (for_each l1 body s) (for_each l2 body).
Proof.
  induction l1 as [|a l1 IH]; simpl; intros s; trivial.
  destruct (body a s) as [s'|e]; simpl; trivial.
Qed.

Lemma for_each_one {A S : Type} (body : A -> S -> outcome S) (a : A) (s : S) :
  for_each [a] body s = body a s.
Proof. simpl. destruct (body a s); reflexivity. Qed.

Lemma nth_elementwise (n : nat) (f : nat -> R) (j : nat) :
  (j < n)%nat -> nth j (elementwise n f) 0 = f j.
Proof.
  intros Hj. unfold elementwise.
  rewrite (nth_indep _ 0 (f 0%nat)) by (rewrite length_map, length_seq; exact Hj).
  rewrite map_nth, seq_nth by exact Hj. reflexivity.
Qed.

Lemma elementwise_intro (n : nat) (f : nat -> R) (l : list R) :
  length l = n -> (forall j, (j < n)%nat -> nth j l 0 = f j) ->
  l = elementwise n f.
Proof.
  intros Hl Hn. apply (nth_ext _ _ 0 0).
  - rewrite elementwise_length. exact Hl.
  - intros j Hj. rewrite Hl in Hj. rewrite nth_elementwise, Hn; trivial.
Qed.

Lemma zip_with_length (f : R -> R -> R) (u v : list R) :
  length u = length v -> length (zip_with f u v) = length u.
Proof.
  revert v. induction u as [|x u IH]; intros [|y v] E; simpl in *;
    try discriminate; trivial.
  f_equal. apply IH. lia.
Qed.

Lemma nth_zip_with (f : R -> R -> R) (u v : list R) (j : nat) :
  length u = length v -> (j < length u)%nat ->
  nth j (zip_with f u v) 0 = f (nth j u 0) (nth j v 0).
Proof.
  revert v j. induction u as [|x u IH]; intros [|y v] [|j] E Hj; simpl in *;
    try discriminate; try lia; trivial.
  apply IH; lia.
Qed.

Lemma nth_map_lt (f : R -> R) (l : list R) (j : nat) :
  (j < length l)%nat -> nth j (map f l) 0 = f (nth j l 0).
Proof.
  intros Hj. rewrite (nth_indep _ 0 (f 0)) by (rewrite length_map; exact Hj).
  apply map_nth.
Qed.

Lemma big_sum_ext (n : nat) (f g : nat -> R) :
  (forall k, (k < n)%nat -> f k = g k) -> big_sum n f = big_sum n g.
Proof.
  induction n as [|n IH]; simpl; intros E; trivial.
  rewrite IH, E; auto.
Qed.

Lemma sum_list_big_sum (v : list R) :
  sum_list v = big_sum (length v) (fun j => nth j v 0).
Proof.
  unfold sum_list. induction v as [|x v IH] using rev_ind; trivial.
  rewrite fold_left_app, length_app, Nat.add_comm. simpl.
  rewrite IH, app_nth2, Nat.sub_diag by lia. simpl. f_equal.
  apply big_sum_ext. intros k Hk. rewrite app_nth1; trivial.
Qed.

(** ** HawkesLam.value *)

(** C4. [value] returns the background rate [mu] when the history is empty
    and, when it is not, [mu] plus the sum of the contributions the kernel
    returns for the events of the history; it raises what the kernel
    raises. *)
Theorem value_is_background_plus_excitation {K : Type} `{Kernel K}
    (self : HawkesLam K) (t : R) (s : list R) (his_s : array2) :
  value self t [] s his_s = Ok (lam_mu self) /\
  (forall his_t v,
      his_t <> [] -> nu (lam_kernel self) t s his_t his_s = Ok v ->
      value self t his_t s his_s =
      Ok (lam_mu self + big_sum (length (to_1d v)) (fun j => nth j (to_1d v) 0))) /\
  (forall his_t e,
      his_t <> [] -> nu (lam_kernel self) t s his_t his_s = Raise e ->
      value self t his_t s his_s = Raise e).
Proof.
  split; [reflexivity|].
  split; intros his_t r Hne E; (destruct his_t as [|h his_t]; [congruence|]);
    simpl; unfold HawkesLam_value; simpl; rewrite E; simpl; trivial.
  do 2 f_equal. destruct r as [x|l]; simpl.
  - lra.
  - apply sum_list_big_sum.
Qed.

(** ** Mixtures *)

Lemma getitem_Ok {A : Type} (l : list A) (k : nat) (a d : A) :
  getitem l k = Ok a -> (k < length l)%nat /\ nth k l d = a.
Proof.
  unfold getitem. destruct (nth_error l k) as [x|] eqn:E; [|discriminate].
  intros [= <-]. split.
  - apply nth_error_Some. congruence.
  - apply nth_error_nth. exact E.
Qed.

Lemma getitem_lt {A : Type} (l : list A) (k : nat) (d : A) :
  (k < length l)%nat -> getitem l k = Ok (nth k l d).
Proof.
  intros Hk. unfold getitem.
  rewrite (nth_error_nth' l d Hk). reflexivity.
Qed.

Lemma Forall2_nth {A B : Type} (P : A -> B -> Prop) (l : list A) (l' : list B)
    (d : A) (d' : B) :
  Forall2 P l l' -> forall k, (k < length l)%nat -> P (nth k l d) (nth k l' d').
Proof.
  induction 1 as [|x y l l' Hxy _ IH]; intros [|k] Hk; simpl in *; try lia; trivial.
  apply IH. lia.
Qed.

(** The loop of the constructor appends one component per index. *)
Lemma gm_init_loop (mu_x mu_y sigma_x sigma_y rho : list R) (beta C : R) :
  forall n a gdks r,
    for_each (seq a n)
      (fun k gdks =>
         mx <- getitem mu_x k ;;
         my <- getitem mu_y k ;;
         sx <- getitem sigma_x k ;;
         sy <- getitem sigma_y k ;;
         r <- getitem rho k ;;
         gdk <- GaussianDiffusionKernel_init mx my sx sy r beta C ;;
         Ok (gdks ++ [gdk])) gdks = Ok r ->
    r = gdks ++ map (gm_component mu_x mu_y sigma_x sigma_y rho beta C) (seq a n).
Proof.
  induction n as [|n IH]; simpl; intros a gdks r E.
  - injection E as <-. symmetry. apply app_nil_r.
  - apply bind_Ok in E. destruct E as [gdks' [Hb E]].
    apply IH in E. subst r.
    apply bind_Ok in Hb. destruct Hb as [mx [Hmx Hb]].
    apply bind_Ok in Hb. destruct Hb as [my [Hmy Hb]].
    apply bind_Ok in Hb. destruct Hb as [sx [Hsx Hb]].
    apply bind_Ok in Hb. destruct Hb as [sy [Hsy Hb]].
    apply bind_Ok in Hb. destruct Hb as [rh [Hrh Hb]].
    simpl in Hb. injection Hb as <-.
    apply (getitem_Ok _ _ _ 0) in Hmx, Hmy, Hsx, Hsy, Hrh.
    destruct Hmx as [_ <-], Hmy as [_ <-], Hsx as [_ <-], Hsy as [_ <-], Hrh as [_ <-].
    rewrite <- app_assoc. reflexivity.
Qed.

Lemma gm_init_Ok (n_comp : Z) (w mu_x mu_y sigma_x sigma_y rho : list R)
    (beta C : R) (M : GaussianMixtureDiffusionKernel) :
  GaussianMixtureDiffusionKernel_init n_comp w mu_x mu_y sigma_x sigma_y rho beta C
    = Ok M ->
  M = mk_gmdk (map (gm_component mu_x mu_y sigma_x sigma_y rho beta C)
                 (range n_comp)) n_comp w.
Proof.
  unfold GaussianMixtureDiffusionKernel_init. intros E.
  apply bind_Ok in E. destruct E as [gdks [Hl E]].
  injection E as <-. apply gm_init_loop in Hl. subst gdks. reflexivity.
Qed.

(** How many values the anisotropic kernel returns depends on its inputs
    only, and what it returns is an array. *)
Lemma gaussian_nu_Ok (g : GaussianDiffusionKernel) t s his_t his_s v :
  GaussianDiffusionKernel_nu g t s his_t his_s = Ok v ->
  exists n delta_t delta_x delta_y,
    v = Array (elementwise n (fun j =>
          gaussian_val g (bget n delta_t j) (bget n delta_x j) (bget n delta_y j))) /\
    forall g', GaussianDiffusionKernel_nu g' t s his_t his_s =
               Ok (Array (elementwise n (fun j =>
          gaussian_val g' (bget n delta_t j) (bget n delta_x j) (bget n delta_y j)))).
Proof.
  unfold GaussianDiffusionKernel_nu. intros E.
  destruct (sub_rows s his_s) as [delta_s|e]; [cbn [bind] in *|discriminate].
  destruct (column 0 delta_s) as [delta_x|e]; [cbn [bind] in *|discriminate].
  destruct (column 1 delta_s) as [delta_y|e]; [cbn [bind] in *|discriminate].
  match type of E with
  | bind ?c _ = _ => destruct c as [n|e]; [cbn [bind] in *|discriminate]
  end.
  injection E as <-. exists n, (scalar_sub t his_t), delta_x, delta_y.
  split; reflexivity.
Qed.

Lemma gaussian_nu_same_length (g g' : GaussianDiffusionKernel) t s his_t his_s o o' :
  GaussianDiffusionKernel_nu g t s his_t his_s = Ok (Array o) ->
  GaussianDiffusionKernel_nu g' t s his_t his_s = Ok (Array o') ->
  length o = length o'.
Proof.
  intros E E'. apply gaussian_nu_Ok in E.
  destruct E as (n & dt & dx & dy & Ho & Hall).
  rewrite (Hall g') in E'. injection Ho as ->. injection E' as <-.
  rewrite !elementwise_length. reflexivity.
Qed.

(** What the loop of [nu] has accumulated after [K] components whose
    outputs are arrays of one length. *)
Lemma mixture_loop {G : Type} `{Kernel G} (w : list R) (gdks : list G)
    t s his_t his_s (outs : list (list R)) (n : nat) :
  Forall2 (fun g o => nu g t s his_t his_s = Ok (Array o)) gdks outs ->
  Forall (fun o => length o = n) outs ->
  forall K, (K <= length w)%nat -> (K <= length gdks)%nat ->
    for_each (seq 0 K)
      (fun k acc =>
         wk <- getitem w k ;;
         gdk <- getitem gdks k ;;
         v <- nu gdk t s his_t his_s ;;
         iadd acc (scale wk v)) (Scalar 0) =
    Ok match K with
       | O => Scalar 0
       | S _ => Array (elementwise n (fun j =>
                  big_sum K (fun k => nth k w 0 * nth j (nth k outs []) 0)))
       end.
Proof.
  intros Hnu Hlen. induction K as [|K IH]; intros Hw Hg; trivial.
  rewrite seq_S, for_each_app, IH by lia. cbn [bind Nat.add].
  rewrite for_each_one.
  assert (Hout : (K < length outs)%nat)
    by (rewrite <- (Forall2_length Hnu); lia).
  rewrite (getitem_lt w K 0) by lia. cbn [bind].
  destruct gdks as [|g0 gdks0] eqn:Eg; [simpl in Hg; lia|]. rewrite <- Eg in *.
  rewrite (getitem_lt gdks K g0) by lia. cbn [bind].
  rewrite (Forall2_nth _ _ _ g0 [] Hnu K) by lia. cbn [bind scale].
  assert (HoK : length (nth K outs []) = n).
  { rewrite Forall_forall in Hlen. apply Hlen, nth_In, Hout. }
  destruct K as [|K']; cbn [iadd].
  - do 2 f_equal. apply elementwise_intro.
    + rewrite !length_map. exact HoK.
    + intros j Hj. rewrite !nth_map_lt by (rewrite ?length_map; lia).
      reflexivity.
  - rewrite length_map, elementwise_length, HoK, Nat.eqb_refl.
    do 2 f_equal. apply elementwise_intro.
    + rewrite zip_with_length; rewrite elementwise_length; trivial.
      rewrite length_map. lia.
    + intros j Hj.
      rewrite nth_zip_with, nth_elementwise, nth_map_lt;
        rewrite ?elementwise_length, ?length_map; trivial; lia.
Qed.

Lemma gaussian_outputs_same_length (gdks : list GaussianDiffusionKernel)
    t s his_t his_s (outs : list (list R)) :
  Forall2 (fun g o => nu g t s his_t his_s = Ok (Array o)) gdks outs ->
  Forall (fun o => length o = length (hd [] outs)) outs.
Proof.
  intros HF. destruct HF as [|g0 o0 gdks outs H0 HF]; constructor; trivial.
  simpl. induction HF as [|g o gdks outs Hg _ IH]; constructor; trivial.
  eapply gaussian_nu_same_length; eassumption.
Qed.

Lemma gm_nu_unfold (M : GaussianMixtureDiffusionKernel) t s his_t his_s :
  nu M t s his_t his_s =
  mixture_nu (gm_n_comp M) (gm_w M) (gm_gdks M) t s his_t his_s.
Proof. reflexivity. Qed.

(** C7. The mixture kernel returns the weighted sum of what its components
    return on the same arguments, [w[k]] times the output of component [k];
    with one component of weight 1 it returns what the anisotropic kernel
    of the same parameters returns. *)
Theorem mixture_is_weighted_sum (n_comp : Z)
    (w mu_x mu_y sigma_x sigma_y rho : list R) (beta C : R)
    (M : GaussianMixtureDiffusionKernel)
    (t : R) (s : list R) (his_t : list R) (his_s : array2) :
  GaussianMixtureDiffusionKernel_init n_comp w mu_x mu_y sigma_x sigma_y rho beta C
    = Ok M ->
  (forall outs : list (list R),
      (Z.to_nat n_comp <= length w)%nat ->
      Forall2 (fun g o => nu g t s his_t his_s = Ok (Array o)) (gm_gdks M) outs ->
      nu M t s his_t his_s = Ok (weighted_sum (Z.to_nat n_comp) w outs)) /\
  (n_comp = 1%Z -> nth_error w 0 = Some 1 ->
   nu M t s his_t his_s =
   nu (gm_component mu_x mu_y sigma_x sigma_y rho beta C 0) t s his_t his_s).
Proof.
  intros E. apply gm_init_Ok in E. subst M.
  split.
  - intros outs Hw Hnu. rewrite gm_nu_unfold. unfold mixture_nu, range, weighted_sum.
    cbn [gm_n_comp gm_w gm_gdks] in *.
    apply mixture_loop; trivial.
    + apply gaussian_outputs_same_length in Hnu. exact Hnu.
    + rewrite length_map, length_seq. lia.
  - intros -> Hw. rewrite gm_nu_unfold. unfold mixture_nu.
    cbn [gm_n_comp gm_w gm_gdks]. change (range 1) with [0%nat].
    rewrite for_each_one. unfold getitem at 1. rewrite Hw.
    cbn [bind map getitem nth_error].
    destruct (nu (gm_component mu_x mu_y sigma_x sigma_y rho beta C 0)
                t s his_t his_s) as [v|e] eqn:Ev; cbn [bind]; trivial.
    destruct (gaussian_nu_Ok _ _ _ _ _ _ Ev) as (n & dt & dx & dy & -> & _).
    cbn [scale iadd]. do 2 f_equal. rewrite map_map.
    rewrite <- (map_id (elementwise _ _)) at 2.
    apply map_ext. intros x. lra.
Qed.

(** ** Construction *)

Lemma getitem_ge {A : Type} (l : list A) (k : nat) :
  (length l <= k)%nat -> getitem l k = Raise IndexError.
Proof.
  intros Hk. unfold getitem.
  apply nth_error_None in Hk. rewrite Hk. reflexivity.
Qed.

Lemma getitem_cases (l : list R) (k : nat) :
  getitem l k = if (S k <=? length l)%nat then Ok (nth k l 0) else Raise IndexError.
Proof.
  destruct (Nat.leb_spec (S k) (length l)).
  - apply getitem_lt. lia.
  - apply getitem_ge. lia.
Qed.

Lemma long_enough_mono (m n : nat) (ls : list (list R)) :
  (m <= n)%nat -> long_enough m ls = false -> long_enough n ls = false.
Proof.
  intros Hmn. unfold long_enough. induction ls as [|l ls IH]; simpl; trivial.
  rewrite !andb_false_iff. intros [Hl|Hls].
  - left. apply Nat.leb_gt. apply Nat.leb_gt in Hl. lia.
  - right. auto.
Qed.

Lemma gm_init_loop_cases (mu_x mu_y sigma_x sigma_y rho : list R) (beta C : R) :
  forall n a gdks,
    for_each (seq a n)
      (fun k gdks =>
         mx <- getitem mu_x k ;;
         my <- getitem mu_y k ;;
         sx <- getitem sigma_x k ;;
         sy <- getitem sigma_y k ;;
         r <- getitem rho k ;;
         gdk <- GaussianDiffusionKernel_init mx my sx sy r beta C ;;
         Ok (gdks ++ [gdk])) gdks =
    if (n =? 0)%nat || long_enough (a + n) [mu_x; mu_y; sigma_x; sigma_y; rho]
    then Ok (gdks ++ map (gm_component mu_x mu_y sigma_x sigma_y rho beta C)
                       (seq a n))
    else Raise IndexError.
Proof.
  induction n as [|n IH]; intros a gdks.
  - simpl. rewrite app_nil_r. reflexivity.
  - cbn [seq for_each]. rewrite !getitem_cases.
    cbn [Nat.eqb orb]. rewrite Nat.add_succ_r.
    destruct (long_enough (S a) [mu_x; mu_y; sigma_x; sigma_y; rho]) eqn:Ea.
    + pose proof Ea as Ea'. cbn [long_enough forallb] in Ea'.
      rewrite !andb_true_iff in Ea'.
      destruct Ea' as (-> & -> & -> & -> & -> & _).
      cbn [bind GaussianDiffusionKernel_init]. rewrite IH.
      rewrite <- app_assoc. cbn [app map seq].
      destruct n as [|n]; [|reflexivity].
      rewrite !Nat.add_0_r, !Ea. reflexivity.
    + rewrite (long_enough_mono (S a) (S (a + n))) by (trivial; lia).
      cbn [long_enough forallb] in Ea.
      repeat match goal with
             | |- context [(?x <=? ?y)%nat] => destruct (x <=? y)%nat
             end; cbn [bind]; trivial; discriminate.
Qed.

(** C6, as the code has it.  No constructor looks at a correlation: the
    anisotropic kernel is built from any seven numbers and stores them
    unchanged, and the mixture is built whenever each parameter list has an
    entry for each component; it raises [IndexError] otherwise, and for no
    other reason. *)
Theorem construction_checks_no_parameter :
  (forall mu_x mu_y sigma_x sigma_y rho beta C : R,
      GaussianDiffusionKernel_init mu_x mu_y sigma_x sigma_y rho beta C =
      Ok (mk_gdk C beta mu_x mu_y sigma_x sigma_y rho)) /\
  (forall (n_comp : Z) (w mu_x mu_y sigma_x sigma_y rho : list R) (beta C : R),
      GaussianMixtureDiffusionKernel_init n_comp w mu_x mu_y sigma_x sigma_y rho
        beta C =
      if long_enough (Z.to_nat n_comp) [mu_x; mu_y; sigma_x; sigma_y; rho]
      then Ok (mk_gmdk
                 (map (gm_component mu_x mu_y sigma_x sigma_y rho beta C)
                    (range n_comp)) n_comp w)
      else Raise IndexError).
Proof.
  split; [reflexivity|]. intros.
  unfold GaussianMixtureDiffusionKernel_init, range.
  rewrite gm_init_loop_cases. cbn [Nat.add app].
  destruct (Z.to_nat n_comp) as [|n]; [reflexivity|].
  cbn [Nat.eqb orb].
  destruct (long_enough (S n) _); reflexivity.
Qed.

(** C6 fails on the code: a kernel with correlation 1 is constructed, alone
    and as the component of a mixture. *)
Lemma unit_correlation_is_constructed :
  1 <= Rabs 1 /\
  GaussianDiffusionKernel_init 0 0 1 1 1 1 1 = Ok (mk_gdk 1 1 0 0 1 1 1) /\
  GaussianMixtureDiffusionKernel_init 1 [1] [0] [0] [1] [1] [1] 1 1 =
  Ok (mk_gmdk [mk_gdk 1 1 0 0 1 1 1] 1 [1]).
Proof.
  split; [rewrite Rabs_R1; lra|]. split; reflexivity.
Qed.

(** ** Sorting the candidates *)

Lemma time_le_total (r r' : list R) : ~ time_le r r' -> time_le r' r.
Proof. unfold time_le. lra. Qed.

Lemma time_le_trans : Relations_1.Transitive time_le.
Proof. intros x y z. unfold time_le. lra. Qed.

Lemma insert_row_Permutation (r : list R) (l : list (list R)) :
  Permutation (r :: l) (insert_row r l).
Proof.
  induction l as [|r' l IH]; simpl; trivial.
  destruct (Rle_dec (time_of r) (time_of r')); trivial.
  rewrite perm_swap. constructor. exact IH.
Qed.

Lemma insert_row_Sorted (r : list R) (l : list (list R)) :
  Sorted time_le l -> Sorted time_le (insert_row r l).
Proof.
  induction l as [|r' l IH]; simpl; intros Hs.
  - repeat constructor.
  - destruct (Rle_dec (time_of r) (time_of r')) as [Hle|Hgt].
    + constructor; trivial. constructor. exact Hle.
    + apply Sorted_inv in Hs. destruct Hs as [Hs Hhd].
      constructor; [apply IH, Hs|].
      apply time_le_total in Hgt.
      destruct l as [|r'' l]; simpl.
      * constructor. exact Hgt.
      * destruct (Rle_dec (time_of r) (time_of r'')); constructor; trivial.
        inversion Hhd. assumption.
Qed.

Lemma sort_by_time_ascending (a : array2) : ascending (rows (sort_by_time a)).
Proof.
  unfold ascending. apply Sorted_StronglySorted; [exact time_le_trans|].
  simpl. induction (rows a) as [|r l IH]; simpl.
  - constructor.
  - apply insert_row_Sorted, IH.
Qed.

Lemma sort_by_time_Permutation (a : array2) :
  Permutation (rows a) (rows (sort_by_time a)).
Proof.
  simpl. induction (rows a) as [|r l IH]; simpl; trivial.
  rewrite <- insert_row_Permutation. constructor. exact IH.
Qed.

Lemma ascending_remove (l1 l2 : list (list R)) (r : list R) :
  ascending (l1 ++ r :: l2) -> ascending (l1 ++ l2).
Proof.
  unfold ascending. induction l1 as [|x l1 IH]; simpl; intros Hs.
  - inversion Hs. assumption.
  - inversion_clear Hs as [|? ? Hs' Hx]. constructor; [apply IH, Hs'|].
    rewrite Forall_app in *. destruct Hx as [H1 H2].
    inversion_clear H2. split; assumption.
Qed.

Lemma strictly_ascending_ascending (l : list (list R)) :
  strictly_ascending l -> ascending l.
Proof.
  unfold strictly_ascending, ascending.
  induction 1 as [|r l _ IH Hr]; constructor; trivial.
  eapply Forall_impl; [|exact Hr]. unfold time_le. intros; lra.
Qed.

Section SamplerProperties.

Context {L : Type} `{Intensity L}.
Variable lam : L.

Lemma homogeneous_poisson_sampling_ascending (T : interval) (S : list interval)
    (d : draws) (homo_points : array2) :
  _homogeneous_poisson_sampling lam T S d = Ok homo_points ->
  ascending (rows homo_points) /\
  ncols homo_points = (1 + length S)%nat /\
  nrows homo_points = poisson_N d.
Proof.
  unfold _homogeneous_poisson_sampling.
  destruct (Rlt_dec _ 0); [discriminate|]. intros [= <-].
  split; [apply sort_by_time_ascending|]. split.
  - simpl. rewrite length_map, length_seq. reflexivity.
  - unfold nrows. rewrite <- (Permutation_length (sort_by_time_Permutation _)).
    simpl. rewrite length_map, length_seq. reflexivity.
Qed.

(** *** One candidate *)

Lemma thinning_body_Some homo_points verbose d i row retained log log' r :
  thinning_body lam homo_points verbose d i row retained log
    = (log', Ok (Some r)) ->
  exists v,
    lam_value_at lam homo_points retained row = Ok v /\
    v <= upper_bound lam /\
    r = if Rge_dec v (uniform 0 1 (uniform_D d i) * upper_bound lam)
        then append_row retained row else retained.
Proof.
  unfold thinning_body.
  destruct (lam_value_at lam homo_points retained row) as [v|e];
    [|discriminate].
  destruct (Rgt_dec v (upper_bound lam)) as [Hgt|Hle]; [discriminate|].
  intros E. exists v. split; [reflexivity|]. split; [lra|].
  destruct (verbose && negb (i =? 0)%nat);
    [destruct (nrows homo_points / 10 =? 0)%nat;
     [discriminate | destruct (i mod (nrows homo_points / 10) =? 0)%nat]|];
    injection E as _ <-; reflexivity.
Qed.

Lemma thinning_body_violation homo_points verbose d i row retained log v :
  lam_value_at lam homo_points retained row = Ok v ->
  v > upper_bound lam ->
  thinning_body lam homo_points verbose d i row retained log
    = (log ++ [MsgViolation v (upper_bound lam)], Ok None).
Proof.
  intros Ev Hgt. unfold thinning_body. rewrite Ev.
  destruct (Rgt_dec v (upper_bound lam)); [reflexivity|contradiction].
Qed.

Lemma thinning_body_None homo_points verbose d i row retained log log' :
  thinning_body lam homo_points verbose d i row retained log = (log', Ok None) ->
  exists v,
    lam_value_at lam homo_points retained row = Ok v /\
    v > upper_bound lam /\
    log' = log ++ [MsgViolation v (upper_bound lam)].
Proof.
  unfold thinning_body.
  destruct (lam_value_at lam homo_points retained row) as [v|e];
    [|discriminate].
  destruct (Rgt_dec v (upper_bound lam)) as [Hgt|Hle].
  - intros [= <-]. exists v. auto.
  - destruct (verbose && negb (i =? 0)%nat);
      [destruct (nrows homo_points / 10 =? 0)%nat;
       [discriminate | destruct (i mod (nrows homo_points / 10) =? 0)%nat]|];
      discriminate.
Qed.

(** Without the progress lines the body raises only what [lam.value]
    raises. *)
Lemma thinning_body_quiet homo_points d i row retained log v :
  lam_value_at lam homo_points retained row = Ok v ->
  v <= upper_bound lam ->
  thinning_body lam homo_points false d i row retained log =
  (log, Ok (Some (if Rge_dec v (uniform 0 1 (uniform_D d i) * upper_bound lam)
                  then append_row retained row else retained))).
Proof.
  intros Ev Hle. unfold thinning_body. rewrite Ev.
  destruct (Rgt_dec v (upper_bound lam)); [lra|reflexivity].
Qed.

(** With the progress lines and fewer than ten candidates, the test
    [i % int(homo_points.shape[0] / 10) == 0] divides by zero at every
    candidate after the first that is within the bound. *)
Lemma thinning_body_progress_raises homo_points d i row retained log v :
  lam_value_at lam homo_points retained row = Ok v ->
  v <= upper_bound lam ->
  (nrows homo_points < 10)%nat -> i <> 0%nat ->
  thinning_body lam homo_points true d i row retained log =
  (log, Raise ZeroDivisionError).
Proof.
  intros Ev Hle Hn Hi. unfold thinning_body. rewrite Ev.
  destruct (Rgt_dec v (upper_bound lam)); [lra|].
  destruct (Nat.eqb_spec i 0) as [Hi0|_]; [contradiction|]. cbn [andb negb].
  rewrite Nat.div_small by exact Hn. reflexivity.
Qed.

(** *** The loop *)

Lemma thinning_loop_app homo_points verbose d (pre post : list (list R)) :
  forall i retained log,
    thinning_loop lam homo_points verbose d i (pre ++ post) retained log =
    match thinning_loop lam homo_points verbose d i pre retained log with
    | (log', Ok (Some retained')) =>
        thinning_loop lam homo_points verbose d (i + length pre) post retained' log'
    | stop => stop
    end.
Proof.
  induction pre as [|row pre IH]; intros i retained log; simpl.
  - rewrite Nat.add_0_r. reflexivity.
  - destruct (thinning_body lam homo_points verbose d i row retained log)
      as [log' [[r|]|e]]; trivial.
    rewrite IH, Nat.add_succ_r. reflexivity.
Qed.

Lemma thinning_loop_Some homo_points verbose d (cands : list (list R)) :
  forall i retained log log' r,
    thinning_loop lam homo_points verbose d i cands retained log
      = (log', Ok (Some r)) ->
    r = thinned lam homo_points d i cands retained /\
    ncols r = ncols retained /\
    (regular retained -> Forall (fun row => length row = ncols retained) cands ->
     regular r) /\
    (ascending (rows retained ++ cands) -> ascending (rows r)).
Proof.
  induction cands as [|row cands IH]; intros i retained log log' r E; simpl in E.
  - injection E as _ <-. rewrite app_nil_r. auto.
  - destruct (thinning_body lam homo_points verbose d i row retained log)
      as [log1 [[r1|]|e]] eqn:Eb; try discriminate.
    apply thinning_body_Some in Eb. destruct Eb as (v & Ev & _ & Hr1).
    apply IH in E. destruct E as (Hr & Hc & Hreg & Hasc).
    simpl. rewrite Ev.
    destruct (Rge_dec v (uniform 0 1 (uniform_D d i) * upper_bound lam));
      subst r1; cbn [append_row ncols rows] in *.
    + repeat split; trivial.
      * intros Hret Hall. inversion_clear Hall. apply Hreg; trivial.
        unfold regular. simpl. apply Forall_app. split; [exact Hret|].
        constructor; trivial.
      * intros Ha. apply Hasc. rewrite <- app_assoc. exact Ha.
    + repeat split; trivial.
      * intros Hret Hall. inversion_clear Hall. apply Hreg; trivial.
      * intros Ha. apply Hasc. eapply ascending_remove, Ha.
Qed.

Lemma thinning_loop_bounded homo_points verbose d (pre post : list (list R))
    (row : list R) i retained log log' r :
  thinning_loop lam homo_points verbose d i (pre ++ row :: post) retained log
    = (log', Ok (Some r)) ->
  exists log1 retained1 v,
    thinning_loop lam homo_points verbose d i pre retained log
      = (log1, Ok (Some retained1)) /\
    lam_value_at lam homo_points retained1 row = Ok v /\
    v <= upper_bound lam.
Proof.
  rewrite thinning_loop_app.
  destruct (thinning_loop lam homo_points verbose d i pre retained log)
    as [log1 [[retained1|]|e]]; try discriminate.
  simpl.
  destruct (thinning_body lam homo_points verbose d (i + length pre) row
              retained1 log1) as [log2 [[r2|]|e]] eqn:Eb; try discriminate.
  intros _. apply thinning_body_Some in Eb. destruct Eb as (v & Ev & Hv & _).
  exists log1, retained1, v. auto.
Qed.

(** *** The pass *)

Lemma thinning_Some homo_points verbose d log r :
  _inhomogeneous_poisson_thinning lam homo_points verbose d = (log, Ok (Some r)) ->
  exists log', reaches lam homo_points verbose d (rows homo_points) r log'.
Proof.
  unfold _inhomogeneous_poisson_thinning, reaches.
  destruct (thinning_loop lam homo_points verbose d 0 (rows homo_points)
              (empty (ncols homo_points)) (start_log homo_points verbose))
    as [log1 [[r1|]|e]]; try discriminate.
  intros [= _ <-]. exists log1. reflexivity.
Qed.

Lemma thinning_violation homo_points verbose d pre row post retained log v :
  rows homo_points = pre ++ row :: post ->
  reaches lam homo_points verbose d pre retained log ->
  lam_value_at lam homo_points retained row = Ok v ->
  v > upper_bound lam ->
  _inhomogeneous_poisson_thinning lam homo_points verbose d =
  (log ++ [MsgViolation v (upper_bound lam)], Ok None).
Proof.
  intros Hrows Hpre Ev Hgt. unfold _inhomogeneous_poisson_thinning.
  rewrite Hrows, thinning_loop_app. unfold reaches in Hpre. rewrite Hpre.
  simpl. rewrite (thinning_body_violation _ _ _ _ _ _ _ _ Ev Hgt). reflexivity.
Qed.



(** *** The loop of generate *)

Lemma generate_body_Ok T S min_n_points verbose d st log log' st' :
  generate_body lam T S min_n_points verbose d st log = (log', Ok st') ->
  st' = st \/
  exists homo_points out points,
    _homogeneous_poisson_sampling lam T S d = Ok homo_points /\
    _inhomogeneous_poisson_thinning lam homo_points verbose d
      = (out, Ok (Some points)) /\
    (min_n_points <= Z.of_nat (nrows points))%Z /\
    st' = mk_gen (points_list st ++ [points]) (sizes st ++ [nrows points])
            (Nat.max (max_len st) (nrows points)) (gen_b st + 1).
Proof.
  unfold generate_body.
  destruct (_homogeneous_poisson_sampling lam T S d) as [homo|e]; [|discriminate].
  destruct (_inhomogeneous_poisson_thinning lam homo verbose d)
    as [out [[points|]|e]] eqn:Et; try discriminate.
  - destruct (Z.ltb_spec (Z.of_nat (nrows points)) min_n_points) as [Hlt|Hge].
    + intros [= _ <-]. left. reflexivity.
    + intros [= _ <-]. right. exists homo, out, points.
      repeat split; trivial. f_equal.
      destruct (Nat.ltb_spec (max_len st) (nrows points)); lia.
  - intros [= _ <-]. left. reflexivity.
Qed.


Lemma generate_loop_invariant (P : gen_state -> Prop) T S batch_size
    min_n_points verbose (ds : list draws) :
  forall st log log' st',
    (forall d st log log' st',
        In d ds -> P st -> (gen_b st < batch_size)%Z ->
        generate_body lam T S min_n_points verbose d st log = (log', Ok st') ->
        P st') ->
    P st ->
    generate_loop lam T S batch_size min_n_points verbose ds st log
      = (log', Returned st') ->
    P st' /\ (batch_size <= gen_b st')%Z.
Proof.
  induction ds as [|d ds IH]; intros st log log' st' Hstep Hst E; simpl in E;
    destruct (Z.ltb_spec (gen_b st) batch_size) as [Hlt|Hge];
    try discriminate; try (injection E as _ <-; auto; fail).
  destruct (generate_body lam T S min_n_points verbose d st log)
    as [log1 [st1|e]] eqn:Eb; [|discriminate].
  apply IH in E; trivial.
  - intros d' st2 log2 log2' st2' Hd. apply Hstep. right. exact Hd.
  - eapply Hstep; eauto. left. reflexivity.
Qed.

(** What the loop has recorded when it ends. *)
Lemma generate_loop_Returned T S batch_size min_n_points verbose ds log st :
  generate_loop lam T S batch_size min_n_points verbose ds gen_start []
    = (log, Returned st) ->
  Forall (accepted_by lam T S min_n_points verbose ds) (points_list st) /\
  sizes st = map nrows (points_list st) /\
  max_len st = list_max (sizes st) /\
  gen_b st = Z.of_nat (length (points_list st)) /\
  gen_b st = Z.max batch_size 0.
Proof.
  intros E.
  apply (generate_loop_invariant
           (fun st =>
              Forall (accepted_by lam T S min_n_points verbose ds) (points_list st) /\
              sizes st = map nrows (points_list st) /\
              max_len st = list_max (sizes st) /\
              gen_b st = Z.of_nat (length (points_list st)) /\
              (gen_b st <= Z.max batch_size 0)%Z)) in E.
  - destruct E as [(Ha & Hs & Hm & Hb & Hle) Hge]. repeat split; trivial. lia.
  - clear E. intros d st0 log0 log1 st1 Hd (Ha & Hs & Hm & Hb & Hle) Hlt Eb.
    apply generate_body_Ok in Eb.
    destruct Eb as [->|(homo & out & points & Eh & Et & Hmin & ->)];
      [repeat split; trivial|].
    cbn [points_list sizes max_len gen_b]. repeat split.
    + apply Forall_app. split; trivial. constructor; [|constructor].
      exists d, homo, out. auto.
    + rewrite map_app, Hs. reflexivity.
    + rewrite list_max_app, Hm. simpl. lia.
    + rewrite length_app, Hb. simpl. lia.
    + lia.
  - simpl. repeat split; trivial. lia.
Qed.

(** *** Packing the batch *)

Lemma set_nth_app {A : Type} (l1 l2 : list A) (x a : A) (k : nat) :
  length l1 = k -> set_nth k a (l1 ++ x :: l2) = l1 ++ a :: l2.
Proof.
  revert k. induction l1 as [|y l1 IH]; intros k <-; simpl; trivial.
  f_equal. apply IH. reflexivity.
Qed.

Lemma getitem_middle {A : Type} (l1 l2 : list A) (x : A) (k : nat) :
  length l1 = k -> getitem (l1 ++ x :: l2) k = Ok x.
Proof.
  intros <-. unfold getitem. rewrite nth_error_app2, Nat.sub_diag by lia.
  reflexivity.
Qed.

Lemma firstn_succ_nth {A : Type} (l : list A) (d : A) (k : nat) :
  (k < length l)%nat -> firstn (S k) l = firstn k l ++ [nth k l d].
Proof.
  revert k. induction l as [|x l IH]; intros k Hk; simpl in Hk; [lia|].
  destruct k as [|k]; trivial. cbn [firstn nth app]. f_equal.
  apply IH. lia.
Qed.

Lemma skipn_repeat {A : Type} (x : A) (n m : nat) :
  skipn n (repeat x m) = repeat x (m - n).
Proof.
  revert m. induction n as [|n IH]; intros [|m]; simpl; trivial.
Qed.

Lemma broadcast_to_same {A : Type} (l : list A) :
  broadcast_to (length l) l = l.
Proof. destruct l as [|x [|y l]]; reflexivity. Qed.

Lemma broadcast_to_width (a : array2) :
  regular a -> ncols a = 3%nat -> map (broadcast_to 3) (rows a) = rows a.
Proof.
  unfold regular. intros Hreg Hc. rewrite Hc in Hreg.
  rewrite <- (map_id (rows a)) at 2. apply map_ext_in.
  intros row Hrow. rewrite Forall_forall in Hreg. apply Hreg in Hrow.
  destruct row as [|x [|y row]]; trivial. discriminate.
Qed.

Lemma assign_rows_padded (B ML k : nat) (done : list (list (list R)))
    (rest : list (list (list R))) (points : array2) :
  length done = k -> fits_batch ML points ->
  assign_rows
    (mk_array3 (B, ML, 3%nat) (done ++ repeat (repeat 0 3) ML :: rest)) k points =
  Ok (mk_array3 (B, ML, 3%nat) (done ++ padded ML points :: rest)).
Proof.
  intros Hk (Hc & Hreg & Hn). unfold assign_rows. cbn [shape3 slabs].
  rewrite (getitem_middle _ _ _ _ Hk). cbn [bind].
  rewrite Nat.min_l by exact Hn. unfold fits.
  rewrite Hc, !Nat.eqb_refl. cbn [orb andb].
  rewrite (broadcast_to_width _ Hreg Hc). unfold nrows at 1.
  rewrite broadcast_to_same, skipn_repeat, (set_nth_app _ _ _ _ _ Hk).
  reflexivity.
Qed.

Lemma pack_loop (B ML : nat) (pl : list array2) :
  Forall (fits_batch ML) pl -> length pl = B ->
  forall k, (k <= B)%nat ->
    for_each (seq 0 k)
      (fun b data => points <- getitem pl b ;; assign_rows data b points)
      (mk_array3 (B, ML, 3%nat) (repeat (repeat (repeat 0 3) ML) B)) =
    Ok (mk_array3 (B, ML, 3%nat)
          (map (padded ML) (firstn k pl)
           ++ repeat (repeat (repeat 0 3) ML) (B - k))).
Proof.
  intros Hfit Hlen. induction k as [|k IH]; intros Hk.
  - simpl. rewrite Nat.sub_0_r. reflexivity.
  - rewrite seq_S, for_each_app, IH by lia. cbn [bind Nat.add].
    rewrite for_each_one.
    rewrite (getitem_lt pl k (empty 0)) by lia. cbn [bind].
    replace (B - k)%nat with (S (B - S k)) by lia. cbn [repeat].
    rewrite assign_rows_padded.
    + rewrite (firstn_succ_nth pl (empty 0)) by lia.
      rewrite map_app, <- app_assoc. reflexivity.
    + rewrite length_map, length_firstn. lia.
    + rewrite Forall_forall in Hfit. apply Hfit, nth_In. lia.
Qed.

Lemma pack_Ok (batch_size : Z) (st : gen_state) :
  (0 <= batch_size)%Z ->
  Forall (fits_batch (max_len st)) (points_list st) ->
  length (points_list st) = Z.to_nat batch_size ->
  pack batch_size st =
  Ok (mk_array3 (Z.to_nat batch_size, max_len st, 3%nat)
        (map (padded (max_len st)) (points_list st)),
      sizes st).
Proof.
  intros Hb Hfit Hlen. unfold pack, zeros.
  destruct (Z.ltb_spec batch_size 0) as [Hlt|_]; [lia|]. cbn [bind].
  unfold range. rewrite (pack_loop _ _ _ Hfit Hlen) by lia. cbn [bind].
  rewrite Nat.sub_diag, <- Hlen, firstn_all, app_nil_r. reflexivity.
Qed.

Lemma pack_negative (batch_size : Z) (st : gen_state) :
  (batch_size < 0)%Z -> pack batch_size st = Raise ValueError.
Proof.
  intros Hb. unfold pack, zeros.
  destruct (Z.ltb_spec batch_size 0) as [_|Hge]; [reflexivity|lia].
Qed.

(** *** What a recorded sequence is *)

Lemma transpose_regular (n : nat) (cols : list (list R)) :
  regular (transpose n cols).
Proof.
  unfold regular, transpose. simpl. apply Forall_forall.
  intros row Hrow. apply in_map_iff in Hrow. destruct Hrow as [j [<- _]].
  apply length_map.
Qed.

Lemma sort_by_time_regular (a : array2) : regular a -> regular (sort_by_time a).
Proof.
  unfold regular. intros Hreg.
  eapply Permutation_Forall; [apply sort_by_time_Permutation|exact Hreg].
Qed.

Lemma homogeneous_poisson_sampling_regular T S d homo_points :
  _homogeneous_poisson_sampling lam T S d = Ok homo_points -> regular homo_points.
Proof.
  unfold _homogeneous_poisson_sampling.
  destruct (Rlt_dec _ 0); [discriminate|]. intros [= <-].
  apply sort_by_time_regular, transpose_regular.
Qed.

Lemma accepted_by_shape T S min_n_points verbose ds points :
  accepted_by lam T S min_n_points verbose ds points ->
  ncols points = (1 + length S)%nat /\ regular points /\ ascending (rows points).
Proof.
  intros (d & homo & out & _ & Eh & Et & _).
  destruct (homogeneous_poisson_sampling_ascending _ _ _ _ Eh) as (Hasc & Hc & _).
  apply homogeneous_poisson_sampling_regular in Eh.
  apply thinning_Some in Et. destruct Et as [log' Et].
  apply thinning_loop_Some in Et. destruct Et as (_ & Hcr & Hreg & Ha).
  simpl in *. repeat split; auto; try congruence.
  apply Hreg; [constructor | exact Eh].
Qed.

Lemma accepted_by_bounded T S min_n_points verbose ds points :
  accepted_by lam T S min_n_points verbose ds points ->
  exists d homo_points out,
    In d ds /\
    _homogeneous_poisson_sampling lam T S d = Ok homo_points /\
    _inhomogeneous_poisson_thinning lam homo_points verbose d
      = (out, Ok (Some points)) /\
    forall pre row post,
      rows homo_points = pre ++ row :: post ->
      exists retained log v,
        reaches lam homo_points verbose d pre retained log /\
        lam_value_at lam homo_points retained row = Ok v /\
        v <= upper_bound lam.
Proof.
  intros (d & homo & out & Hd & Eh & Et & _).
  exists d, homo, out. repeat split; trivial.
  intros pre row post Hrows.
  apply thinning_Some in Et. destruct Et as [log' Et].
  unfold reaches in Et. rewrite Hrows in Et.
  apply thinning_loop_bounded in Et.
  destruct Et as (log1 & retained1 & v & Hpre & Ev & Hv).
  exists retained1, log1, v. auto.
Qed.

Lemma generate_Returned T S batch_size min_n_points verbose ds log data szs :
  generate lam T S batch_size min_n_points verbose ds
    = (log, Returned (data, szs)) ->
  exists st,
    generate_loop lam T S batch_size min_n_points verbose ds gen_start []
      = (log, Returned st) /\
    pack batch_size st = Ok (data, szs).
Proof.
  unfold generate.
  destruct (generate_loop lam T S batch_size min_n_points verbose ds gen_start [])
    as [log1 [st| |]]; try discriminate.
  destruct (pack batch_size st) as [r|e] eqn:Ep; [|discriminate].
  intros [= <- <-]. exists st. auto.
Qed.

(** The batch [generate] returns for a region of two space dimensions:
    the recorded sequences, each padded with rows of zeros. *)
Lemma generate_returns_recorded T S batch_size min_n_points verbose ds log data szs :
  generate lam T S batch_size min_n_points verbose ds
    = (log, Returned (data, szs)) ->
  exists pl,
    Forall (accepted_by lam T S min_n_points verbose ds) pl /\
    szs = map nrows pl /\
    length pl = Z.to_nat batch_size /\
    (length S = 2%nat ->
     data = mk_array3 (Z.to_nat batch_size, list_max szs, 3%nat)
              (map (padded (list_max szs)) pl)).
Proof.
  intros E. apply generate_Returned in E. destruct E as (st & El & Ep).
  apply generate_loop_Returned in El.
  destruct El as (Hacc & Hs & Hm & Hb & Hbs).
  assert (Hnn : (0 <= batch_size)%Z).
  { destruct (Z.lt_ge_cases batch_size 0) as [Hneg|]; trivial.
    rewrite (pack_negative _ st Hneg) in Ep. discriminate. }
  assert (Hlen : length (points_list st) = Z.to_nat batch_size) by lia.
  assert (Hszs : szs = sizes st).
  { unfold pack in Ep. apply bind_Ok in Ep. destruct Ep as [d0 [_ Ep]].
    apply bind_Ok in Ep. destruct Ep as [d1 [_ Ep]]. congruence. }
  exists (points_list st). repeat split; trivial; try congruence.
  intros HS. rewrite pack_Ok in Ep; trivial.
  - rewrite Hszs, <- Hm. congruence.
  - apply Forall_forall. intros points Hin.
    rewrite Forall_forall in Hacc.
    destruct (accepted_by_shape _ _ _ _ _ _ (Hacc _ Hin)) as (Hc & Hreg & _).
    repeat split; trivial; [lia|].
    rewrite Hm, Hs.
    pose proof (proj1 (list_max_le (map nrows (points_list st)) _)
                  (Nat.le_refl _)) as Hmax.
    rewrite Forall_forall in Hmax. apply Hmax, in_map, Hin.
Qed.

(** *** The sampler and its specification *)



Lemma thinning_loop_In homo_points verbose d (cands : list (list R)) :
  forall i retained log log' r,
    thinning_loop lam homo_points verbose d i cands retained log
      = (log', Ok (Some r)) ->
    forall x, In x (rows r) -> In x (rows retained) \/ In x cands.
Proof.
  induction cands as [|row cands IH]; intros i retained log log' r E x Hx;
    simpl in E.
  - injection E as _ <-. left. exact Hx.
  - destruct (thinning_body lam homo_points verbose d i row retained log)
      as [log1 [[r1|]|e]] eqn:Eb; try discriminate.
    apply thinning_body_Some in Eb. destruct Eb as (v & _ & _ & Hr1).
    destruct (IH _ _ _ _ _ E x Hx) as [Hin|Hin]; [|right; right; exact Hin].
    destruct (Rge_dec v (uniform 0 1 (uniform_D d i) * upper_bound lam));
      subst r1; [|left; exact Hin].
    cbn [append_row rows] in Hin. apply in_app_or in Hin.
    destruct Hin as [Hin|[<-|[]]]; [left; exact Hin|right; left; reflexivity].
Qed.

Lemma strictly_ascending_before (pre post : list (list R)) (row : list R) :
  strictly_ascending (pre ++ row :: post) ->
  Forall (fun r => time_of r < time_of row) pre.
Proof.
  unfold strictly_ascending.
  induction pre as [|a pre IH]; intros Hs; [constructor|].
  inversion_clear Hs as [|? ? Hs' Ha]. constructor; [|apply IH, Hs'].
  rewrite Forall_forall in Ha. apply Ha, in_elt.
Qed.

(** C2, as the code has it.  Every sequence of a returned batch is in
    ascending order of time, equal times allowed, and is what a complete
    pass returned.  When the proposals of that pass have times that all
    differ, every candidate came strictly after the events retained before
    it, its intensity was computed and was at most the upper bound. *)
Theorem recorded_sequences_ascending_and_bounded (T : interval)
    (S : list interval) (batch_size min_n_points : Z) (verbose : bool)
    (ds : list draws) (log : list msg) (data : array3) (szs : list nat) :
  generate lam T S batch_size min_n_points verbose ds
    = (log, Returned (data, szs)) ->
  exists st,
    generate_loop lam T S batch_size min_n_points verbose ds gen_start []
      = (log, Returned st) /\
    pack batch_size st = Ok (data, szs) /\
    Forall
      (fun points =>
         ascending (rows points) /\
         exists d homo_points out,
           In d ds /\
           _homogeneous_poisson_sampling lam T S d = Ok homo_points /\
           _inhomogeneous_poisson_thinning lam homo_points verbose d
             = (out, Ok (Some points)) /\
           (strictly_ascending (rows homo_points) ->
            forall pre row post,
              rows homo_points = pre ++ row :: post ->
              exists retained log v,
                reaches lam homo_points verbose d pre retained log /\
                Forall (fun r => time_of r < time_of row) (rows retained) /\
                lam_value_at lam homo_points retained row = Ok v /\
                v <= upper_bound lam))
      (points_list st).
Proof.
  intros E. apply generate_Returned in E. destruct E as (st & El & Ep).
  exists st. repeat split; trivial.
  apply generate_loop_Returned in El. destruct El as (Hacc & _).
  eapply Forall_impl; [|exact Hacc]. intros points Hp. split.
  - eapply accepted_by_shape, Hp.
  - apply accepted_by_bounded in Hp.
    destruct Hp as (d & homo & out & Hd & Eh & Et & Hb).
    exists d, homo, out. repeat split; trivial.
    intros Hs pre row post Hrows.
    destruct (Hb pre row post Hrows) as (retained & log1 & v & Hr & Ev & Hv).
    exists retained, log1, v. repeat split; trivial.
    rewrite Hrows in Hs. apply strictly_ascending_before in Hs.
    rewrite Forall_forall in Hs. apply Forall_forall. intros x Hx.
    destruct (thinning_loop_In _ _ _ _ _ _ _ _ _ Hr x Hx) as [[]|Hin].
    apply Hs, Hin.
Qed.


End SamplerProperties.

(** ** Runs on concrete inputs *)

Ltac real_decide :=
  repeat match goal with
         | |- context [Rlt_dec ?a ?b] =>
             destruct (Rlt_dec a b); try (exfalso; simpl in *; lra)
         | |- context [Rle_dec ?a ?b] =>
             destruct (Rle_dec a b); try (exfalso; simpl in *; lra)
         | |- context [Rgt_dec ?a ?b] =>
             destruct (Rgt_dec a b); try (exfalso; simpl in *; lra)
         | |- context [Rge_dec ?a ?b] =>
             destruct (Rge_dec a b); try (exfalso; simpl in *; lra)
         end.

Lemma uniform_unit (u : R) : uniform 0 1 u = u.
Proof. unfold uniform. ring. Qed.

(** One step of a pass without progress lines, at a candidate within the
    bound. *)
Ltac quiet_step :=
  cbn [thinning_loop];
  erewrite thinning_body_quiet;
  [ | reflexivity | simpl; try lra ];
  cbn [upper_bound Intensity_HawkesLam HawkesLam_upper_bound lam_maximum
       uniform_D];
  rewrite ?uniform_unit.

Ltac sample :=
  unfold _homogeneous_poisson_sampling;
  cbn [upper_bound Intensity_HawkesLam HawkesLam_upper_bound lam_maximum
       lebesgue_measure fold_right fst snd];
  real_decide;
  cbn [poisson_N uniform_sample length seq map nth fst snd Nat.eqb];
  rewrite ?uniform_unit;
  unfold sort_by_time, transpose;
  cbn [rows ncols map seq nth length fold_right insert_row time_of];
  real_decide; try reflexivity.

Lemma sampling_tie :
  _homogeneous_poisson_sampling lam_tight unit_interval unit_square draws_tie
  = Ok (mk_array2 3 [tie_row; tie_row]).
Proof. unfold lam_tight, unit_interval, unit_square, draws_tie. sample. Qed.

Lemma thinning_tie :
  _inhomogeneous_poisson_thinning lam_tight (mk_array2 3 [tie_row; tie_row])
    false draws_tie
  = ([], Ok (Some (mk_array2 3 [tie_row; tie_row]))).
Proof.
  unfold _inhomogeneous_poisson_thinning, start_log. cbn [rows ncols].
  quiet_step. real_decide. quiet_step. real_decide. reflexivity.
Qed.

Lemma generate_tie :
  generate lam_tight unit_interval unit_square 1 2 false [draws_tie] =
  ([MsgGenerated 1],
   Returned (mk_array3 (1, 2, 3)%nat [[tie_row; tie_row]], [2%nat])).
Proof.
  unfold generate. cbn [generate_loop gen_start gen_b Z.ltb Z.compare].
  unfold generate_body. rewrite sampling_tie, thinning_tie. reflexivity.
Qed.

Lemma tie_not_strict : ~ strictly_ascending [tie_row; tie_row].
Proof.
  intros Hs. inversion_clear Hs as [|? ? _ Hhd].
  inversion_clear Hhd as [|? ? Hlt _]. simpl in Hlt. lra.
Qed.

Lemma sampling_pair :
  _homogeneous_poisson_sampling lam_hawkes unit_interval unit_square draws_pair
  = Ok (mk_array2 3 [early_row; late_row]).
Proof. unfold lam_hawkes, unit_interval, unit_square, draws_pair. sample. Qed.

Lemma late_excitation_bounds : 0 < late_excitation <= 1.
Proof.
  unfold late_excitation. split.
  - apply std_value_pos; simpl; lra.
  - eapply Rle_trans; [apply std_value_le; simpl; lra|]. simpl.
    assert (Hpi := PI2_1).
    unfold Rdiv. rewrite Rmult_1_l, <- Rinv_1.
    apply Rinv_le_contravar; lra.
Qed.

Lemma value_late :
  lam_value_at lam_hawkes (mk_array2 3 [early_row; late_row])
    (mk_array2 3 [early_row]) late_row = Ok (1 + (0 + late_excitation)).
Proof. reflexivity. Qed.

Lemma thinning_pair :
  _inhomogeneous_poisson_thinning lam_hawkes (mk_array2 3 [early_row; late_row])
    false draws_pair
  = ([], Ok (Some (mk_array2 3 [early_row; late_row]))).
Proof.
  assert (Hb := late_excitation_bounds).
  unfold _inhomogeneous_poisson_thinning, start_log. cbn [rows ncols].
  quiet_step. real_decide.
  cbn [thinning_loop append_row empty rows ncols app].
  rewrite (thinning_body_quiet lam_hawkes _ _ _ _ _ _ _ value_late);
    [|simpl; lra].
  cbn [upper_bound Intensity_HawkesLam HawkesLam_upper_bound lam_maximum
       uniform_D]. rewrite uniform_unit.
  real_decide. reflexivity.
Qed.

Lemma generate_pair :
  generate lam_hawkes unit_interval unit_square 1 2 false [draws_pair] =
  ([MsgGenerated 1],
   Returned (mk_array3 (1, 2, 3)%nat [[early_row; late_row]], [2%nat])).
Proof.
  unfold generate. cbn [generate_loop gen_start gen_b Z.ltb Z.compare].
  unfold generate_body. rewrite sampling_pair, thinning_pair. reflexivity.
Qed.



Lemma value_over :
  lam_value_at lam_over (mk_array2 3 [origin_row]) (empty 3) origin_row = Ok 2.
Proof. reflexivity. Qed.



(** ** The specification on concrete inputs *)




Lemma pair_strictly_ascending : strictly_ascending [early_row; late_row].
Proof.
  unfold strictly_ascending.
  repeat constructor. unfold time_of, early_row, late_row. simpl. lra.
Qed.


(** C2 fails on the code: the batch returned holds a sequence of two events
    of the same time 1/2. *)
Lemma equal_times_are_recorded :
  generate lam_tight unit_interval unit_square 1 2 false [draws_tie] =
  ([MsgGenerated 1],
   Returned (mk_array3 (1, 2, 3)%nat [[tie_row; tie_row]], [2%nat])) /\
  ~ strictly_ascending [tie_row; tie_row].
Proof. split; [exact generate_tie | exact tie_not_strict]. Qed.

Lemma generate_loop_pair :
  generate_loop lam_hawkes unit_interval unit_square 1 2 false [draws_pair]
    gen_start [] =
  ([MsgGenerated 1],
   Returned (mk_gen [mk_array2 3 [early_row; late_row]] [2%nat] 2 1)).
Proof.
  cbn [generate_loop gen_start gen_b Z.ltb Z.compare].
  unfold generate_body. rewrite sampling_pair, thinning_pair. reflexivity.
Qed.

Lemma recorded_sequences_ascending_and_bounded_witness :
  generate lam_hawkes unit_interval unit_square 1 2 false [draws_pair] =
  ([MsgGenerated 1],
   Returned (mk_array3 (1, 2, 3)%nat [[early_row; late_row]], [2%nat])) /\
  ascending [early_row; late_row] /\
  strictly_ascending [early_row; late_row] /\
  exists retained log v,
    reaches lam_hawkes (mk_array2 3 [early_row; late_row]) false draws_pair
      [early_row] retained log /\
    Forall (fun r => time_of r < time_of late_row) (rows retained) /\
    lam_value_at lam_hawkes (mk_array2 3 [early_row; late_row]) retained
      late_row = Ok v /\
    v <= upper_bound lam_hawkes.
Proof.
  split; [exact generate_pair|].
  destruct (recorded_sequences_ascending_and_bounded lam_hawkes _ _ _ _ _ _ _
              _ _ generate_pair) as (st & El & _ & Hall).
  rewrite generate_loop_pair in El. injection El as <-.
  cbn [points_list] in Hall. inversion_clear Hall as [|? ? Hp _].
  destruct Hp as (Hasc & d & homo & out & Hd & Eh & _ & Hb).
  split; [exact Hasc|]. split; [exact pair_strictly_ascending|].
  destruct Hd as [<-|[]]. rewrite sampling_pair in Eh. injection Eh as <-.
  exact (Hb pair_strictly_ascending [early_row] late_row [] eq_refl).
Defined.


(** C5 on regions that do not have two space dimensions.  The last
    dimension of the batch is the constant 3, not [1 + len(S)].  For three
    space dimensions an empty batch is returned with shape (0, 0, 3), and a
    batch of one sequence is not returned at all, since the copy of its rows
    of four entries raises [ValueError].  For no space dimension the time of
    an event is copied into the three entries of its row. *)
Theorem batch_width_ignores_region {L : Type} `{Intensity L} (lam : L)
    (min_n_points : Z) (verbose : bool) (ds : list draws) :
  generate lam unit_interval unit_cube 0 min_n_points verbose ds =
    ([], Returned (mk_array3 (0, 0, 3)%nat [], [])) /\
  3%nat <> (1 + length unit_cube)%nat /\
  generate lam_hawkes unit_interval unit_cube 1 1 false [draws_one] =
    ([MsgGenerated 1], Raised ValueError) /\
  generate lam_hawkes unit_interval [] 1 1 false [draws_half] =
    ([MsgGenerated 1],
     Returned (mk_array3 (1, 1, 3)%nat [[[/ 2; / 2; / 2]]], [1%nat])).
Proof.
  split; [|split; [|split]].
  - unfold generate. destruct ds; reflexivity.
  - simpl. lia.
  - assert (Es : _homogeneous_poisson_sampling lam_hawkes unit_interval unit_cube
                   draws_one = Ok (mk_array2 4 [[0; 0; 0; 0]])).
    { unfold lam_hawkes, unit_interval, unit_cube, draws_one. sample. }
    assert (Et : _inhomogeneous_poisson_thinning lam_hawkes
                   (mk_array2 4 [[0; 0; 0; 0]]) false draws_one =
                 ([], Ok (Some (mk_array2 4 [[0; 0; 0; 0]])))).
    { unfold _inhomogeneous_poisson_thinning, start_log. cbn [rows ncols].
      quiet_step. real_decide. reflexivity. }
    unfold generate. cbn [generate_loop gen_start gen_b Z.ltb Z.compare].
    unfold generate_body. rewrite Es, Et. reflexivity.
  - assert (Es : _homogeneous_poisson_sampling lam_hawkes unit_interval []
                   draws_half = Ok (mk_array2 1 [[/ 2]])).
    { unfold lam_hawkes, unit_interval, draws_half. sample. }
    assert (Et : _inhomogeneous_poisson_thinning lam_hawkes
                   (mk_array2 1 [[/ 2]]) false draws_half =
                 ([], Ok (Some (mk_array2 1 [[/ 2]])))).
    { unfold _inhomogeneous_poisson_thinning, start_log. cbn [rows ncols].
      quiet_step. real_decide. reflexivity. }
    unfold generate. cbn [generate_loop gen_start gen_b Z.ltb Z.compare].
    unfold generate_body. rewrite Es, Et. reflexivity.
Qed.

(** For a region of two space dimensions the batch has the shape and the
    padding of the specification. *)
Lemma generate_two_dimensions {L : Type} `{Intensity L} (lam : L)
    (T : interval) (S : list interval) (batch_size min_n_points : Z)
    (verbose : bool) (ds : list draws) (log : list msg) (data : array3)
    (szs : list nat) :
  length S = 2%nat ->
  generate lam T S batch_size min_n_points verbose ds
    = (log, Returned (data, szs)) ->
  shape3 data = (Z.to_nat batch_size, list_max szs, (1 + length S)%nat) /\
  length (slabs data) = Z.to_nat batch_size /\
  length szs = Z.to_nat batch_size /\
  forall b i,
    (b < length szs)%nat -> (nth b szs 0 <= i < list_max szs)%nat ->
    nth i (nth b (slabs data) []) [] = repeat 0 (1 + length S).
Proof.
  intros HS E. apply generate_returns_recorded in E.
  destruct E as (pl & _ & Hs & Hlen & Hdata). specialize (Hdata HS).
  subst data szs. cbn [shape3 slabs]. rewrite HS, !length_map.
  repeat split; trivial.
  intros b i Hb Hi.
  rewrite (nth_indep _ [] (padded (list_max (map nrows pl)) (empty 0)))
    by (rewrite length_map; exact Hb).
  rewrite map_nth. unfold padded.
  rewrite (nth_indep _ 0%nat (nrows (empty 0))) in Hi
    by (rewrite length_map; exact Hb).
  rewrite map_nth in Hi.
  rewrite app_nth2 by (unfold nrows in Hi; lia).
  apply nth_repeat_lt. unfold nrows in *. lia.
Qed.

Lemma nu_nonnegative_witness :
  variant_valid (Mixture (mk_gmdk [mk_gdk 1 1 0 0 1 1 0] 1 [2])) /\
  past 1 [0] /\
  nu (Mixture (mk_gmdk [mk_gdk 1 1 0 0 1 1 0] 1 [2])) 1 [1; 1] [0] one_event =
    Ok (Array [0 + 2 * gaussian_val (mk_gdk 1 1 0 0 1 1 0)
                          (1 - 0) (1 - 0) (1 - 0)]) /\
  nonneg (Array [0 + 2 * gaussian_val (mk_gdk 1 1 0 0 1 1 0)
                          (1 - 0) (1 - 0) (1 - 0)]).
Proof.
  assert (Hv : variant_valid (Mixture (mk_gmdk [mk_gdk 1 1 0 0 1 1 0] 1 [2]))).
  { split.
    - constructor; [|constructor]. unfold gdk_valid. simpl. lra.
    - constructor; [lra|constructor]. }
  assert (Hp : past 1 [0]) by (constructor; [lra|constructor]).
  assert (Hn : nu (Mixture (mk_gmdk [mk_gdk 1 1 0 0 1 1 0] 1 [2]))
                 1 [1; 1] [0] one_event =
               Ok (Array [0 + 2 * gaussian_val (mk_gdk 1 1 0 0 1 1 0)
                                     (1 - 0) (1 - 0) (1 - 0)]))
    by reflexivity.
  split; [exact Hv|]. split; [exact Hp|]. split; [exact Hn|].
  exact (nu_nonnegative _ _ _ _ _ _ Hv Hp Hn).
Defined.

Lemma anisotropic_degenerates_to_isotropic_witness :
  past 1 [0] /\
  StdDiffusionKernel_init 1 2 3 4 = Ok (mk_std 1 2 3 4) /\
  GaussianDiffusionKernel_init 0 0 3 4 0 2 1 = Ok (mk_gdk 1 2 0 0 3 4 0) /\
  nu (mk_std 1 2 3 4) 1 [1; 1] [0] one_event =
  nu (mk_gdk 1 2 0 0 3 4 0) 1 [1; 1] [0] one_event.
Proof.
  assert (Hp : past 1 [0]) by (constructor; [lra|constructor]).
  split; [exact Hp|]. split; [reflexivity|]. split; [reflexivity|].
  exact (anisotropic_degenerates_to_isotropic 1 2 3 4 _ _ 1 [1; 1] [0] one_event
           Hp eq_refl eq_refl).
Defined.

Lemma spatial_variant_degenerates_to_anisotropic_witness :
  -1 < / 2 < 1 /\ 0 < 3 /\ 0 < 4 /\ past 1 [0] /\
  length [1; 1] = ncols one_event /\
  nu (mk_svgdk 1 2 (constant_fn 5) (constant_fn 6) (constant_fn 3)
        (constant_fn 4) (constant_fn (/ 2))) 1 [1; 1] [0] one_event =
  nu (mk_gdk 1 2 5 6 3 4 (/ 2)) 1 [1; 1] [0] one_event.
Proof.
  assert (Hr : -1 < / 2 < 1) by lra.
  assert (Hx : 0 < 3) by lra.
  assert (Hy : 0 < 4) by lra.
  assert (Hp : past 1 [0]) by (constructor; [lra|constructor]).
  split; [exact Hr|]. split; [exact Hx|]. split; [exact Hy|].
  split; [exact Hp|]. split; [reflexivity|].
  exact (spatial_variant_degenerates_to_anisotropic 5 6 3 4 (/ 2) 2 1 _ _
           1 [1; 1] [0] one_event Hr Hx Hy Hp eq_refl eq_refl eq_refl).
Defined.

Lemma mixture_is_weighted_sum_witness :
  GaussianMixtureDiffusionKernel_init 2 [1; 2] [0; 5] [0; 6] [1; 3] [1; 4]
    [0; / 2] 1 1 =
  Ok (mk_gmdk [mk_gdk 1 1 0 0 1 1 0; mk_gdk 1 1 5 6 3 4 (/ 2)] 2 [1; 2]) /\
  nu (mk_gmdk [mk_gdk 1 1 0 0 1 1 0; mk_gdk 1 1 5 6 3 4 (/ 2)] 2 [1; 2])
    1 [1; 1] [0] one_event =
  Ok (weighted_sum 2 [1; 2]
        [[gaussian_val (mk_gdk 1 1 0 0 1 1 0) (1 - 0) (1 - 0) (1 - 0)];
         [gaussian_val (mk_gdk 1 1 5 6 3 4 (/ 2)) (1 - 0) (1 - 0) (1 - 0)]]).
Proof.
  split; [reflexivity|].
  refine (proj1 (mixture_is_weighted_sum 2 [1; 2] [0; 5] [0; 6] [1; 3] [1; 4]
                   [0; / 2] 1 1 _ 1 [1; 1] [0] one_event eq_refl) _ _ _).
  - simpl. lia.
  - repeat constructor.
Defined.

(** * Further properties of the code *)

(** ** Kernels and intensity *)

Lemma variant_nu_nonneg (k : kernel_variant) t s his_t his_s v :
  variant_valid k -> past t his_t ->
  variant_nu k t s his_t his_s = Ok v -> nonneg v.
Proof.
  intros Hk Hp E. destruct k as [k|k|k|k|k]; simpl in Hk, E.
  - eapply std_nu_nonneg; eauto.
  - eapply gaussian_nu_nonneg; eauto.
  - destruct Hk as [Hg Hw].
    eapply (mixture_nu_nonneg gdk_valid); eauto.
    intros g o Hv Ho. eapply gaussian_nu_nonneg; eauto.
  - eapply sv_nu_nonneg; eauto.
  - destruct Hk as [Hg Hw].
    eapply (mixture_nu_nonneg sv_valid); eauto.
    intros g o Hv Ho. eapply sv_nu_nonneg; eauto.
Qed.

Lemma fold_left_Rplus_acc (l : list R) (a : R) :
  fold_left Rplus l a = a + fold_left Rplus l 0.
Proof.
  revert a. induction l as [|x l IH]; intros a; simpl; [lra|].
  rewrite (IH (a + x)), (IH (0 + x)). lra.
Qed.

Lemma sum_list_cons (x : R) (l : list R) : sum_list (x :: l) = x + sum_list l.
Proof.
  unfold sum_list. simpl. rewrite fold_left_Rplus_acc. lra.
Qed.

Lemma sum_list_nonneg (l : list R) : Forall (Rle 0) l -> 0 <= sum_list l.
Proof.
  induction 1 as [|x l Hx _ IH]; [unfold sum_list; simpl; lra|].
  rewrite sum_list_cons. lra.
Qed.

Lemma sum_nonneg (v : ndvalue) : nonneg v -> 0 <= Np.sum v.
Proof.
  unfold nonneg. destruct v as [x|l]; simpl; intros Hv.
  - inversion_clear Hv. assumption.
  - apply sum_list_nonneg, Hv.
Qed.

(** X1. The intensity of a Hawkes model with a valid kernel is never below
    its background rate, at a time after all the events of the history. *)
Theorem value_at_least_background (k : kernel_variant) (mu maximum : R)
    (t : R) (his_t : list R) (s : list R) (his_s : array2) (v : R) :
  variant_valid k -> past t his_t ->
  value (mk_lam mu k maximum) t his_t s his_s = Ok v ->
  mu <= v.
Proof.
  intros Hk Hp. simpl. unfold HawkesLam_value. simpl.
  destruct (0 <? length his_t)%nat.
  - intros E. apply bind_Ok in E. destruct E as [o [Ho E]].
    injection E as <-.
    assert (Hs := sum_nonneg o (variant_nu_nonneg _ _ _ _ _ _ Hk Hp Ho)). lra.
  - intros [= <-]. lra.
Qed.

Lemma value_at_least_background_witness :
  variant_valid (Isotropic (mk_std 1 1 1 1)) /\
  past (3 / 4) [/ 4] /\
  value (mk_lam 1 (Isotropic (mk_std 1 1 1 1)) 2) (3 / 4) [/ 4] [3 / 4; 3 / 4]
    (mk_array2 2 [[/ 4; / 4]]) = Ok (1 + (0 + late_excitation)) /\
  1 <= 1 + (0 + late_excitation).
Proof.
  assert (Hk : variant_valid (Isotropic (mk_std 1 1 1 1)))
    by (simpl; unfold std_valid; simpl; lra).
  assert (Hp : past (3 / 4) [/ 4]) by (constructor; [lra|constructor]).
  assert (Hv : value (mk_lam 1 (Isotropic (mk_std 1 1 1 1)) 2) (3 / 4) [/ 4]
                 [3 / 4; 3 / 4] (mk_array2 2 [[/ 4; / 4]])
               = Ok (1 + (0 + late_excitation))) by reflexivity.
  split; [exact Hk|]. split; [exact Hp|]. split; [exact Hv|].
  exact (value_at_least_background _ 1 2 _ _ _ _ _ Hk Hp Hv).
Defined.

Lemma bget_nth (v : list R) (j : nat) :
  (j < length v)%nat -> bget (length v) v j = nth j v 0.
Proof.
  intros Hj. unfold bget, stretch. destruct v as [|x [|y v]]; trivial.
Qed.

Lemma planar_dims (s : list R) (his_t : list R) (his_s : array2) :
  planar s his_t his_s ->
  exists delta_s delta_x delta_y,
    sub_rows s his_s = Ok delta_s /\
    column 0 delta_s = Ok delta_x /\
    column 1 delta_s = Ok delta_y /\
    forall t,
      bdims 1 [length (scalar_sub t his_t); length delta_x; length delta_y]
      = Ok (length his_t).
Proof. intros (Hs & Hc & Ht). apply plain_dims; assumption. Qed.

Lemma std_nu_planar (k : StdDiffusionKernel) t s his_t his_s :
  planar s his_t his_s ->
  exists delta_x delta_y,
    StdDiffusionKernel_nu k t s his_t his_s =
    Ok (Array (elementwise (length his_t) (fun j =>
          std_value k (t - nth j his_t 0)
            (bget (length his_t) delta_x j) (bget (length his_t) delta_y j)))).
Proof.
  intros Hpl.
  destruct (planar_dims s his_t his_s Hpl)
    as (delta_s & delta_x & delta_y & E1 & E2 & E3 & E4).
  exists delta_x, delta_y. unfold StdDiffusionKernel_nu.
  rewrite E1; cbn [bind]; rewrite E2; cbn [bind]; rewrite E3; cbn [bind].
  rewrite E4; cbn [bind]. do 2 f_equal. apply elementwise_ext. intros j Hj.
  f_equal. replace (length his_t) with (length (scalar_sub t his_t))
    by (unfold scalar_sub; apply length_map).
  rewrite bget_nth by (unfold scalar_sub; rewrite length_map; exact Hj).
  unfold scalar_sub. apply nth_map_lt. exact Hj.
Qed.

Lemma gaussian_nu_planar (k : GaussianDiffusionKernel) t s his_t his_s :
  planar s his_t his_s ->
  exists delta_x delta_y,
    GaussianDiffusionKernel_nu k t s his_t his_s =
    Ok (Array (elementwise (length his_t) (fun j =>
          gaussian_val k (t - nth j his_t 0)
            (bget (length his_t) delta_x j) (bget (length his_t) delta_y j)))).
Proof.
  intros Hpl.
  destruct (planar_dims s his_t his_s Hpl)
    as (delta_s & delta_x & delta_y & E1 & E2 & E3 & E4).
  exists delta_x, delta_y. unfold GaussianDiffusionKernel_nu.
  rewrite E1; cbn [bind]; rewrite E2; cbn [bind]; rewrite E3; cbn [bind].
  rewrite E4; cbn [bind]. do 2 f_equal. apply elementwise_ext. intros j Hj.
  f_equal. replace (length his_t) with (length (scalar_sub t his_t))
    by (unfold scalar_sub; apply length_map).
  rewrite bget_nth by (unfold scalar_sub; rewrite length_map; exact Hj).
  unfold scalar_sub. apply nth_map_lt. exact Hj.
Qed.

Lemma past_nth (t : R) (his_t : list R) (j : nat) :
  past t his_t -> (j < length his_t)%nat -> 0 < t - nth j his_t 0.
Proof.
  unfold past. intros Hp Hj. rewrite Forall_forall in Hp.
  apply Hp, nth_In, Hj.
Qed.

(** X2. On a location of two coordinates and a history of two-coordinate
    locations after which [t] lies, the isotropic kernel returns one value
    for each event, not negative and at most
    [C / (2 pi sigma_x sigma_y (t - his_t[j]))] when the decay rate is not
    negative. *)
Theorem isotropic_values_bounded (k : StdDiffusionKernel)
    (t : R) (s : list R) (his_t : list R) (his_s : array2) :
  std_valid k -> 0 <= std_beta k -> past t his_t -> planar s his_t his_s ->
  exists v,
    nu k t s his_t his_s = Ok (Array v) /\
    length v = length his_t /\
    forall j, (j < length his_t)%nat ->
      0 <= nth j v 0 <=
      std_C k / (2 * PI * std_sigma_x k * std_sigma_y k * (t - nth j his_t 0)).
Proof.
  intros (HC & Hx & Hy) Hb Hp Hpl.
  destruct (std_nu_planar k t s his_t his_s Hpl) as (dx & dy & E).
  eexists. split; [exact E|]. split; [apply elementwise_length|].
  intros j Hj. rewrite nth_elementwise by exact Hj.
  assert (Hdt := past_nth t his_t j Hp Hj). split.
  - left. apply std_value_pos; assumption.
  - apply std_value_le; assumption.
Qed.

Lemma isotropic_values_bounded_witness :
  std_valid (mk_std 1 1 1 1) /\ 0 <= std_beta (mk_std 1 1 1 1) /\
  past 1 [0; / 2] /\
  planar [1; 1] [0; / 2] (mk_array2 2 [[0; 0]; [1; 1]]) /\
  exists v,
    nu (mk_std 1 1 1 1) 1 [1; 1] [0; / 2] (mk_array2 2 [[0; 0]; [1; 1]])
      = Ok (Array v) /\
    length v = 2%nat /\
    forall j, (j < 2)%nat ->
      0 <= nth j v 0 <= 1 / (2 * PI * 1 * 1 * (1 - nth j [0; / 2] 0)).
Proof.
  assert (Hk : std_valid (mk_std 1 1 1 1)) by (unfold std_valid; simpl; lra).
  assert (Hb : 0 <= std_beta (mk_std 1 1 1 1)) by (simpl; lra).
  assert (Hp : past 1 [0; / 2])
    by (repeat constructor; lra).
  assert (Hpl : planar [1; 1] [0; / 2] (mk_array2 2 [[0; 0]; [1; 1]]))
    by (repeat split).
  split; [exact Hk|]. split; [exact Hb|]. split; [exact Hp|].
  split; [exact Hpl|].
  exact (isotropic_values_bounded _ _ _ _ _ Hk Hb Hp Hpl).
Defined.

Lemma sum_list_le (B : R) (l : list R) :
  Forall (fun x => x <= B) l -> sum_list l <= INR (length l) * B.
Proof.
  induction 1 as [|x l Hx _ IH].
  - unfold sum_list. simpl. lra.
  - rewrite sum_list_cons. cbn [length]. rewrite S_INR. lra.
Qed.

Lemma isotropic_factor_mono (k : StdDiffusionKernel) (delta dt : R) :
  std_valid k -> 0 < delta -> delta <= dt ->
  std_C k / (2 * PI * std_sigma_x k * std_sigma_y k * dt) <=
  std_C k / (2 * PI * std_sigma_x k * std_sigma_y k * delta).
Proof.
  intros (HC & Hx & Hy) Hd Hle. assert (Hpi := PI_RGT_0).
  unfold Rdiv. apply Rmult_le_compat_l; [lra|].
  assert (Hp : 0 < 2 * PI * std_sigma_x k * std_sigma_y k) by positivity.
  apply Rinv_le_contravar; nra.
Qed.

(** X3. A bound for the declared maximum: with the isotropic kernel of a
    non-negative decay rate, the intensity at a time at least [delta] after
    each of the [n] events of the history lies between [mu] and
    [mu + n C / (2 pi sigma_x sigma_y delta)]. *)
Theorem isotropic_intensity_bounded (k : StdDiffusionKernel)
    (mu maximum delta : R) (t : R) (his_t : list R) (s : list R)
    (his_s : array2) :
  std_valid k -> 0 <= std_beta k -> 0 < delta ->
  Forall (fun h => delta <= t - h) his_t ->
  planar s his_t his_s ->
  exists v,
    value (mk_lam mu k maximum) t his_t s his_s = Ok v /\
    mu <= v <=
    mu + INR (length his_t) *
         (std_C k / (2 * PI * std_sigma_x k * std_sigma_y k * delta)).
Proof.
  intros Hk Hb Hd Hgap Hpl.
  assert (Hp : past t his_t).
  { unfold past. eapply Forall_impl; [|exact Hgap]. simpl. intros; lra. }
  destruct (std_nu_planar k t s his_t his_s Hpl) as (dx & dy & E).
  simpl. unfold HawkesLam_value. simpl.
  destruct his_t as [|h his_t]; simpl Nat.ltb; cbv iota.
  - exists mu. split; [reflexivity|]. simpl. lra.
  - unfold nu, Kernel_Std. rewrite E. cbn [bind Np.sum].
    eexists. split; [reflexivity|].
    set (l := elementwise _ _).
    assert (Hl : length l = length (h :: his_t)) by apply elementwise_length.
    rewrite <- Hl.
    assert (Hpos : Forall (Rle 0) l).
    { apply elementwise_Forall. intros j Hj. left.
      destruct Hk as (HC & Hx & Hy).
      apply std_value_pos; trivial. apply past_nth; trivial. }
    assert (Hup : Forall (fun x => x <=
               std_C k / (2 * PI * std_sigma_x k * std_sigma_y k * delta)) l).
    { apply elementwise_Forall. intros j Hj.
      assert (Hdj : delta <= t - nth j (h :: his_t) 0).
      { rewrite Forall_forall in Hgap. apply Hgap, nth_In, Hj. }
      eapply Rle_trans; [|apply isotropic_factor_mono; eassumption].
      destruct Hk as (HC & Hx & Hy). apply std_value_le; trivial. lra. }
    assert (H0 := sum_list_nonneg l Hpos).
    assert (H1 := sum_list_le _ l Hup). lra.
Qed.

Lemma isotropic_intensity_bounded_witness :
  std_valid (mk_std 1 1 1 1) /\ 0 <= std_beta (mk_std 1 1 1 1) /\ 0 < / 2 /\
  Forall (fun h => / 2 <= 1 - h) [0; / 2] /\
  planar [1; 1] [0; / 2] (mk_array2 2 [[0; 0]; [1; 1]]) /\
  exists v,
    value (mk_lam 1 (mk_std 1 1 1 1) 2) 1 [0; / 2] [1; 1]
      (mk_array2 2 [[0; 0]; [1; 1]]) = Ok v /\
    1 <= v <= 1 + INR 2 * (1 / (2 * PI * 1 * 1 * / 2)).
Proof.
  assert (Hk : std_valid (mk_std 1 1 1 1)) by (unfold std_valid; simpl; lra).
  assert (Hb : 0 <= std_beta (mk_std 1 1 1 1)) by (simpl; lra).
  assert (Hd : 0 < / 2) by lra.
  assert (Hg : Forall (fun h => / 2 <= 1 - h) [0; / 2])
    by (repeat constructor; lra).
  assert (Hpl : planar [1; 1] [0; / 2] (mk_array2 2 [[0; 0]; [1; 1]]))
    by (repeat split).
  split; [exact Hk|]. split; [exact Hb|]. split; [exact Hd|].
  split; [exact Hg|]. split; [exact Hpl|].
  exact (isotropic_intensity_bounded _ 1 2 _ _ _ _ _ Hk Hb Hd Hg Hpl).
Defined.

Lemma narrow_columns (s : list R) (his_s : array2) :
  length s = ncols his_s -> (ncols his_s < 2)%nat ->
  exists delta_s,
    sub_rows s his_s = Ok delta_s /\
    (column 0 delta_s = Raise IndexError \/
     exists delta_x, column 0 delta_s = Ok delta_x /\
                     column 1 delta_s = Raise IndexError).
Proof.
  intros Hs Hc. unfold sub_rows. rewrite Hs.
  unfold bdim. rewrite Nat.eqb_refl. cbn [bind].
  eexists. split; [reflexivity|]. unfold column. cbn [ncols rows].
  destruct (ncols his_s) as [|[|n]]; [left; reflexivity| |lia].
  right. eexists. split; reflexivity.
Qed.

(** X4. The kernels read the first two coordinates of the differences of
    locations: on locations of fewer than two coordinates, as a region of
    one space dimension gives them, the three kernels that are not
    mixtures raise [IndexError], with or without events in the history. *)
Theorem kernels_need_two_coordinates (k1 : StdDiffusionKernel)
    (k2 : GaussianDiffusionKernel) (k3 : SpatialVariantGaussianDiffusionKernel)
    (t : R) (s : list R) (his_t : list R) (his_s : array2) :
  length s = ncols his_s -> (ncols his_s < 2)%nat ->
  nu k1 t s his_t his_s = Raise IndexError /\
  nu k2 t s his_t his_s = Raise IndexError /\
  nu k3 t s his_t his_s = Raise IndexError.
Proof.
  intros Hs Hc.
  destruct (narrow_columns s his_s Hs Hc) as (delta_s & E & [E0|(dx & E0 & E1)]);
    unfold nu, Kernel_Std, Kernel_Gaussian, Kernel_SpatialVariant,
      StdDiffusionKernel_nu, GaussianDiffusionKernel_nu,
      SpatialVariantGaussianDiffusionKernel_nu;
    rewrite E; cbn [bind]; rewrite E0; cbn [bind]; rewrite ?E1; auto.
Qed.

Lemma kernels_need_two_coordinates_witness :
  length [1] = ncols (mk_array2 1 [[0]]) /\
  (ncols (mk_array2 1 [[0%R]]) < 2)%nat /\
  nu (mk_std 1 1 1 1) 1 [1] [0] (mk_array2 1 [[0]]) = Raise IndexError /\
  nu (mk_gdk 1 1 0 0 1 1 0) 1 [1] [0] (mk_array2 1 [[0]]) = Raise IndexError /\
  nu (mk_svgdk 1 1 (constant_fn 0) (constant_fn 0) (constant_fn 1)
        (constant_fn 1) (constant_fn 0)) 1 [1] [0] (mk_array2 1 [[0]])
    = Raise IndexError.
Proof.
  assert (Hs : length [1] = ncols (mk_array2 1 [[0]])) by reflexivity.
  assert (Hc : (ncols (mk_array2 1 [[0%R]]) < 2)%nat) by (simpl; lia).
  split; [exact Hs|]. split; [exact Hc|].
  exact (kernels_need_two_coordinates _ _ _ 1 [1] [0] _ Hs Hc).
Defined.

(** ** Mixtures, further *)

Lemma svm_init_loop (f_mu_x f_mu_y f_sigma_x f_sigma_y f_rho : list location_fn)
    (beta C : R) :
  forall n a gdks r,
    for_each (seq a n)
      (fun k gdks =>
         mx <- getitem f_mu_x k ;;
         my <- getitem f_mu_y k ;;
         sx <- getitem f_sigma_x k ;;
         sy <- getitem f_sigma_y k ;;
         r <- getitem f_rho k ;;
         gdk <- SpatialVariantGaussianDiffusionKernel_init mx my sx sy r beta C ;;
         Ok (gdks ++ [gdk])) gdks = Ok r ->
    r = gdks ++ map (svm_component f_mu_x f_mu_y f_sigma_x f_sigma_y f_rho beta C)
                  (seq a n).
Proof.
  induction n as [|n IH]; simpl; intros a gdks r E.
  - injection E as <-. symmetry. apply app_nil_r.
  - apply bind_Ok in E. destruct E as [gdks' [Hb E]].
    apply IH in E. subst r.
    apply bind_Ok in Hb. destruct Hb as [mx [Hmx Hb]].
    apply bind_Ok in Hb. destruct Hb as [my [Hmy Hb]].
    apply bind_Ok in Hb. destruct Hb as [sx [Hsx Hb]].
    apply bind_Ok in Hb. destruct Hb as [sy [Hsy Hb]].
    apply bind_Ok in Hb. destruct Hb as [rh [Hrh Hb]].
    simpl in Hb. injection Hb as <-.
    apply (getitem_Ok _ _ _ (constant_fn 0)) in Hmx, Hmy, Hsx, Hsy, Hrh.
    destruct Hmx as [_ <-], Hmy as [_ <-], Hsx as [_ <-], Hsy as [_ <-],
      Hrh as [_ <-].
    rewrite <- app_assoc. reflexivity.
Qed.

Lemma svm_init_Ok (n_comp : Z) (w : list R)
    (f_mu_x f_mu_y f_sigma_x f_sigma_y f_rho : list location_fn) (beta C : R)
    (M : SpatialVariantGaussianMixtureDiffusionKernel) :
  SpatialVariantGaussianMixtureDiffusionKernel_init n_comp w
    f_mu_x f_mu_y f_sigma_x f_sigma_y f_rho beta C = Ok M ->
  M = mk_svgmdk
        (map (svm_component f_mu_x f_mu_y f_sigma_x f_sigma_y f_rho beta C)
           (range n_comp)) n_comp w.
Proof.
  unfold SpatialVariantGaussianMixtureDiffusionKernel_init. intros E.
  apply bind_Ok in E. destruct E as [gdks [Hl E]].
  injection E as <-. apply svm_init_loop in Hl. subst gdks. reflexivity.
Qed.

(** X5. The spatially variant mixture, once constructed, returns the
    weighted sum of what its components return on the same arguments, when
    these are arrays of one length and there is a weight for each. *)
Theorem spatial_variant_mixture_is_weighted_sum (n_comp : Z) (w : list R)
    (f_mu_x f_mu_y f_sigma_x f_sigma_y f_rho : list location_fn) (beta C : R)
    (M : SpatialVariantGaussianMixtureDiffusionKernel)
    (t : R) (s : list R) (his_t : list R) (his_s : array2)
    (outs : list (list R)) :
  SpatialVariantGaussianMixtureDiffusionKernel_init n_comp w
    f_mu_x f_mu_y f_sigma_x f_sigma_y f_rho beta C = Ok M ->
  (Z.to_nat n_comp <= length w)%nat ->
  Forall2 (fun g o => nu g t s his_t his_s = Ok (Array o)) (svm_gdks M) outs ->
  Forall (fun o => length o = length (hd [] outs)) outs ->
  nu M t s his_t his_s = Ok (weighted_sum (Z.to_nat n_comp) w outs).
Proof.
  intros E Hw Hnu Hlen. apply svm_init_Ok in E. subst M.
  unfold nu at 1. unfold Kernel_SpatialVariantMixture,
    SpatialVariantGaussianMixtureDiffusionKernel_nu, mixture_nu, range,
    weighted_sum.
  cbn [svm_n_comp svm_w svm_gdks] in *.
  apply mixture_loop; trivial.
  rewrite length_map, length_seq. lia.
Qed.

Lemma spatial_variant_mixture_is_weighted_sum_witness :
  SpatialVariantGaussianMixtureDiffusionKernel_init 2 [1; 2]
    [constant_fn 0; constant_fn 5] [constant_fn 0; constant_fn 6]
    [constant_fn 1; constant_fn 3] [constant_fn 1; constant_fn 4]
    [constant_fn 0; constant_fn (/ 2)] 1 1 =
  Ok (mk_svgmdk
        [mk_svgdk 1 1 (constant_fn 0) (constant_fn 0) (constant_fn 1)
           (constant_fn 1) (constant_fn 0);
         mk_svgdk 1 1 (constant_fn 5) (constant_fn 6) (constant_fn 3)
           (constant_fn 4) (constant_fn (/ 2))] 2 [1; 2]) /\
  nu (mk_svgmdk
        [mk_svgdk 1 1 (constant_fn 0) (constant_fn 0) (constant_fn 1)
           (constant_fn 1) (constant_fn 0);
         mk_svgdk 1 1 (constant_fn 5) (constant_fn 6) (constant_fn 3)
           (constant_fn 4) (constant_fn (/ 2))] 2 [1; 2])
    1 [1; 1] [0] one_event =
  Ok (weighted_sum 2 [1; 2]
        [[gaussian_val (mk_gdk 1 1 0 0 1 1 0) (1 - 0) (1 - 0) (1 - 0)];
         [gaussian_val (mk_gdk 1 1 5 6 3 4 (/ 2)) (1 - 0) (1 - 0) (1 - 0)]]).
Proof.
  split; [reflexivity|].
  refine (spatial_variant_mixture_is_weighted_sum 2 [1; 2]
            [constant_fn 0; constant_fn 5] [constant_fn 0; constant_fn 6]
            [constant_fn 1; constant_fn 3] [constant_fn 1; constant_fn 4]
            [constant_fn 0; constant_fn (/ 2)] 1 1 _ 1 [1; 1] [0] one_event
            _ eq_refl _ _ _).
  - simpl. lia.
  - repeat constructor.
  - repeat constructor.
Defined.

Lemma components_outputs (gdks : list GaussianDiffusionKernel)
    t s his_t his_s :
  planar s his_t his_s ->
  exists outs,
    Forall2 (fun g o => nu g t s his_t his_s = Ok (Array o)) gdks outs /\
    Forall (fun o => length o = length his_t) outs.
Proof.
  intros Hpl. induction gdks as [|g gdks (outs & HF & HL)].
  - exists []. split; constructor.
  - destruct (gaussian_nu_planar g t s his_t his_s Hpl) as (dx & dy & E).
    match type of E with _ = Ok (Array ?o) => exists (o :: outs) end.
    split; constructor; trivial.
    apply elementwise_length.
Qed.

Lemma for_each_raise {A S : Type} (body : A -> S -> outcome S) (a : A)
    (l : list A) (s : S) (e : exn) :
  body a s = Raise e -> for_each (a :: l) body s = Raise e.
Proof. intros E. simpl. rewrite E. reflexivity. Qed.

(** X6. The constructor of the mixture does not look at the weights: with
    fewer weights than components it succeeds, and it is [nu] that raises
    [IndexError], on any well-formed input. *)
Theorem short_weights_raise_in_nu (n_comp : Z)
    (w mu_x mu_y sigma_x sigma_y rho : list R) (beta C : R)
    (M : GaussianMixtureDiffusionKernel)
    (t : R) (s : list R) (his_t : list R) (his_s : array2) :
  GaussianMixtureDiffusionKernel_init n_comp w mu_x mu_y sigma_x sigma_y rho beta C
    = Ok M ->
  (length w < Z.to_nat n_comp)%nat ->
  planar s his_t his_s ->
  nu M t s his_t his_s = Raise IndexError.
Proof.
  intros E Hw Hpl. apply gm_init_Ok in E. subst M.
  rewrite gm_nu_unfold. unfold mixture_nu, range.
  cbn [gm_n_comp gm_w gm_gdks].
  set (gdks := map _ (seq 0 (Z.to_nat n_comp))).
  assert (Hg : length gdks = Z.to_nat n_comp)
    by (unfold gdks; rewrite length_map, length_seq; reflexivity).
  destruct (components_outputs gdks t s his_t his_s Hpl) as (outs & HF & HL).
  replace (Z.to_nat n_comp)
    with (length w + S (Z.to_nat n_comp - S (length w)))%nat at 1 by lia.
  rewrite seq_app, for_each_app.
  rewrite (mixture_loop w gdks t s his_t his_s outs (length his_t) HF HL)
    by lia.
  cbn [bind Nat.add seq]. apply for_each_raise.
  rewrite getitem_ge by lia. reflexivity.
Qed.

Lemma short_weights_raise_in_nu_witness :
  GaussianMixtureDiffusionKernel_init 2 [1] [0; 5] [0; 6] [1; 3] [1; 4]
    [0; / 2] 1 1 =
  Ok (mk_gmdk [mk_gdk 1 1 0 0 1 1 0; mk_gdk 1 1 5 6 3 4 (/ 2)] 2 [1]) /\
  (length [1] < Z.to_nat 2)%nat /\
  planar [1; 1] [0] one_event /\
  nu (mk_gmdk [mk_gdk 1 1 0 0 1 1 0; mk_gdk 1 1 5 6 3 4 (/ 2)] 2 [1])
    1 [1; 1] [0] one_event = Raise IndexError.
Proof.
  assert (Hw : (length [1] < Z.to_nat 2)%nat) by (simpl; lia).
  assert (Hpl : planar [1; 1] [0] one_event) by (repeat split).
  split; [reflexivity|]. split; [exact Hw|]. split; [exact Hpl|].
  exact (short_weights_raise_in_nu 2 [1] [0; 5] [0; 6] [1; 3] [1; 4] [0; / 2]
           1 1 _ 1 [1; 1] [0] one_event eq_refl Hw Hpl).
Defined.

(** ** The proposal stage *)

Lemma uniform_in_interval (I : interval) (u : R) :
  fst I <= snd I -> 0 <= u < 1 -> in_interval I (uniform (fst I) (snd I) u).
Proof. unfold in_interval, uniform. intros HI Hu. nra. Qed.

Lemma Forall2_indexed {A : Type} (P : A -> R -> Prop) (d : A) (l : list A) :
  forall (a : nat) (h : nat -> R),
    (forall k, (k < length l)%nat -> P (nth k l d) (h (a + k)%nat)) ->
    Forall2 P l (map h (seq a (length l))).
Proof.
  induction l as [|x l IH]; intros a h Hh; simpl; constructor.
  - specialize (Hh 0%nat). simpl in Hh. rewrite Nat.add_0_r in Hh.
    apply Hh. lia.
  - apply IH. intros k Hk. specialize (Hh (S k)). simpl in Hh.
    rewrite Nat.add_succ_r in Hh. apply Hh. lia.
Qed.

Lemma proposal_in_region (region : list interval) (d : draws) (j : nat) :
  proper region -> unit_draws d -> in_region region (proposal region d j).
Proof.
  intros Hp Hu. unfold in_region, proposal.
  apply (Forall2_indexed in_interval (0, 0) region 0
           (fun i => uniform (fst (nth i region (0, 0)))
                       (snd (nth i region (0, 0))) (uniform_sample d i j))).
  intros k Hk. simpl. apply uniform_in_interval; [|apply Hu].
  unfold proper in Hp. rewrite Forall_forall in Hp. apply Hp, nth_In, Hk.
Qed.

Lemma transpose_rows_proposals (region : list interval) (d : draws) (N : nat) :
  rows (transpose N
          (map (fun i =>
                  let I := nth i region (0, 0) in
                  map (fun j => uniform (fst I) (snd I) (uniform_sample d i j))
                      (seq 0 N))
               (seq 0 (length region)))) =
  map (proposal region d) (seq 0 N).
Proof.
  unfold transpose. cbn [rows]. apply map_ext_in. intros j Hj.
  apply in_seq in Hj. unfold proposal. rewrite map_map.
  apply map_ext. intros i. cbv zeta.
  apply (nth_elementwise N
           (fun j => uniform (fst (nth i region (0, 0)))
                       (snd (nth i region (0, 0))) (uniform_sample d i j))).
  lia.
Qed.

Section ProposalStage.

Context {L : Type} `{Intensity L}.
Variable lam : L.

Lemma sampling_rows (T : interval) (S : list interval) (d : draws)
    (homo_points : array2) :
  _homogeneous_poisson_sampling lam T S d = Ok homo_points ->
  ncols homo_points = (1 + length S)%nat /\
  Permutation (map (proposal (T :: S) d) (seq 0 (poisson_N d)))
    (rows homo_points).
Proof.
  unfold _homogeneous_poisson_sampling.
  destruct (Rlt_dec _ 0); [discriminate|]. intros [= <-]. split.
  - simpl. rewrite length_map, length_seq. reflexivity.
  - rewrite <- transpose_rows_proposals. apply sort_by_time_Permutation.
Qed.

(** X7. The proposal stage returns as many rows as the Poisson count, of
    one time and [len(S)] coordinates each; the rows are the drawn points,
    reordered as wholes, and every one lies in the region [T x S] when the
    bounds of each interval are in order. *)
Theorem proposals_fill_the_region (T : interval) (S : list interval)
    (d : draws) (homo_points : array2) :
  _homogeneous_poisson_sampling lam T S d = Ok homo_points ->
  shape homo_points = (poisson_N d, (1 + length S)%nat) /\
  regular homo_points /\
  Permutation (map (proposal (T :: S) d) (seq 0 (poisson_N d)))
    (rows homo_points) /\
  (proper (T :: S) -> unit_draws d ->
   Forall (in_region (T :: S)) (rows homo_points)).
Proof.
  intros E. destruct (sampling_rows T S d homo_points E) as [Hc Hperm].
  split; [|split; [|split]]; trivial.
  - unfold shape, nrows. rewrite <- (Permutation_length Hperm), Hc.
    rewrite length_map, length_seq. reflexivity.
  - eapply homogeneous_poisson_sampling_regular, E.
  - intros Hp Hu. eapply Permutation_Forall; [exact Hperm|].
    apply Forall_forall. intros row Hrow. apply in_map_iff in Hrow.
    destruct Hrow as [j [<- _]]. apply proposal_in_region; assumption.
Qed.

End ProposalStage.

(** ** The thinning pass, further *)

Lemma subsequence_refl {A : Type} (l : list A) : subsequence l l.
Proof. induction l; constructor; assumption. Qed.

Lemma subsequence_length {A : Type} (l l' : list A) :
  subsequence l l' -> (length l <= length l')%nat.
Proof. induction 1; simpl; lia. Qed.

Lemma subsequence_In {A : Type} (l l' : list A) (x : A) :
  subsequence l l' -> In x l -> In x l'.
Proof.
  induction 1 as [|y l l' _ IH|y l l' _ IH]; simpl; intros Hx; auto.
  destruct Hx as [->|Hx]; auto.
Qed.

Section ThinningFurther.

Context {L : Type} `{Intensity L}.
Variable lam : L.

Lemma thinning_loop_subsequence homo_points verbose d (cands : list (list R)) :
  forall i retained log log' r,
    thinning_loop lam homo_points verbose d i cands retained log
      = (log', Ok (Some r)) ->
    exists kept, rows r = rows retained ++ kept /\ subsequence kept cands.
Proof.
  induction cands as [|row cands IH]; intros i retained log log' r E; simpl in E.
  - injection E as _ <-. exists []. rewrite app_nil_r. split; constructor.
  - destruct (thinning_body lam homo_points verbose d i row retained log)
      as [log1 [[r1|]|e]] eqn:Eb; try discriminate.
    apply thinning_body_Some in Eb. destruct Eb as (v & _ & _ & Hr1).
    apply IH in E. destruct E as (kept & Hrows & Hsub).
    destruct (Rge_dec v (uniform 0 1 (uniform_D d i) * upper_bound lam));
      subst r1.
    + exists (row :: kept). cbn [append_row rows] in Hrows.
      rewrite <- app_assoc in Hrows. split; [exact Hrows|].
      constructor. exact Hsub.
    + exists kept. split; [exact Hrows|]. constructor. exact Hsub.
Qed.

Lemma thinning_subsequence (homo_points : array2) (verbose : bool)
    (d : draws) (log : list msg) (r : array2) :
  _inhomogeneous_poisson_thinning lam homo_points verbose d
    = (log, Ok (Some r)) ->
  subsequence (rows r) (rows homo_points).
Proof.
  intros E. apply thinning_Some in E. destruct E as [log' E].
  unfold reaches in E.
  destruct (thinning_loop_subsequence _ _ _ _ _ _ _ _ _ E) as (kept & Hrows & Hsub).
  simpl in Hrows. rewrite <- Hrows in Hsub. exact Hsub.
Qed.

(** X8. Thinning only removes candidates: the rows it returns are rows of
    the candidates, unchanged and in their order, so no more of them, and of
    the same width. *)
Theorem thinning_only_removes (homo_points : array2) (verbose : bool)
    (d : draws) (log : list msg) (r : array2) :
  _inhomogeneous_poisson_thinning lam homo_points verbose d
    = (log, Ok (Some r)) ->
  subsequence (rows r) (rows homo_points) /\
  ncols r = ncols homo_points /\
  (nrows r <= nrows homo_points)%nat.
Proof.
  intros E. assert (Hsub := thinning_subsequence _ _ _ _ _ E).
  apply thinning_Some in E. destruct E as [log' E].
  apply thinning_loop_Some in E. destruct E as (_ & Hc & _).
  split; [exact Hsub|]. split; [exact Hc|].
  apply subsequence_length, Hsub.
Qed.

Lemma thinning_body_without_progress homo_points verbose d i row retained
    log log' x :
  thinning_body lam homo_points verbose d i row retained log = (log', Ok x) ->
  forall log2, exists log2',
    thinning_body lam homo_points false d i row retained log2 = (log2', Ok x) /\
    match x with
    | Some _ => log2' = log2
    | None => exists v, v > upper_bound lam /\
                        log2' = log2 ++ [MsgViolation v (upper_bound lam)]
    end.
Proof.
  intros E log2. destruct x as [r|].
  - apply thinning_body_Some in E. destruct E as (v & Ev & Hv & ->).
    exists log2. split; [|reflexivity].
    apply thinning_body_quiet; assumption.
  - apply thinning_body_None in E. destruct E as (v & Ev & Hv & _).
    exists (log2 ++ [MsgViolation v (upper_bound lam)]). split.
    + apply thinning_body_violation; assumption.
    + exists v. auto.
Qed.

Lemma thinning_loop_without_progress homo_points verbose d
    (cands : list (list R)) :
  forall i retained log log' x,
    thinning_loop lam homo_points verbose d i cands retained log
      = (log', Ok x) ->
    forall log2, exists log2',
      thinning_loop lam homo_points false d i cands retained log2
        = (log2', Ok x) /\
      match x with
      | Some _ => log2' = log2
      | None => exists v, v > upper_bound lam /\
                          log2' = log2 ++ [MsgViolation v (upper_bound lam)]
      end.
Proof.
  induction cands as [|row cands IH]; intros i retained log log' x E log2;
    simpl in E.
  - injection E as _ <-. exists log2. split; reflexivity.
  - destruct (thinning_body lam homo_points verbose d i row retained log)
      as [log1 [[r1|]|e]] eqn:Eb; try discriminate.
    + destruct (thinning_body_without_progress _ _ _ _ _ _ _ _ _ Eb log2)
        as (l2 & Eq & ->).
      destruct (IH _ _ _ _ _ E log2) as (l3 & El & Hl).
      exists l3. split; [|exact Hl]. simpl. rewrite Eq. exact El.
    + injection E as _ <-.
      destruct (thinning_body_without_progress _ _ _ _ _ _ _ _ _ Eb log2)
        as (l2 & Eq & Hl).
      exists l2. split; [|exact Hl]. simpl. rewrite Eq. reflexivity.
Qed.

(** X9. The progress lines do not change what a pass returns: when a pass
    with [verbose] returns, without raising, the pass without gives the
    same result, and writes nothing but the report of a violation of the
    bound, if there is one. *)
Theorem verbose_changes_the_log_only (homo_points : array2) (verbose : bool)
    (d : draws) (log : list msg) (x : option array2) :
  _inhomogeneous_poisson_thinning lam homo_points verbose d = (log, Ok x) ->
  exists log',
    _inhomogeneous_poisson_thinning lam homo_points false d = (log', Ok x) /\
    match x with
    | Some _ => log' = []
    | None => exists v, v > upper_bound lam /\
                        log' = [MsgViolation v (upper_bound lam)]
    end.
Proof.
  unfold _inhomogeneous_poisson_thinning. intros E.
  destruct (thinning_loop lam homo_points verbose d 0 (rows homo_points)
              (empty (ncols homo_points)) (start_log homo_points verbose))
    as [log1 [[r1|]|e]] eqn:El; try discriminate.
  - injection E as _ <-.
    destruct (thinning_loop_without_progress _ _ _ _ _ _ _ _ _ El
                (start_log homo_points false)) as (l2 & Eq & ->).
    rewrite Eq. exists []. split; reflexivity.
  - injection E as _ <-.
    destruct (thinning_loop_without_progress _ _ _ _ _ _ _ _ _ El
                (start_log homo_points false)) as (l2 & Eq & v & Hv & ->).
    rewrite Eq. eexists. split; [reflexivity|]. exists v. auto.
Qed.

End ThinningFurther.

Section ThinningEdges.

Context {L : Type} `{Intensity L}.
Variable lam : L.

Lemma thinning_body_first homo_points verbose d row retained log v :
  lam_value_at lam homo_points retained row = Ok v ->
  v <= upper_bound lam ->
  thinning_body lam homo_points verbose d 0 row retained log =
  (log, Ok (Some (if Rge_dec v (uniform 0 1 (uniform_D d 0) * upper_bound lam)
                  then append_row retained row else retained))).
Proof.
  intros Ev Hle. unfold thinning_body. rewrite Ev.
  destruct (Rgt_dec v (upper_bound lam)); [lra|].
  cbn [Nat.eqb negb]. rewrite andb_false_r. reflexivity.
Qed.

(** X10. With the progress lines, a pass over two to nine candidates whose
    first two intensities are within the bound does not return: the test
    [i % int(homo_points.shape[0] / 10) == 0] raises [ZeroDivisionError] at
    the second candidate. *)
Theorem progress_line_divides_by_zero (homo_points : array2) (d : draws)
    (r0 r1 : list R) (rest : list (list R)) (v0 v1 : R) :
  rows homo_points = r0 :: r1 :: rest ->
  (nrows homo_points < 10)%nat ->
  lam_value_at lam homo_points (empty (ncols homo_points)) r0 = Ok v0 ->
  v0 <= upper_bound lam ->
  lam_value_at lam homo_points
    (thinned lam homo_points d 0 [r0] (empty (ncols homo_points))) r1 = Ok v1 ->
  v1 <= upper_bound lam ->
  _inhomogeneous_poisson_thinning lam homo_points true d =
  ([MsgHomogeneous (shape homo_points)], Raise ZeroDivisionError).
Proof.
  intros Hrows Hn E0 H0 E1 H1. unfold _inhomogeneous_poisson_thinning.
  rewrite Hrows. cbn [thinning_loop start_log].
  rewrite (thinning_body_first _ _ _ _ _ _ _ E0 H0).
  cbn [thinned] in E1. rewrite E0 in E1.
  rewrite (thinning_body_progress_raises lam _ _ _ _ _ _ _ E1 H1 Hn)
    by discriminate.
  reflexivity.
Qed.

End ThinningEdges.

Section HawkesEdges.

Context {K : Type} `{Kernel K}.
Variable lam : HawkesLam K.

Lemma first_candidate_value (homo_points : array2) (row : list R) :
  (0 < ncols homo_points)%nat ->
  lam_value_at lam homo_points (empty (ncols homo_points)) row
  = Ok (lam_mu lam).
Proof.
  intros Hc. unfold lam_value_at, column, empty. cbn [ncols rows map].
  apply Nat.ltb_lt in Hc. rewrite Hc. reflexivity.
Qed.

(** X11. When the background rate is above the declared maximum, every pass
    over at least one candidate ends at the first one: it reports the
    violation and returns [None], whatever the kernel and the draws. *)
Theorem background_above_maximum_fails (homo_points : array2)
    (verbose : bool) (d : draws) (row : list R) (rest : list (list R)) :
  lam_maximum lam < lam_mu lam ->
  (0 < ncols homo_points)%nat ->
  rows homo_points = row :: rest ->
  _inhomogeneous_poisson_thinning lam homo_points verbose d =
  (start_log homo_points verbose
     ++ [MsgViolation (lam_mu lam) (lam_maximum lam)], Ok None).
Proof.
  intros Hlt Hc Hrows.
  change (lam_maximum lam) with (upper_bound lam).
  apply (thinning_violation lam homo_points verbose d [] row rest
           (empty (ncols homo_points)) (start_log homo_points verbose)
           (lam_mu lam)); trivial.
  - reflexivity.
  - apply first_candidate_value, Hc.
Qed.

Lemma zero_background_loop (homo_points : array2) (d : draws) :
  lam_mu lam = 0 -> 0 < lam_maximum lam -> (0 < ncols homo_points)%nat ->
  forall (cands : list (list R)) (i : nat) (log : list msg),
    (forall k, (k < length cands)%nat -> 0 < uniform_D d (i + k)) ->
    thinning_loop lam homo_points false d i cands
      (empty (ncols homo_points)) log =
    (log, Ok (Some (empty (ncols homo_points)))).
Proof.
  intros Hmu Hmax Hc. induction cands as [|row cands IH]; intros i log HD;
    trivial.
  cbn [thinning_loop].
  rewrite (thinning_body_quiet lam _ _ _ _ _ _ _
             (first_candidate_value homo_points row Hc))
    by (simpl; unfold HawkesLam_upper_bound; lra).
  rewrite uniform_unit. simpl upper_bound. unfold HawkesLam_upper_bound.
  assert (HD0 := HD 0%nat). rewrite Nat.add_0_r in HD0.
  specialize (HD0 ltac:(simpl; lia)).
  destruct (Rge_dec (lam_mu lam) (uniform_D d i * lam_maximum lam)) as [Hge|_];
    [nra|].
  apply IH. intros k Hk. specialize (HD (S k)).
  rewrite Nat.add_succ_r in HD. apply HD. simpl. lia.
Qed.

(** With a background rate of zero no event is ever retained: the first
    candidate is tested with [0 >= D * lam_bar], which fails for a positive
    draw and a positive maximum, and so is every candidate after it. *)
Lemma zero_background_thinning (homo_points : array2) (d : draws) :
  lam_mu lam = 0 -> 0 < lam_maximum lam -> (0 < ncols homo_points)%nat ->
  positive_D (nrows homo_points) d ->
  _inhomogeneous_poisson_thinning lam homo_points false d =
  ([], Ok (Some (empty (ncols homo_points)))).
Proof.
  intros Hmu Hmax Hc HD. unfold _inhomogeneous_poisson_thinning.
  rewrite (zero_background_loop homo_points d Hmu Hmax Hc); [reflexivity|].
  intros k Hk. apply HD. exact Hk.
Qed.

End HawkesEdges.

(** ** generate, further *)

Lemma lebesgue_measure_nonneg (region : list interval) :
  proper region -> 0 <= lebesgue_measure region.
Proof.
  induction 1 as [|I region HI _ IH]; simpl; [lra|].
  apply Rmult_le_pos; lra.
Qed.

Section GenerateEdges.

Context {K : Type} `{Kernel K}.
Variable lam : HawkesLam K.

Lemma zero_background_body (T : interval) (S : list interval)
    (min_n_points : Z) (d : draws) (st : gen_state) (log : list msg) :
  lam_mu lam = 0 -> 0 < lam_maximum lam -> proper (T :: S) ->
  (1 <= min_n_points)%Z -> positive_D (poisson_N d) d ->
  generate_body lam T S min_n_points false d st log = (log, Ok st).
Proof.
  intros Hmu Hmax Hp Hmin HD. unfold generate_body.
  destruct (_homogeneous_poisson_sampling lam T S d) as [homo|e] eqn:Eh.
  - destruct (homogeneous_poisson_sampling_ascending lam T S d homo Eh)
      as (_ & Hc & Hn).
    rewrite (zero_background_thinning lam homo d Hmu Hmax)
      by (rewrite ?Hc, ?Hn; trivial; lia).
    rewrite app_nil_r. cbn [nrows empty rows length].
    destruct (Z.ltb_spec (Z.of_nat 0) min_n_points); [reflexivity|lia].
  - exfalso. unfold _homogeneous_poisson_sampling in Eh.
    destruct (Rlt_dec _ 0) as [Hneg|]; [|discriminate].
    assert (Hm := lebesgue_measure_nonneg (T :: S) Hp).
    simpl in Hneg. unfold HawkesLam_upper_bound in Hneg.
    simpl in Hm. nra.
Qed.

(** X12. With a background rate of zero [generate] cannot fill a batch of
    sequences of at least one event: for a Poisson mean that
    [np.random.poisson] accepts, whatever the number of proposals drawn, as
    long as the acceptance draws are positive, every pass of its loop ends
    with an empty sequence, which is discarded, and the loop goes on. *)
Theorem zero_background_never_fills_batch (T : interval) (S : list interval)
    (batch_size min_n_points : Z) (ds : list draws) :
  lam_mu lam = 0 -> 0 < lam_maximum lam -> proper (T :: S) ->
  moderate_mean (lam_maximum lam * lebesgue_measure (T :: S)) ->
  (0 < batch_size)%Z -> (1 <= min_n_points)%Z ->
  Forall (fun d => positive_D (poisson_N d) d) ds ->
  generate lam T S batch_size min_n_points false ds = ([], Running).
Proof.
  intros Hmu Hmax Hp _ Hb Hmin Hds. unfold generate.
  assert (Hloop : forall log,
             generate_loop lam T S batch_size min_n_points false ds
               gen_start log = (log, Running)).
  { induction Hds as [|d ds Hd _ IH]; intros log; simpl;
      (destruct (Z.ltb_spec 0 batch_size) as [_|Hge]; [|lia]); trivial.
    rewrite (zero_background_body T S min_n_points d gen_start log
               Hmu Hmax Hp Hmin Hd).
    apply IH. }
  rewrite Hloop. reflexivity.
Qed.

End GenerateEdges.

Section GenerateFurther.

Context {L : Type} `{Intensity L}.
Variable lam : L.

(** X13. A negative [batch_size] is refused by [np.zeros]: [generate] raises
    [ValueError] without drawing anything or writing a line. *)
Theorem negative_batch_size_raises (T : interval) (S : list interval)
    (batch_size min_n_points : Z) (verbose : bool) (ds : list draws) :
  (batch_size < 0)%Z ->
  generate lam T S batch_size min_n_points verbose ds = ([], Raised ValueError).
Proof.
  intros Hb. unfold generate.
  assert (El : generate_loop lam T S batch_size min_n_points verbose ds
                 gen_start [] = ([], Returned gen_start)).
  { destruct ds; simpl;
      (destruct (Z.ltb_spec 0 batch_size) as [Hlt|_]; [lia|reflexivity]). }
  rewrite El, (pack_negative _ gen_start Hb). reflexivity.
Qed.

(** X14. The lengths [generate] returns: one for each sequence of the
    batch, none below [min_n_points]. *)
Theorem returned_lengths (T : interval) (S : list interval)
    (batch_size min_n_points : Z) (verbose : bool) (ds : list draws)
    (log : list msg) (data : array3) (szs : list nat) :
  generate lam T S batch_size min_n_points verbose ds
    = (log, Returned (data, szs)) ->
  (0 <= batch_size)%Z /\
  length szs = Z.to_nat batch_size /\
  Forall (fun n => (min_n_points <= Z.of_nat n)%Z) szs.
Proof.
  intros E. split.
  - destruct (Z.lt_ge_cases batch_size 0) as [Hneg|Hge]; [|lia].
    apply generate_Returned in E. destruct E as (st & _ & Ep).
    rewrite (pack_negative _ st Hneg) in Ep. discriminate.
  - apply generate_returns_recorded in E.
    destruct E as (pl & Hacc & -> & Hlen & _). split.
    + rewrite length_map. exact Hlen.
    + apply Forall_map. eapply Forall_impl; [|exact Hacc].
      intros p (d & homo & out & _ & _ & _ & Hmin). exact Hmin.
Qed.

End GenerateFurther.

Lemma subsequence_Forall {A : Type} (P : A -> Prop) (l l' : list A) :
  subsequence l l' -> Forall P l' -> Forall P l.
Proof.
  intros Hsub Hall. apply Forall_forall. intros x Hx.
  rewrite Forall_forall in Hall. eapply Hall, subsequence_In; eauto.
Qed.

Lemma firstn_padded (max_len : nat) (points : array2) :
  firstn (nrows points) (padded max_len points) = rows points.
Proof.
  unfold padded, nrows. rewrite firstn_app, Nat.sub_diag, firstn_all.
  apply app_nil_r.
Qed.

Section BatchContents.

Context {L : Type} `{Intensity L}.
Variable lam : L.

(** X15. What the batch holds, for a region of two space dimensions: the
    first [sizes[b]] rows of [data[b]] are proposals of one pass of the
    loop, whole and in their order, so in ascending order of time and, when
    the bounds of the region are in order, inside the region. *)
Theorem batch_holds_thinned_proposals (T : interval) (S : list interval)
    (batch_size min_n_points : Z) (verbose : bool) (ds : list draws)
    (log : list msg) (data : array3) (szs : list nat) (b : nat) :
  length S = 2%nat ->
  generate lam T S batch_size min_n_points verbose ds
    = (log, Returned (data, szs)) ->
  (b < Z.to_nat batch_size)%nat ->
  exists d homo_points,
    In d ds /\
    _homogeneous_poisson_sampling lam T S d = Ok homo_points /\
    subsequence (firstn (nth b szs 0%nat) (nth b (slabs data) []))
      (rows homo_points) /\
    ascending (firstn (nth b szs 0%nat) (nth b (slabs data) [])) /\
    (proper (T :: S) -> unit_draws d ->
     Forall (in_region (T :: S))
       (firstn (nth b szs 0%nat) (nth b (slabs data) []))).
Proof.
  intros HS E Hb. apply generate_returns_recorded in E.
  destruct E as (pl & Hacc & -> & Hlen & Hdata). specialize (Hdata HS).
  subst data. cbn [slabs].
  rewrite (nth_indep _ [] (padded (list_max (map nrows pl)) (empty 0)))
    by (rewrite length_map; lia).
  rewrite (nth_indep _ 0%nat (nrows (empty 0))) by (rewrite length_map; lia).
  rewrite !map_nth, firstn_padded.
  rewrite Forall_forall in Hacc.
  assert (Hin : In (nth b pl (empty 0)) pl) by (apply nth_In; lia).
  specialize (Hacc _ Hin).
  destruct (accepted_by_shape _ _ _ _ _ _ _ Hacc) as (_ & _ & Hasc).
  destruct Hacc as (d & homo & out & Hd & Eh & Et & _).
  exists d, homo. split; [exact Hd|]. split; [exact Eh|].
  assert (Hsub := thinning_subsequence _ _ _ _ _ _ Et).
  split; [exact Hsub|]. split; [exact Hasc|].
  intros Hp Hu. eapply subsequence_Forall; [exact Hsub|].
  destruct (sampling_rows _ _ _ _ _ Eh) as [_ Hperm].
  eapply Permutation_Forall; [exact Hperm|].
  apply Forall_forall. intros row Hrow. apply in_map_iff in Hrow.
  destruct Hrow as [j [<- _]]. apply proposal_in_region; assumption.
Qed.

End BatchContents.

(** ** The further properties on concrete inputs *)

Lemma unit_draws_pair : unit_draws draws_pair.
Proof. intros i j. simpl. destruct (j =? 0)%nat; lra. Qed.

Lemma proper_unit : proper (unit_interval :: unit_square).
Proof. repeat constructor; simpl; lra. Qed.

Lemma proposals_fill_the_region_witness :
  _homogeneous_poisson_sampling lam_hawkes unit_interval unit_square draws_pair
    = Ok (mk_array2 3 [early_row; late_row]) /\
  proper (unit_interval :: unit_square) /\
  unit_draws draws_pair /\
  shape (mk_array2 3 [early_row; late_row]) = (2, 3)%nat /\
  Forall (in_region (unit_interval :: unit_square)) [early_row; late_row].
Proof.
  assert (Hp := proper_unit). assert (Hu := unit_draws_pair).
  destruct (proposals_fill_the_region lam_hawkes unit_interval unit_square
              draws_pair _ sampling_pair) as (Hs & _ & _ & Hr).
  split; [exact sampling_pair|]. split; [exact Hp|]. split; [exact Hu|].
  split; [exact Hs|]. exact (Hr Hp Hu).
Defined.

Lemma thinning_only_removes_witness :
  _inhomogeneous_poisson_thinning lam_hawkes
    (mk_array2 3 [early_row; late_row]) false draws_pair
    = ([], Ok (Some (mk_array2 3 [early_row; late_row]))) /\
  subsequence [early_row; late_row] [early_row; late_row] /\
  (2 <= 2)%nat.
Proof.
  destruct (thinning_only_removes lam_hawkes _ false draws_pair _ _
              thinning_pair) as (Hs & _ & Hn).
  split; [exact thinning_pair|]. split; [exact Hs|exact Hn].
Defined.

Lemma thinning_over_verbose :
  _inhomogeneous_poisson_thinning lam_over (mk_array2 3 [origin_row]) true
    draws_one
  = ([MsgHomogeneous (1, 3)%nat; MsgViolation 2 1], Ok None).
Proof.
  unfold _inhomogeneous_poisson_thinning, start_log.
  cbn [rows ncols thinning_loop].
  rewrite (thinning_body_violation lam_over _ _ _ _ _ _ _ 2 value_over);
    [reflexivity|]. simpl. lra.
Qed.

Lemma verbose_changes_the_log_only_witness :
  _inhomogeneous_poisson_thinning lam_over (mk_array2 3 [origin_row]) true
    draws_one
  = ([MsgHomogeneous (1, 3)%nat; MsgViolation 2 1], Ok None) /\
  exists log',
    _inhomogeneous_poisson_thinning lam_over (mk_array2 3 [origin_row]) false
      draws_one = (log', Ok None) /\
    exists v, v > 1 /\ log' = [MsgViolation v 1].
Proof.
  split; [exact thinning_over_verbose|].
  exact (verbose_changes_the_log_only lam_over _ true draws_one _ _
           thinning_over_verbose).
Defined.

Lemma background_above_maximum_fails_witness :
  lam_maximum lam_over < lam_mu lam_over /\
  _inhomogeneous_poisson_thinning lam_over (mk_array2 3 [origin_row]) true
    draws_one
  = ([MsgHomogeneous (1, 3)%nat; MsgViolation 2 1], Ok None).
Proof.
  assert (Hlt : lam_maximum lam_over < lam_mu lam_over) by (simpl; lra).
  split; [exact Hlt|].
  exact (background_above_maximum_fails lam_over (mk_array2 3 [origin_row])
           true draws_one origin_row [] Hlt (Nat.lt_0_succ 2) eq_refl).
Defined.

Lemma zero_background_never_fills_batch_witness :
  proper (unit_interval :: unit_square) /\
  moderate_mean (1 * lebesgue_measure (unit_interval :: unit_square)) /\
  Forall (fun d => positive_D (poisson_N d) d) [draws_tie; draws_pair] /\
  generate (mk_lam 0 (mk_std 1 1 1 1) 1) unit_interval unit_square 1 1 false
    [draws_tie; draws_pair] = ([], Running).
Proof.
  assert (Hp := proper_unit).
  assert (Hm : moderate_mean
                 (1 * lebesgue_measure (unit_interval :: unit_square)))
    by (unfold moderate_mean; simpl; lra).
  assert (Hd : Forall (fun d => positive_D (poisson_N d) d)
                 [draws_tie; draws_pair]).
  { repeat constructor; intros i _; simpl; lra. }
  split; [exact Hp|]. split; [exact Hm|]. split; [exact Hd|].
  apply (zero_background_never_fills_batch (mk_lam 0 (mk_std 1 1 1 1) 1));
    trivial; simpl; lra || lia.
Defined.

Lemma negative_batch_size_raises_witness :
  generate lam_tight unit_interval unit_square (-1) 5 true [draws_tie]
  = ([], Raised ValueError).
Proof.
  apply (negative_batch_size_raises lam_tight). lia.
Defined.

Lemma returned_lengths_witness :
  generate lam_hawkes unit_interval unit_square 1 2 false [draws_pair] =
  ([MsgGenerated 1],
   Returned (mk_array3 (1, 2, 3)%nat [[early_row; late_row]], [2%nat])) /\
  length [2%nat] = Z.to_nat 1 /\
  Forall (fun n => (2 <= Z.of_nat n)%Z) [2%nat].
Proof.
  split; [exact generate_pair|].
  exact (proj2 (returned_lengths lam_hawkes _ _ _ _ _ _ _ _ _ generate_pair)).
Defined.

Lemma thinned_tie_first :
  thinned lam_tight (mk_array2 3 [tie_row; tie_row]) draws_tie 0 [tie_row]
    (empty 3) = mk_array2 3 [tie_row].
Proof.
  cbn [thinned].
  assert (E : lam_value_at lam_tight (mk_array2 3 [tie_row; tie_row]) (empty 3)
                tie_row = Ok 1) by reflexivity.
  rewrite E. cbn [upper_bound Intensity_HawkesLam HawkesLam_upper_bound
                  lam_maximum lam_tight uniform_D draws_tie].
  rewrite uniform_unit. real_decide. reflexivity.
Qed.

Lemma progress_line_divides_by_zero_witness :
  (nrows (mk_array2 3 [tie_row; tie_row]) < 10)%nat /\
  lam_value_at lam_tight (mk_array2 3 [tie_row; tie_row]) (empty 3) tie_row
    = Ok 1 /\
  lam_value_at lam_tight (mk_array2 3 [tie_row; tie_row])
    (mk_array2 3 [tie_row]) tie_row = Ok (1 + 0) /\
  _inhomogeneous_poisson_thinning lam_tight (mk_array2 3 [tie_row; tie_row])
    true draws_tie =
  ([MsgHomogeneous (2, 3)%nat], Raise ZeroDivisionError).
Proof.
  assert (Hn : (nrows (mk_array2 3 [tie_row; tie_row]) < 10)%nat)
    by (unfold nrows; simpl; lia).
  assert (E0 : lam_value_at lam_tight (mk_array2 3 [tie_row; tie_row])
                 (empty 3) tie_row = Ok 1) by reflexivity.
  assert (E1 : lam_value_at lam_tight (mk_array2 3 [tie_row; tie_row])
                 (mk_array2 3 [tie_row]) tie_row = Ok (1 + 0)) by reflexivity.
  assert (E1' : lam_value_at lam_tight (mk_array2 3 [tie_row; tie_row])
                  (thinned lam_tight (mk_array2 3 [tie_row; tie_row]) draws_tie
                     0 [tie_row] (empty (ncols (mk_array2 3 [tie_row; tie_row]))))
                  tie_row = Ok (1 + 0)).
  { cbn [ncols]. rewrite thinned_tie_first. exact E1. }
  split; [exact Hn|]. split; [exact E0|]. split; [exact E1|].
  refine (progress_line_divides_by_zero lam_tight
            (mk_array2 3 [tie_row; tie_row]) draws_tie tie_row tie_row [] 1
            (1 + 0) eq_refl Hn E0 _ E1' _); simpl; lra.
Defined.

Lemma batch_holds_thinned_proposals_witness :
  generate lam_hawkes unit_interval unit_square 1 2 false [draws_pair] =
  ([MsgGenerated 1],
   Returned (mk_array3 (1, 2, 3)%nat [[early_row; late_row]], [2%nat])) /\
  ascending [early_row; late_row] /\
  Forall (in_region (unit_interval :: unit_square)) [early_row; late_row].
Proof.
  split; [exact generate_pair|].
  destruct (batch_holds_thinned_proposals lam_hawkes unit_interval unit_square
              1 2 false [draws_pair] _ _ _ 0 eq_refl generate_pair Nat.lt_0_1)
    as (d & homo & Hd & _ & _ & Hasc & Hr).
  split; [exact Hasc|]. apply Hr.
  - repeat constructor; simpl; lra.
  - destruct Hd as [<-|[]]. intros i j. simpl. destruct (j =? 0)%nat; lra.
Defined.

(** ** plot_3d_pointprocess_lam_f *)

Lemma in_history_true (plot_ts : R) (row : list R) :
  in_history plot_ts row = true <-> 0 < time_of row < plot_ts.
Proof.
  unfold in_history.
  destruct (Rlt_dec (time_of row) plot_ts), (Rgt_dec (time_of row) 0);
    simpl; split; intros Hr; try discriminate; trivial; lra.
Qed.

Lemma his_p_Ok (points : array2) (plot_ts : R) (h : array2) :
  his_p points plot_ts = Ok h ->
  (0 < ncols points)%nat /\ ncols h = ncols points /\
  rows h = filter (in_history plot_ts) (rows points).
Proof.
  unfold his_p, column.
  destruct (Nat.ltb_spec 0 (ncols points)); [|discriminate].
  cbn [bind]. intros [= <-]. auto.
Qed.

Lemma his_t_past (points : array2) (plot_ts : R) (h : array2)
    (his_t : list R) :
  his_p points plot_ts = Ok h -> column 0 h = Ok his_t ->
  his_t = map time_of (rows h) /\
  Forall (fun x => 0 < x < plot_ts) his_t.
Proof.
  intros Eh Et. apply his_p_Ok in Eh. destruct Eh as (Hc & Hch & Hrows).
  unfold column in Et. rewrite Hch in Et.
  destruct (Nat.ltb_spec 0 (ncols points)); [|lia].
  injection Et as <-. split; [reflexivity|].
  apply Forall_map. rewrite Hrows. apply Forall_forall. intros r Hr.
  apply filter_In in Hr. apply in_history_true, Hr.
Qed.

Lemma values_over_Forall {L : Type} `{Intensity L} (lam : L) (P : R -> Prop)
    (t : R) (his_t : list R) (his_s : array2) :
  (forall s v, value lam t his_t s his_s = Ok v -> P v) ->
  forall ss vals r,
    values_over lam ss t his_t his_s vals = Ok r ->
    Forall P vals -> Forall P r.
Proof.
  intros HP. unfold values_over.
  induction ss as [|s ss IH]; intros vals r E Hv; cbn [for_each] in E.
  - injection E as <-. exact Hv.
  - apply bind_Ok in E. destruct E as [vals' [E1 E]].
    apply bind_Ok in E1. destruct E1 as [v [Ev E1]]. injection E1 as <-.
    apply (IH _ _ E). apply Forall_app. split; [exact Hv|].
    constructor; [|constructor]. eapply HP, Ev.
Qed.

Lemma values_over_length {L : Type} `{Intensity L} (lam : L)
    (t : R) (his_t : list R) (his_s : array2) :
  forall ss vals r,
    values_over lam ss t his_t his_s vals = Ok r ->
    length r = (length vals + length ss)%nat.
Proof.
  unfold values_over.
  induction ss as [|s ss IH]; intros vals r E; cbn [for_each] in E.
  - injection E as <-. simpl. lia.
  - apply bind_Ok in E. destruct E as [vals' [E1 E]].
    apply bind_Ok in E1. destruct E1 as [v [Ev E1]]. injection E1 as <-.
    rewrite (IH _ _ E), length_app. simpl. lia.
Qed.

Lemma linspace_Ok (start stop : R) (num : Z) (ts : list R) :
  linspace start stop num = Ok ts ->
  (0 <= num)%Z /\ length ts = Z.to_nat num.
Proof.
  unfold linspace. destruct (Z.ltb_spec num 0); [discriminate|].
  intros [= <-]. split; [assumption|].
  destruct (Z.to_nat num) as [|[|n]]; trivial.
  rewrite length_app, length_map, length_seq. simpl. lia.
Qed.

Lemma linspace_tl (start stop : R) (num : Z) (ts : list R) :
  linspace start stop num = Ok ts -> start < stop ->
  Forall (fun t => start < t) (tl ts).
Proof.
  unfold linspace. destruct (Z.ltb_spec num 0); [discriminate|].
  intros [= <-] Hlt.
  destruct (Z.to_nat num) as [|[|n]] eqn:En; cbn [tl]; trivial.
  cbn [seq map app tl]. apply Forall_app. split.
  - apply Forall_map, Forall_forall. intros i Hi. apply in_seq in Hi.
    assert (Hnum : 0 < IZR (num - 1)) by (apply IZR_lt; lia).
    assert (Hi0 : 0 < INR i) by (apply lt_0_INR; lia).
    assert (Hstep : 0 < (stop - start) / IZR (num - 1))
      by (apply Rdiv_lt_0_compat; lra).
    nra.
  - constructor; [exact Hlt|constructor].
Qed.

Lemma fold_left_Rmult_nonneg (l : list R) :
  Forall (Rle 0) l -> forall a, 0 <= a -> 0 <= fold_left Rmult l a.
Proof.
  induction 1 as [|x l Hx _ IH]; intros a Ha; simpl; trivial.
  apply IH. apply Rmult_le_pos; assumption.
Qed.

Lemma last_In {A : Type} (l : list A) (d : A) : l <> [] -> In (last l d) l.
Proof.
  induction l as [|x [|y l] IH]; intros Hl; [congruence|left; reflexivity|].
  right. apply IH. discriminate.
Qed.

Lemma ascending_last (l : list (list R)) :
  ascending l ->
  Forall (fun x => x <= last (map time_of l) 0) (map time_of l).
Proof.
  induction 1 as [|r l Hs IH Hr]; [constructor|].
  destruct l as [|r' l]; [repeat constructor; simpl; lra|].
  constructor; [|exact IH].
  change (time_of r <= last (map time_of (r' :: l)) 0).
  assert (Hin : In (last (map time_of (r' :: l)) 0) (map time_of (r' :: l)))
    by (apply last_In; discriminate).
  apply in_map_iff in Hin. destruct Hin as [r0 [<- Hin]].
  rewrite Forall_forall in Hr. apply Hr, Hin.
Qed.

Lemma chunks_column (c j : nat) :
  (j < c)%nat ->
  forall k v,
    map (fun row => nth j row 0) (chunks c k v) =
    map (fun i => nth (i * c + j) v 0) (seq 0 k).
Proof.
  intros Hj. induction k as [|k IH]; intros v; trivial.
  cbn [chunks map seq]. rewrite nth_firstn.
  destruct (Nat.ltb_spec j c); [|lia]. f_equal.
  rewrite IH, <- seq_shift, map_map. apply map_ext. intros i.
  rewrite nth_skipn. f_equal. lia.
Qed.

Lemma length_chunks (c k : nat) : forall v, length (chunks c k v) = k.
Proof. induction k as [|k IH]; intros v; simpl; auto. Qed.

Lemma image_rows (v : list R) (n : nat) (im : array2) :
  reshape v n n = Ok im ->
  length v = (n * n)%nat /\
  shape (T_ im) = (n, n) /\
  rows (T_ im) =
  map (fun j => map (fun i => nth (i * n + j) v 0) (seq 0 n)) (seq 0 n).
Proof.
  unfold reshape. destruct (Nat.eqb_spec (length v) (n * n)); [|discriminate].
  intros [= <-]. split; [assumption|]. split.
  - unfold shape, T_, nrows. cbn [rows ncols].
    rewrite length_map, length_seq, length_chunks. reflexivity.
  - unfold T_. cbn [rows ncols]. apply map_ext_in. intros j Hj.
    apply in_seq in Hj. apply chunks_column. lia.
Qed.

Lemma image_Forall (P : R -> Prop) (v : list R) (n : nat) (im : array2) :
  reshape v n n = Ok im -> Forall P v -> Forall (Forall P) (rows (T_ im)).
Proof.
  intros E Hv. destruct (image_rows v n im E) as (Hlen & _ & ->).
  rewrite Forall_forall in Hv.
  apply Forall_map, Forall_forall. intros j Hj. apply in_seq in Hj.
  apply Forall_map, Forall_forall. intros i Hi. apply in_seq in Hi.
  apply Hv, nth_In. nia.
Qed.

Lemma Forall2_map_same {A B C : Type} (Q : B -> C -> Prop) (f : A -> B)
    (g : A -> C) (l : list A) :
  (forall x, In x l -> Q (f x) (g x)) -> Forall2 Q (map f l) (map g l).
Proof.
  induction l as [|x l IH]; intros HQ; simpl; constructor.
  - apply HQ. left. reflexivity.
  - apply IH. intros y Hy. apply HQ. right. exact Hy.
Qed.

Lemma image_Forall2 (Q : R -> R -> Prop) (g : R -> R) (v : list R) (n : nat)
    (im im' : array2) :
  reshape v n n = Ok im -> reshape (map g v) n n = Ok im' ->
  Forall (fun x => Q x (g x)) v ->
  Forall2 (Forall2 Q) (rows (T_ im)) (rows (T_ im')).
Proof.
  intros E E' Hv.
  destruct (image_rows v n im E) as (Hlen & _ & ->).
  destruct (image_rows _ n im' E') as (_ & _ & ->).
  rewrite Forall_forall in Hv.
  apply Forall2_map_same. intros j Hj. apply in_seq in Hj.
  apply Forall2_map_same. intros i Hi. apply in_seq in Hi.
  rewrite (nth_indep (map g v) 0 (g 0)) by (rewrite length_map; nia).
  rewrite map_nth. apply Hv, nth_In. nia.
Qed.

Lemma grids_Ok (S : list interval) (ngrid : Z) :
  forall acc grids,
    for_each S
      (fun S_k ss => l <- linspace (fst S_k) (snd S_k) ngrid ;; Ok (ss ++ [l]))
      acc = Ok grids ->
    Forall (fun l => length l = Z.to_nat ngrid) acc ->
    length grids = (length acc + length S)%nat /\
    Forall (fun l => length l = Z.to_nat ngrid) grids.
Proof.
  induction S as [|S_k S IH]; intros acc grids E Hacc; cbn [for_each] in E.
  - injection E as <-. simpl. split; [lia|exact Hacc].
  - apply bind_Ok in E. destruct E as [acc' [E1 E]].
    apply bind_Ok in E1. destruct E1 as [l [El E1]]. injection E1 as <-.
    apply linspace_Ok in El. destruct El as [_ El].
    destruct (IH _ _ E) as [Hlen Hall].
    + apply Forall_app. split; [exact Hacc|]. constructor; [exact El|constructor].
    + split; [|exact Hall]. rewrite Hlen, length_app. simpl. lia.
Qed.

Lemma length_product (n : nat) (ss : list (list R)) :
  Forall (fun l => length l = n) ss ->
  length (product ss) = (n ^ length ss)%nat.
Proof.
  induction 1 as [|l ss Hl _ IH]; trivial. cbn [product length Nat.pow].
  rewrite (flat_map_constant_length (c := (n ^ length ss)%nat)), Hl;
    [reflexivity|].
  intros x _. rewrite length_map. exact IH.
Qed.

Lemma hawkes_value_ge_mu (k : kernel_variant) (mu maximum : R)
    (t : R) (his_t : list R) (s : list R) (his_s : array2) (v : R) :
  variant_valid k -> past t his_t ->
  value (mk_lam mu k maximum) t his_t s his_s = Ok v ->
  mu <= v.
Proof.
  intros Hk Hp. simpl. unfold HawkesLam_value. simpl.
  destruct (0 <? length his_t)%nat.
  - intros E. apply bind_Ok in E. destruct E as [o [Ho E]].
    injection E as <-.
    assert (Hs := sum_nonneg o (variant_nu_nonneg _ _ _ _ _ _ Hk Hp Ho)). lra.
  - intros [= <-]. lra.
Qed.

Section PlotProperties.

Context {L : Type} `{Intensity L}.
Variable lam : L.

Lemma plot_Ok (points : array2) (plot_ts : R) (T : interval)
    (S : list interval) (ngrid : Z) (im_lam im_f : array2) :
  plot_3d_pointprocess_lam_f lam points plot_ts T S ngrid = Ok (im_lam, im_f) ->
  exists grids h his_t evals ts lamvals im1 im2,
    for_each S
      (fun S_k ss => l <- linspace (fst S_k) (snd S_k) ngrid ;; Ok (ss ++ [l]))
      [] = Ok grids /\
    his_p points plot_ts = Ok h /\
    column 0 h = Ok his_t /\
    values_over lam (product grids) plot_ts his_t (columns_from_1 h) []
      = Ok evals /\
    linspace (last his_t 0) plot_ts ngrid = Ok ts /\
    for_each (tl ts)
      (fun t lamvals =>
         values_over lam (product grids) t his_t (columns_from_1 h) lamvals)
      [] = Ok lamvals /\
    reshape evals (Z.to_nat ngrid) (Z.to_nat ngrid) = Ok im1 /\
    reshape
      (map (fun e =>
              e * exp (- (sum_list lamvals *
                          (prod_list ((plot_ts - last his_t 0)
                                      :: map (fun S_k => snd S_k - fst S_k) S)
                           / IZR ((ngrid - 1) ^ 3)))))
           evals)
      (Z.to_nat ngrid) (Z.to_nat ngrid) = Ok im2 /\
    im_lam = T_ im1 /\ im_f = T_ im2.
Proof.
  intros E. unfold plot_3d_pointprocess_lam_f in E.
  apply bind_Ok in E. destruct E as [grids [Eg E]]. cbv beta zeta in E.
  apply bind_Ok in E. destruct E as [h [Eh E]].
  apply bind_Ok in E. destruct E as [his_t [Et E]].
  apply bind_Ok in E. destruct E as [evals [Ee E]].
  apply bind_Ok in E. destruct E as [ts [Ets E]].
  apply bind_Ok in E. destruct E as [lamvals [El E]].
  apply bind_Ok in E. destruct E as [im1 [E1 E]].
  apply bind_Ok in E. destruct E as [S0 [_ E]].
  apply bind_Ok in E. destruct E as [S1 [_ E]].
  apply bind_Ok in E. destruct E as [im2 [E2 E]].
  injection E as <- <-.
  exists grids, h, his_t, evals, ts, lamvals, im1, im2. repeat split; assumption.
Qed.

(** X16. The function needs a region of two space dimensions: with any
    other number of intervals in [S] and a grid of at least two values a
    side it raises, at the latest when it reshapes the values to
    [(ngrid, ngrid)]. *)
Theorem plot_needs_two_dimensions (points : array2) (plot_ts : R)
    (T : interval) (S : list interval) (ngrid : Z) :
  (2 <= ngrid)%Z -> length S <> 2%nat ->
  exists e,
    plot_3d_pointprocess_lam_f lam points plot_ts T S ngrid = Raise e.
Proof.
  intros Hn HS.
  destruct (plot_3d_pointprocess_lam_f lam points plot_ts T S ngrid)
    as [[im_lam im_f]|e] eqn:E; [exfalso|exists e; reflexivity].
  apply plot_Ok in E.
  destruct E as (grids & h & his_t & evals & ts & lamvals & im1 & im2 &
                 Eg & _ & _ & Ee & _ & _ & E1 & _).
  apply grids_Ok in Eg; [|constructor]. destruct Eg as [Hlen Hall].
  apply values_over_length in Ee.
  rewrite (length_product _ _ Hall), Hlen in Ee. simpl in Ee.
  apply image_rows in E1. destruct E1 as [E1 _]. rewrite Ee in E1.
  apply HS. apply (Nat.pow_inj_r (Z.to_nat ngrid)); [lia|].
  rewrite E1. simpl. lia.
Qed.

End PlotProperties.

(** X17. The zero rows with which [generate] pads a sequence do not enter
    the history: from a padded sequence whose events lie strictly between
    time 0 and [plot_ts] the mask selects the sequence itself. *)
Theorem padding_is_left_out (points : array2) (max_len : nat) (plot_ts : R) :
  ncols points = 3%nat ->
  Forall (fun r => 0 < time_of r < plot_ts) (rows points) ->
  his_p (mk_array2 3 (padded max_len points)) plot_ts = Ok points.
Proof.
  intros Hc Hrows. unfold his_p, column. cbn [ncols rows Nat.ltb Nat.leb bind].
  destruct points as [c rs]. cbn [ncols rows] in *. subst c. f_equal. f_equal.
  unfold padded. cbn [rows]. rewrite filter_app.
  assert (H1 : filter (in_history plot_ts) rs = rs).
  { apply forallb_filter_id, forallb_forall. intros r Hr.
    rewrite Forall_forall in Hrows. apply in_history_true, Hrows, Hr. }
  assert (H2 : forall k, filter (in_history plot_ts) (repeat (repeat 0 3) k) = []).
  { induction k as [|k IH]; trivial. cbn [repeat filter].
    replace (in_history plot_ts [0; 0; 0]) with false; [exact IH|].
    unfold in_history, time_of. cbn [nth].
    destruct (Rgt_dec 0 0); [lra|]. apply eq_sym, andb_false_r. }
  rewrite H1, H2. apply app_nil_r.
Qed.

(** X18. The first image holds the intensity at [plot_ts] over the grid:
    it has [ngrid] rows and columns, and none of its values is below the
    background rate when the kernel is valid, the events of the history
    being those strictly before [plot_ts]. *)
Theorem plotted_intensity_at_least_background (k : kernel_variant)
    (mu maximum : R) (points : array2) (plot_ts : R) (T : interval)
    (S : list interval) (ngrid : Z) (im_lam im_f : array2) :
  variant_valid k ->
  plot_3d_pointprocess_lam_f (mk_lam mu k maximum) points plot_ts T S ngrid
    = Ok (im_lam, im_f) ->
  shape im_lam = (Z.to_nat ngrid, Z.to_nat ngrid) /\
  shape im_f = (Z.to_nat ngrid, Z.to_nat ngrid) /\
  Forall (Forall (Rle mu)) (rows im_lam).
Proof.
  intros Hk E. apply plot_Ok in E.
  destruct E as (grids & h & his_t & evals & ts & lamvals & im1 & im2 &
                 _ & Eh & Et & Ee & _ & _ & E1 & E2 & -> & ->).
  destruct (his_t_past _ _ _ _ Eh Et) as [_ Hpast].
  split; [apply (image_rows _ _ _ E1)|]. split; [apply (image_rows _ _ _ E2)|].
  apply (image_Forall _ _ _ _ E1).
  apply (values_over_Forall _ (Rle mu) _ _ _) in Ee; [exact Ee| |constructor].
  intros s v Ev. apply (hawkes_value_ge_mu _ _ _ _ _ _ _ _ Hk) in Ev; trivial.
  unfold past. eapply Forall_impl; [|exact Hpast]. simpl. intros x Hx. lra.
Qed.

(** X19. The second image lies between zero and the first: with a valid
    kernel, a background rate that is not negative, a grid of at least two
    values a side, a region whose bounds are in order, [plot_ts] not
    negative and the events of the history in ascending order of time, the
    integral of the intensity is not negative, so that every value of [f] is
    the intensity scaled by a factor in (0, 1]. *)
Theorem plotted_density_below_intensity (k : kernel_variant)
    (mu maximum : R) (points : array2) (plot_ts : R) (T : interval)
    (S : list interval) (ngrid : Z) (im_lam im_f h : array2) :
  variant_valid k -> 0 <= mu -> (2 <= ngrid)%Z -> proper S -> 0 <= plot_ts ->
  his_p points plot_ts = Ok h -> ascending (rows h) ->
  plot_3d_pointprocess_lam_f (mk_lam mu k maximum) points plot_ts T S ngrid
    = Ok (im_lam, im_f) ->
  Forall2 (Forall2 (fun e f => 0 <= f <= e)) (rows im_lam) (rows im_f).
Proof.
  intros Hk Hmu Hn HS Hts Eh Hasc E. apply plot_Ok in E.
  destruct E as (grids & h' & his_t & evals & ts & lamvals & im1 & im2 &
                 _ & Eh' & Et & Ee & Ets & El & E1 & E2 & -> & ->).
  rewrite Eh in Eh'. injection Eh' as <-.
  destruct (his_t_past _ _ _ _ Eh Et) as [Ht Hpast].
  assert (Hlast : 0 <= last his_t 0 <= plot_ts /\
                  (his_t <> [] -> last his_t 0 < plot_ts)).
  { destruct his_t as [|x his_t]; [simpl; split; [lra|congruence]|].
    assert (Hin : In (last (x :: his_t) 0) (x :: his_t))
      by (apply last_In; discriminate).
    rewrite Forall_forall in Hpast. apply Hpast in Hin. split; intros; lra. }
  destruct Hlast as [Hlast Hlt].
  assert (Hev : Forall (Rle mu) evals).
  { apply (values_over_Forall _ (Rle mu) _ _ _) in Ee; [exact Ee| |constructor].
    intros s v Ev. apply (hawkes_value_ge_mu _ _ _ _ _ _ _ _ Hk) in Ev; trivial.
    unfold past. eapply Forall_impl; [|exact Hpast]. simpl. intros x Hx. lra. }
  assert (Hlam : Forall (Rle 0) lamvals).
  { apply (for_each_invariant (Forall (Rle 0))) in El;
      [exact El| |constructor].
    intros t vals vals' Hin Hvals Ev.
    apply (values_over_Forall _ (Rle 0) _ _ _) in Ev; [exact Ev| |exact Hvals].
    intros s v Es. apply (hawkes_value_ge_mu _ _ _ _ _ _ _ _ Hk) in Es;
      [lra|].
    destruct his_t as [|x his_t]; [constructor|].
    specialize (Hlt ltac:(discriminate)).
    assert (Ht' := linspace_tl _ _ _ _ Ets Hlt).
    rewrite Forall_forall in Ht'. apply Ht' in Hin.
    assert (Hmax := ascending_last _ Hasc). rewrite <- Ht in Hmax.
    unfold past. eapply Forall_impl; [|exact Hmax]. cbv beta.
    intros y Hy. lra. }
  assert (Hvol : 0 <= prod_list ((plot_ts - last his_t 0)
                                 :: map (fun S_k => snd S_k - fst S_k) S)
                      / IZR ((ngrid - 1) ^ 3)).
  { unfold Rdiv. apply Rmult_le_pos.
    - apply fold_left_Rmult_nonneg; [|lra]. constructor; [lra|].
      apply Forall_map. eapply Forall_impl; [|exact HS]. simpl. intros I HI. lra.
    - left. apply Rinv_0_lt_compat, IZR_lt. apply Z.pow_pos_nonneg; lia. }
  assert (Hint := Rmult_le_pos _ _ (sum_list_nonneg _ Hlam) Hvol).
  apply (image_Forall2 _ _ _ _ _ _ E1 E2).
  eapply Forall_impl; [|exact Hev]. cbv beta. intros e He.
  assert (Hexp := exp_pos (- (sum_list lamvals *
                    (prod_list ((plot_ts - last his_t 0)
                                :: map (fun S_k => snd S_k - fst S_k) S)
                     / IZR ((ngrid - 1) ^ 3))))).
  assert (Hle := exp_nonpos_le_1 (- (sum_list lamvals *
                    (prod_list ((plot_ts - last his_t 0)
                                :: map (fun S_k => snd S_k - fst S_k) S)
                     / IZR ((ngrid - 1) ^ 3)))) ltac:(lra)).
  assert (He0 : 0 <= e) by lra.
  split; [apply Rmult_le_pos; lra|]. nra.
Qed.

Lemma values_over_Forall2 {L : Type} `{Intensity L} (lam : L)
    (t : R) (his_t : list R) (his_s : array2) :
  forall ss vals r,
    values_over lam ss t his_t his_s vals = Ok r ->
    exists r',
      r = vals ++ r' /\
      Forall2 (fun s v => value lam t his_t s his_s = Ok v) ss r'.
Proof.
  unfold values_over.
  induction ss as [|s ss IH]; intros vals r E; cbn [for_each] in E.
  - injection E as <-. exists []. rewrite app_nil_r. split; constructor.
  - apply bind_Ok in E. destruct E as [vals' [E1 E]].
    apply bind_Ok in E1. destruct E1 as [v [Ev E1]]. injection E1 as <-.
    destruct (IH _ _ E) as (r' & -> & Hall).
    exists (v :: r'). rewrite <- app_assoc. split; [reflexivity|].
    constructor; assumption.
Qed.

Lemma Forall2_nth_both {A B : Type} (P : A -> B -> Prop) (l : list A)
    (l' : list B) (a : A) (b : B) :
  Forall2 P l l' ->
  forall k, (k < length l)%nat -> P (nth k l a) (nth k l' b).
Proof.
  induction 1 as [|x y l l' Hxy _ IH]; intros k Hk; simpl in Hk; [lia|].
  destruct k as [|k]; [exact Hxy|]. apply IH. lia.
Qed.

Lemma product_one_nth (ys : list R) (j : nat) :
  (j < length ys)%nat -> nth j (product [ys]) [] = [nth j ys 0].
Proof.
  revert j. induction ys as [|y ys IH]; intros j Hj; simpl in Hj; [lia|].
  destruct j as [|j]; [reflexivity|]. apply (IH j). lia.
Qed.

Lemma length_product_one (ys : list R) : length (product [ys]) = length ys.
Proof. induction ys as [|y ys IH]; simpl in *; auto. Qed.

Lemma product_pair_nth (xs ys : list R) (j : nat) :
  (j < length ys)%nat ->
  forall i, (i < length xs)%nat ->
    nth (i * length ys + j) (product [xs; ys]) [] = [nth i xs 0; nth j ys 0].
Proof.
  intros Hj. induction xs as [|x xs IH]; intros i Hi; simpl in Hi; [lia|].
  change (product [x :: xs; ys])
    with (map (cons x) (product [ys]) ++ product [xs; ys]).
  destruct i as [|i].
  - rewrite app_nth1 by (rewrite length_map, length_product_one; exact Hj).
    rewrite (nth_indep _ [] (x :: []))
      by (rewrite length_map, length_product_one; exact Hj).
    rewrite map_nth, product_one_nth by exact Hj. reflexivity.
  - rewrite app_nth2 by (rewrite length_map, length_product_one; simpl; lia).
    rewrite length_map, length_product_one.
    replace (Datatypes.S i * length ys + j - length ys)%nat
      with (i * length ys + j)%nat by (simpl; lia).
    apply IH. lia.
Qed.

Section PlotAxes.

Context {L : Type} `{Intensity L}.
Variable lam : L.

(** X20. The axes of the first image: for a region [S = [Sx, Sy]] the value
    in row [j] and column [i] is the intensity at time [plot_ts] at the
    location of the [i]-th grid value of [Sx] and the [j]-th of [Sy], given
    the events of [points] strictly between time 0 and [plot_ts]. *)
Theorem image_axes (points : array2) (plot_ts : R) (T Sx Sy : interval)
    (ngrid : Z) (im_lam im_f h : array2) (xs ys : list R) (i j : nat) :
  plot_3d_pointprocess_lam_f lam points plot_ts T [Sx; Sy] ngrid
    = Ok (im_lam, im_f) ->
  his_p points plot_ts = Ok h ->
  linspace (fst Sx) (snd Sx) ngrid = Ok xs ->
  linspace (fst Sy) (snd Sy) ngrid = Ok ys ->
  (i < Z.to_nat ngrid)%nat -> (j < Z.to_nat ngrid)%nat ->
  value lam plot_ts (map time_of (rows h)) [nth i xs 0; nth j ys 0]
    (columns_from_1 h)
  = Ok (nth i (nth j (rows im_lam) []) 0).
Proof.
  intros E Eh Ex Ey Hi Hj. apply plot_Ok in E.
  destruct E as (grids & h' & his_t & evals & ts & lamvals & im1 & im2 &
                 Eg & Eh' & Et & Ee & _ & _ & E1 & _ & -> & _).
  rewrite Eh in Eh'. injection Eh' as <-.
  destruct (his_t_past _ _ _ _ Eh Et) as [-> _].
  cbn [for_each] in Eg. rewrite Ex, Ey in Eg. cbn [bind app] in Eg.
  injection Eg as <-.
  apply linspace_Ok in Ex, Ey. destruct Ex as [_ Hx], Ey as [_ Hy].
  apply values_over_Forall2 in Ee. destruct Ee as (r' & -> & Hall).
  cbn [app] in E1. destruct (image_rows _ _ _ E1) as (Hlen & _ & ->).
  set (n := Z.to_nat ngrid) in *.
  rewrite (nth_indep _ [] (map (fun i0 => nth (i0 * n + 0) r' 0) (seq 0 n)))
    by (rewrite length_map, length_seq; exact Hj).
  rewrite (map_nth (fun j0 => map (fun i0 => nth (i0 * n + j0) r' 0) (seq 0 n))).
  rewrite seq_nth by exact Hj. cbn [Nat.add].
  rewrite (nth_indep (map (fun i0 => nth (i0 * n + j) r' 0) (seq 0 n)) 0
             (nth (0 * n + j) r' 0))
    by (rewrite length_map, length_seq; exact Hi).
  rewrite (map_nth (fun i0 => nth (i0 * n + j) r' 0)).
  rewrite seq_nth by exact Hi. cbn [Nat.add].
  assert (Hk : (i * n + j < length (product [xs; ys]))%nat).
  { rewrite (length_product n) by (repeat constructor; assumption).
    simpl. nia. }
  assert (Hv := Forall2_nth_both _ _ _ [] 0 Hall _ Hk). cbv beta in Hv.
  rewrite <- Hy in Hv at 1.
  rewrite product_pair_nth in Hv by lia. exact Hv.
Qed.

End PlotAxes.

(** ** The images on concrete inputs *)

Lemma plot_needs_two_dimensions_witness :
  length unit_cube <> 2%nat /\
  exists e,
    plot_3d_pointprocess_lam_f lam_hawkes (mk_array2 3 [early_row]) (3 / 4)
      unit_interval unit_cube 2 = Raise e.
Proof.
  assert (HS : length unit_cube <> 2%nat) by discriminate.
  split; [exact HS|].
  apply (plot_needs_two_dimensions lam_hawkes); [lia|exact HS].
Defined.

Lemma padding_is_left_out_witness :
  Forall (fun r => 0 < time_of r < 1) [early_row; late_row] /\
  his_p (mk_array2 3 [early_row; late_row; origin_row; origin_row]) 1
  = Ok (mk_array2 3 [early_row; late_row]).
Proof.
  assert (Hr : Forall (fun r => 0 < time_of r < 1) [early_row; late_row])
    by (unfold time_of, early_row, late_row;
        constructor; [simpl; lra|constructor; [simpl; lra|constructor]]).
  split; [exact Hr|].
  exact (padding_is_left_out (mk_array2 3 [early_row; late_row]) 4 1
           eq_refl Hr).
Defined.

Lemma his_p_early :
  his_p (mk_array2 3 [early_row; origin_row]) (3 / 4)
  = Ok (mk_array2 3 [early_row]).
Proof.
  unfold his_p, column. cbn [ncols rows Nat.ltb Nat.leb bind filter].
  unfold in_history, time_of. cbn [nth early_row origin_row].
  real_decide. reflexivity.
Qed.

Lemma plot_early :
  exists im_lam im_f,
    plot_3d_pointprocess_lam_f (mk_lam 1 (Isotropic (mk_std 1 1 1 1)) 2)
      (mk_array2 3 [early_row; origin_row]) (3 / 4) unit_interval
      unit_square 2 = Ok (im_lam, im_f).
Proof.
  unfold plot_3d_pointprocess_lam_f. rewrite his_p_early.
  eexists. eexists. reflexivity.
Qed.

Lemma plotted_intensity_at_least_background_witness :
  variant_valid (Isotropic (mk_std 1 1 1 1)) /\
  exists im_lam im_f,
    plot_3d_pointprocess_lam_f (mk_lam 1 (Isotropic (mk_std 1 1 1 1)) 2)
      (mk_array2 3 [early_row; origin_row]) (3 / 4) unit_interval
      unit_square 2 = Ok (im_lam, im_f) /\
    shape im_lam = (2, 2)%nat /\
    Forall (Forall (Rle 1)) (rows im_lam).
Proof.
  assert (Hk : variant_valid (Isotropic (mk_std 1 1 1 1)))
    by (simpl; unfold std_valid; simpl; lra).
  split; [exact Hk|].
  destruct plot_early as (im_lam & im_f & E). exists im_lam, im_f.
  split; [exact E|].
  destruct (plotted_intensity_at_least_background _ _ _ _ _ _ _ _ _ _ Hk E)
    as (Hs & _ & Hv).
  split; [exact Hs|exact Hv].
Defined.

Lemma plotted_density_below_intensity_witness :
  variant_valid (Isotropic (mk_std 1 1 1 1)) /\
  proper unit_square /\
  his_p (mk_array2 3 [early_row; origin_row]) (3 / 4)
    = Ok (mk_array2 3 [early_row]) /\
  ascending [early_row] /\
  exists im_lam im_f,
    plot_3d_pointprocess_lam_f (mk_lam 1 (Isotropic (mk_std 1 1 1 1)) 2)
      (mk_array2 3 [early_row; origin_row]) (3 / 4) unit_interval
      unit_square 2 = Ok (im_lam, im_f) /\
    Forall2 (Forall2 (fun e f => 0 <= f <= e)) (rows im_lam) (rows im_f).
Proof.
  assert (Hk : variant_valid (Isotropic (mk_std 1 1 1 1)))
    by (simpl; unfold std_valid; simpl; lra).
  assert (HS : proper unit_square)
    by (constructor; [simpl; lra|constructor; [simpl; lra|constructor]]).
  assert (Ha : ascending [early_row]) by (repeat constructor).
  assert (Hmu : 0 <= 1) by lra.
  assert (Hts : 0 <= 3 / 4) by lra.
  split; [exact Hk|]. split; [exact HS|]. split; [exact his_p_early|].
  split; [exact Ha|].
  destruct plot_early as (im_lam & im_f & E). exists im_lam, im_f.
  split; [exact E|].
  exact (plotted_density_below_intensity _ _ _ _ _ _ _ _ _ _ _ Hk Hmu
           (Z.le_refl 2) HS Hts his_p_early Ha E).
Defined.

Lemma image_axes_witness :
  exists im_lam im_f,
    plot_3d_pointprocess_lam_f (mk_lam 1 (Isotropic (mk_std 1 1 1 1)) 2)
      (mk_array2 3 [early_row; origin_row]) (3 / 4) unit_interval
      unit_square 2 = Ok (im_lam, im_f) /\
    value (mk_lam 1 (Isotropic (mk_std 1 1 1 1)) 2) (3 / 4) [/ 4]
      [1; 0 + INR 0 * ((1 - 0) / IZR (2 - 1))] (mk_array2 2 [[/ 4; / 4]])
    = Ok (nth 1 (nth 0 (rows im_lam) []) 0).
Proof.
  destruct plot_early as (im_lam & im_f & E). exists im_lam, im_f.
  split; [exact E|].
  assert (El : linspace 0 1 2 = Ok [0 + INR 0 * ((1 - 0) / IZR (2 - 1)); 1])
    by reflexivity.
  exact (image_axes (mk_lam 1 (Isotropic (mk_std 1 1 1 1)) 2)
           (mk_array2 3 [early_row; origin_row]) (3 / 4) unit_interval
           (0, 1) (0, 1) 2 im_lam im_f (mk_array2 3 [early_row])
           [0 + INR 0 * ((1 - 0) / IZR (2 - 1)); 1]
           [0 + INR 0 * ((1 - 0) / IZR (2 - 1)); 1] 1 0
           E his_p_early El El (Nat.lt_succ_diag_r 1) Nat.lt_0_2).
Defined.
